(** * Workflow execution engine: a shallow embedding of the Inngest executor

    The development follows the executor source file (the module defining
    [executeWorkflowFunction]) and [lib/steps/condition.ts]:

    - JavaScript values, objects and strings as the executor uses them,
      property reads following the prototype chain and assignments under
      [__proto__] reaching the setter of [Object.prototype];
    - the template pattern [/\{\{@([^:]+):([^}]+)\}\}/g] and the two
      replacement callbacks ([processTemplates], [replaceTemplateVariable]);
    - [evaluateConditionExpression];
    - the recursive [executeNode] walk and the run aggregate.

    Collaborators that live outside the executor (the condition validator,
    the step registry, the step logging wrapper, the JavaScript built-ins
    [JSON.parse], [JSON.stringify], [String], [new Function] and the clock)
    are the fields of the class [Collaborators]: every result holds for all
    of them. *)

From Stdlib Require Import PrimFloat Ascii String.
From stdpp Require Import gmap strings list fin_maps pretty.

Set Warnings "-register-all,-clear-no-such-hyp".
Local Open Scope string_scope.

(** ** JavaScript values *)

(** The built-in objects a property read can reach from a plain object or
    an array: the two prototypes and the functions they hold, named by
    their path ([Object], [Array], [Object.prototype.toString], ...). *)
Inductive native : Type :=
| ObjectPrototype
| ArrayPrototype
| BuiltinFunction (name : string).

(** Numbers are IEEE 754 doubles, strings are sequences of code units (one
    [ascii] per unit), objects are plain objects (prototype
    [Object.prototype]) given by their own enumerable properties, in
    insertion order with pairwise distinct keys (the engine's rule that
    integer-like keys come first is left out: nothing below depends on the
    order). *)
Inductive value : Type :=
| VUndefined
| VNull
| VBool (b : bool)
| VNum (n : float)
| VStr (s : string)
| VArr (items : list value)
| VObj (props : list (string * value))
| VNative (n : native).

Abbreviation obj := (list (string * value)).

(** [Boolean(v)] *)
Definition Boolean (v : value) : bool :=
  match v with
  | VUndefined | VNull => false
  | VBool b => b
  | VNum n => negb (PrimFloat.eqb n 0%float || PrimFloat.is_nan n)
  | VStr s => negb (bool_decide (s = ""))
  | VArr _ | VObj _ | VNative _ => true
  end.

(** [v && typeof v === "object"]; the [typeof] of a function is
    ["function"]. *)
Definition is_object (v : value) : bool :=
  match v with
  | VArr _ | VObj _ | VNative ObjectPrototype | VNative ArrayPrototype => true
  | _ => false
  end.

(** [v === null || v === undefined] *)
Definition is_nullish (v : value) : bool :=
  match v with
  | VUndefined | VNull => true
  | _ => false
  end.

Fixpoint obj_get (k : string) (o : obj) : option value :=
  match o with
  | [] => None
  | (k', v) :: o' => if bool_decide (k' = k) then Some v else obj_get k o'
  end.

(** Defining the own property [k] of [o] ([CreateDataProperty], as object
    spread and literals do, and as an assignment [o.k = v] does for a key
    other than [__proto__]): an existing property keeps its position, a new
    one is appended. *)
Fixpoint obj_set (k : string) (v : value) (o : obj) : obj :=
  match o with
  | [] => [(k, v)]
  | (k', v') :: o' =>
      if bool_decide (k' = k) then (k, v) :: o' else (k', v') :: obj_set k v o'
  end.

(** [o[k] = v] on a plain object whose properties are writable data
    properties. Under [__proto__], unless [o] has an own property of that
    name, the assignment reaches the setter of [Object.prototype]: it
    changes the prototype of [o] (when [v] is an object or [null]) or does
    nothing, and creates no property. *)
Definition js_set (k : string) (v : value) (o : obj) : obj :=
  if bool_decide (k = "__proto__") && negb (bool_decide (is_Some (obj_get k o)))
  then o
  else obj_set k v o.

(** [{...o, ...src}] for a property list [src]. *)
Definition obj_assign (o src : obj) : obj :=
  foldl (λ acc kv, obj_set kv.1 kv.2 acc) o src.

Fixpoint float_of_nat (n : nat) : float :=
  match n with
  | O => 0%float
  | S k => (float_of_nat k + 1)%float
  end.

Fixpoint chars (s : string) : list value :=
  match s with
  | EmptyString => []
  | String c s' => VStr (String c EmptyString) :: chars s'
  end.

Definition indexed (items : list value) : obj :=
  imap (λ i v, (pretty i, v)) items.

(** The own enumerable properties copied by an object spread [{...v}]. *)
Definition own_props (v : value) : obj :=
  match v with
  | VObj props => props
  | VArr items => indexed items
  | VStr s => indexed (chars s)
  | _ => []
  end.

(** *** The prototype chain

    The string-keyed properties of [Object.prototype] (ECMA-262, 20.1.3
    and B.2.2) and of [Array.prototype] (23.1.3, as of ECMAScript 2023),
    [constructor], [length] and the accessor [__proto__] apart. *)
Definition Object_prototype_methods : list string :=
  ["__defineGetter__"; "__defineSetter__"; "__lookupGetter__"; "__lookupSetter__";
   "hasOwnProperty"; "isPrototypeOf"; "propertyIsEnumerable"; "toLocaleString";
   "toString"; "valueOf"].

Definition Array_prototype_methods : list string :=
  ["at"; "concat"; "copyWithin"; "entries"; "every"; "fill"; "filter"; "find";
   "findIndex"; "findLast"; "findLastIndex"; "flat"; "flatMap"; "forEach";
   "includes"; "indexOf"; "join"; "keys"; "lastIndexOf"; "map"; "pop"; "push";
   "reduce"; "reduceRight"; "reverse"; "shift"; "slice"; "some"; "sort";
   "splice"; "toLocaleString"; "toReversed"; "toSorted"; "toSpliced";
   "toString"; "unshift"; "values"; "with"].

(** The data properties of [Object.prototype] itself. *)
Definition Object_prototype_get (field : string) : option value :=
  if bool_decide (field = "constructor") then Some (VNative (BuiltinFunction "Object"))
  else if bool_decide (field ∈ Object_prototype_methods)
  then Some (VNative (BuiltinFunction ("Object.prototype." +:+ field)))
  else None.

(** The data properties of [Array.prototype] itself. *)
Definition Array_prototype_get (field : string) : option value :=
  if bool_decide (field = "constructor") then Some (VNative (BuiltinFunction "Array"))
  else if bool_decide (field = "length") then Some (VNum 0%float)
  else if bool_decide (field ∈ Array_prototype_methods)
  then Some (VNative (BuiltinFunction ("Array.prototype." +:+ field)))
  else None.

(** The own properties of an object that are entries of the model. *)
Definition own_entry (v : value) (field : string) : option value :=
  match v with
  | VObj props => obj_get field props
  | VArr items =>
      if bool_decide (field = "length") then Some (VNum (float_of_nat (length items)))
      else obj_get field (indexed items)
  | _ => None
  end.

(** [Object.getPrototypeOf(v)] for an object. *)
Definition prototype_of (v : value) : value :=
  match v with
  | VObj _ | VNative ArrayPrototype => VNative ObjectPrototype
  | VArr _ => VNative ArrayPrototype
  | _ => VNull
  end.

(** What the prototype chain gives an object under [field]: the properties
    that [Array.prototype] and [Object.prototype] hold and, under
    [__proto__], the prototype of the object. *)
Definition inherited (v : value) (field : string) : option value :=
  if bool_decide (field = "__proto__") then Some (prototype_of v)
  else
    match v with
    | VArr _ | VNative ArrayPrototype =>
        match Array_prototype_get field with
        | Some x => Some x
        | None => Object_prototype_get field
        end
    | _ => Object_prototype_get field
    end.

(** [v[field]] for an object: own properties first, then the prototype
    chain. On a primitive and on a function the program reads only [data]
    and [condition], which none of them has: the result is [undefined]. *)
Definition js_get (v : value) (field : string) : value :=
  if is_object v then
    match own_entry v field with
    | Some x => x
    | None => default VUndefined (inherited v field)
    end
  else VUndefined.

(** [field in v] for an object. *)
Definition js_in (field : string) (v : value) : bool :=
  is_object v
  && bool_decide (is_Some (own_entry v field) ∨ is_Some (inherited v field)).

(** ** Strings *)

Definition is_alnum (c : ascii) : bool :=
  let n := nat_of_ascii c in
  (((48 <=? n) && (n <=? 57)) || ((65 <=? n) && (n <=? 90))
   || ((97 <=? n) && (n <=? 122)))%nat.

(** [nodeId.replace(/[^a-zA-Z0-9]/g, "_")] *)
Fixpoint sanitize (s : string) : string :=
  match s with
  | EmptyString => EmptyString
  | String c s' => String (if is_alnum c then c else "_"%char) (sanitize s')
  end.

(** Longest prefix of [s] whose characters all differ from [stop], and what
    follows it: a greedy negated character class [[^stop]*]. *)
Fixpoint span_not (stop : ascii) (s : string) : string * string :=
  match s with
  | EmptyString => (EmptyString, EmptyString)
  | String c s' =>
      if bool_decide (c = stop) then (EmptyString, s)
      else let '(p, r) := span_not stop s' in (String c p, r)
  end.

Fixpoint strip_prefix (p s : string) : option string :=
  match p, s with
  | EmptyString, _ => Some s
  | String a p', String b s' =>
      if bool_decide (a = b) then strip_prefix p' s' else None
  | String _ _, EmptyString => None
  end.

Fixpoint drop_string (n : nat) (s : string) : string :=
  match n, s with
  | O, _ => s
  | S k, String _ s' => drop_string k s'
  | S _, EmptyString => EmptyString
  end.

(** [rest.indexOf(".")] followed by [rest.substring(dotIndex + 1)]:
    [None] when there is no dot. *)
Fixpoint after_first_dot (s : string) : option string :=
  match s with
  | EmptyString => None
  | String c s' => if bool_decide (c = "."%char) then Some s' else after_first_dot s'
  end.

(** [s.split(".")] *)
Fixpoint split_dots (s : string) : list string :=
  match s with
  | EmptyString => [EmptyString]
  | String c s' =>
      if bool_decide (c = "."%char) then EmptyString :: split_dots s'
      else match split_dots s' with
           | [] => [String c EmptyString]
           | f :: fs => String c f :: fs
           end
  end.

(** ** The template pattern *)

Record template_match := {
  m_text : string;     (* the whole match *)
  m_nodeId : string;   (* first capture group *)
  m_rest : string;     (* second capture group *)
  m_after : string     (* the input after the match *)
}.

Fixpoint occurs (c : ascii) (s : string) : bool :=
  match s with
  | EmptyString => false
  | String c' s' => bool_decide (c' = c) || occurs c s'
  end.

Definition template_text (nodeId rest : string) : string :=
  "{{@" +:+ nodeId +:+ ":" +:+ rest +:+ "}}".

(** One attempt of [/\{\{@([^:]+):([^}]+)\}\}/] at the start of [s]. Both
    groups are greedy negated classes followed by the character they
    exclude, so the longest run is the only candidate. *)
Definition match_template (s : string) : option template_match :=
  s1 ← strip_prefix "{{@" s;
  let '(nodeId, s2) := span_not ":"%char s1 in
  if bool_decide (nodeId = "") then None else
  s3 ← strip_prefix ":" s2;
  let '(rest, s4) := span_not "}"%char s3 in
  if bool_decide (rest = "") then None else
  s5 ← strip_prefix "}}" s4;
  Some {| m_text := template_text nodeId rest;
          m_nodeId := nodeId; m_rest := rest; m_after := s5 |}.

(** [s.replace(templatePattern, callback)] with the global flag. The
    callback may update a state [St] (the closures of the executor write to
    captured objects). [skip] counts the characters of the current match
    that are still to be passed over. *)
Fixpoint replace_from {St : Type}
    (cb : template_match → St → St * string)
    (skip : nat) (s : string) (st : St) : St * string :=
  match s with
  | EmptyString => (st, EmptyString)
  | String c s' =>
      match skip with
      | S k => replace_from cb k s' st
      | O =>
          match match_template s with
          | Some m =>
              let '(st1, r) := cb m st in
              let '(st2, out) :=
                replace_from cb (String.length (m_text m) - 1) s' st1 in
              (st2, r +:+ out)
          | None =>
              let '(st2, out) := replace_from cb 0 s' st in
              (st2, String c out)
          end
      end
  end.

Definition replace_templates {St : Type}
    (cb : template_match → St → St * string) (s : string) (st : St)
    : St * string :=
  replace_from cb 0 s st.

(** [`"${s}"`]: [s] between double quotes. *)
Definition quoted (s : string) : string :=
  String (ascii_of_nat 34) (s +:+ String (ascii_of_nat 34) EmptyString).

(** ** Run data *)

(** One value of [NodeOutputs]: the object [{ label, data }]. *)
Record NodeOutput := { out_label : string; out_data : value }.

Definition output_value (o : NodeOutput) : value :=
  VObj [("label", VStr (out_label o)); ("data", out_data o)].

(** [NodeOutputs = Record<string, { label: string; data: unknown }>], as
    the object [outputs] is: a plain object created empty and changed by
    assignments [outputs[key] = { label, data }] only. [entries] are its own
    properties; [prototype] is the object last assigned under [__proto__],
    which the setter of [Object.prototype] made the prototype of [outputs]
    ([None]: the prototype is still [Object.prototype]). *)
Record NodeOutputs := {
  entries : gmap string NodeOutput;
  prototype : option NodeOutput
}.

Global Instance NodeOutputs_empty : Empty NodeOutputs :=
  {| entries := ∅; prototype := None |}.

(** The own properties of [outputs]. *)
Global Instance NodeOutputs_lookup : Lookup string NodeOutput NodeOutputs :=
  λ key outputs, entries outputs !! key.

(** [outputs[key]]: an own property, or what the prototype chain holds
    under [key]. *)
Definition outputs_get (outputs : NodeOutputs) (key : string) : value :=
  if bool_decide (key = "__proto__") then
    match prototype outputs with
    | Some p => output_value p
    | None => VNative ObjectPrototype
    end
  else
    match entries outputs !! key with
    | Some o => output_value o
    | None =>
        match prototype outputs with
        | Some p => js_get (output_value p) key
        | None => default VUndefined (Object_prototype_get key)
        end
    end.

(** [outputs[key] = output] *)
Definition outputs_set (key : string) (output : NodeOutput) (outputs : NodeOutputs)
    : NodeOutputs :=
  if bool_decide (key = "__proto__")
  then {| entries := entries outputs; prototype := Some output |}
  else {| entries := <[key := output]> (entries outputs);
          prototype := prototype outputs |}.

(** [ExecutionResult]; an absent [data] or [error] reads as [undefined]. *)
Record ExecutionResult := {
  res_success : bool;
  res_data : value;
  res_error : value
}.

(** [WorkflowNode]: [node.id] and the fields of [node.data]. *)
Record WorkflowNode := {
  node_id : string;
  node_label : option string;
  node_type : string;
  node_enabled : option bool;
  node_config : option obj
}.

Record WorkflowEdge := { edge_source : string; edge_target : string }.

(** The outcome of code that may throw. A thrown value is represented by
    the message the executor derives from it
    ([error instanceof Error ? error.message : String(error)]). *)
Inductive completion (A : Type) : Type :=
| Normal (a : A)
| Abrupt (message : string).
Arguments Normal {A} a.
Arguments Abrupt {A} message.

Definition try_catch {A : Type} (body : completion A) (handler : string → completion A)
    : completion A :=
  match body with
  | Normal a => Normal a
  | Abrupt e => handler e
  end.

Definition bind_completion {A B : Type} (c : completion A) (k : A → completion B)
    : completion B :=
  match c with
  | Normal a => k a
  | Abrupt e => Abrupt e
  end.

(** [type ConditionEvalResult] *)
Record ConditionEvalResult := {
  result : bool;
  resolvedValues : obj
}.

(** The objects captured by the replacement callback of
    [evaluateConditionExpression]. *)
Record subst_state := {
  evalContext : obj;
  varCounter : nat;
  resolved : obj
}.

Definition subst_init : subst_state :=
  {| evalContext := []; varCounter := 0; resolved := [] |}.

(** ** Collaborators

    What the executor imports or calls but does not define. *)
Class Collaborators := {
  (** [JSON.stringify], and [String(...)] of a value that is not a string *)
  JSON_stringify : value → string;
  ToString : value → string;
  (** [JSON.parse], applied to whatever value the configuration holds *)
  JSON_parse : value → completion value;
  (** the n-th reading of [Date.now()] *)
  Date_now : nat → float;
  (** the condition validator: the [valid] field of what
      [preValidateConditionExpression] and [validateConditionExpression]
      return *)
  preValidateConditionExpression : string → bool;
  validateConditionExpression : string → bool;
  (** [new Function(...varNames, body)(...varValues)], names and values
      being the keys and values of the evaluation context *)
  evalFunc : obj → string → completion value;
  (** the step registry: [getActionLabel], and [getStepImporter] giving the
      entry-point name with the imported module's entry point, if any *)
  getActionLabel : value → option string;
  getStepImporter :
    string → option (string * completion (option (value → completion value)));
  (** [withStepLogging(input, fn)], [fn] given by its outcome *)
  withStepLogging : value → completion value → completion value;
  (** the two system steps whose modules are elsewhere: import and call *)
  databaseQueryStep : value → completion value;
  httpRequestStep : value → completion value
}.

Section Engine.

Context `{Collaborators}.

Definition String_ (v : value) : string :=
  match v with
  | VStr s => s
  | _ => ToString v
  end.

(** The tail shared by both exits of the string callback:
    nullish gives the empty string, objects are stringified. *)
Definition render (v : value) : string :=
  if is_nullish v then ""
  else if is_object v then JSON_stringify v
  else String_ v.

(** The field loop of the string callback; [None] is its
    [return ""] on a non-object. *)
Fixpoint navigate_string (fields : list string) (current : value) : option value :=
  match fields with
  | [] => Some current
  | field :: fields' =>
      if is_object current then navigate_string fields' (js_get current field)
      else None
  end.

(** The callback passed to [replace] in [processTemplates]; [output] is
    whatever [outputs[sanitizedNodeId]] gives, an inherited property
    included. *)
Definition resolve_in_string (outputs : NodeOutputs) (m : template_match) : string :=
  let output := outputs_get outputs (sanitize (m_nodeId m)) in
  if negb (Boolean output) then m_text m
  else
    let data := js_get output "data" in
    match after_first_dot (m_rest m) with
    | None => render data
    | Some fieldPath =>
        if is_nullish data then ""
        else match navigate_string (split_dots fieldPath) data with
             | None => ""
             | Some current => render current
             end
    end.

Definition process_string (outputs : NodeOutputs) (s : string) : string :=
  (replace_templates (λ m (_ : unit), (tt, resolve_in_string outputs m)) s tt).2.

(** [processTemplates(config, outputs)]; [processed[key] = ...] is an
    assignment. *)
Definition processTemplates (config : obj) (outputs : NodeOutputs) : obj :=
  foldl (λ processed kv,
           match kv.2 with
           | VStr s => js_set kv.1 (VStr (process_string outputs s)) processed
           | v => js_set kv.1 v processed
           end) [] config.

(** The field loop of [replaceTemplateVariable]: the final [current]. On a
    non-object the loop sets [value = undefined] and breaks, leaving
    [current] at the value it could not enter. *)
Fixpoint navigate_value (fields : list string) (current : value) : value :=
  match fields with
  | [] => current
  | field :: fields' =>
      if is_object current then navigate_value fields' (js_get current field)
      else current
  end.

(** [replaceTemplateVariable]: the returned text, with the updates of
    [evalContext] and [varCounter]. *)
Definition replaceTemplateVariable (m : template_match)
    (outputs : NodeOutputs) (st : subst_state) : subst_state * string :=
  let output := outputs_get outputs (sanitize (m_nodeId m)) in
  if negb (Boolean output) then (st, m_text m)
  else
    let data := js_get output "data" in
    let val :=
      match after_first_dot (m_rest m) with
      | None => data
      | Some fieldPath =>
          if is_nullish data then VUndefined
          else
            let current := navigate_value (split_dots fieldPath) data in
            (* [if (value === undefined && current !== undefined) value = current] *)
            match current with
            | VUndefined => VUndefined
            | _ => current
            end
      end in
    let varName := "__v" +:+ pretty (varCounter st) in
    ({| evalContext := js_set varName val (evalContext st);
        varCounter := S (varCounter st);
        resolved := resolved st |}, varName).

(** The arrow function passed to [replace] in
    [evaluateConditionExpression]: [resolvedValues[rest] =
    evalContext[varName]], where [varName] is whatever
    [replaceTemplateVariable] returned. *)
Definition substitute (outputs : NodeOutputs)
    (m : template_match) (st : subst_state) : subst_state * string :=
  let '(st1, varName) := replaceTemplateVariable m outputs st in
  ({| evalContext := evalContext st1;
      varCounter := varCounter st1;
      resolved := js_set (m_rest m) (js_get (VObj (evalContext st1)) varName)
                    (resolved st1) |}, varName).

(** [evaluateConditionExpression(conditionExpression, outputs)] *)
Definition evaluateConditionExpression (conditionExpression : value)
    (outputs : NodeOutputs) : completion ConditionEvalResult :=
  match conditionExpression with
  | VBool b => Normal {| result := b; resolvedValues := [] |}
  | VStr s =>
      if negb (preValidateConditionExpression s)
      then Normal {| result := false; resolvedValues := [] |}
      else
        try_catch
          (let '(st, transformedExpression) :=
             replace_templates (substitute outputs) s subst_init in
           if negb (validateConditionExpression transformedExpression)
           then Normal {| result := false; resolvedValues := resolved st |}
           else
             bind_completion
               (evalFunc (evalContext st)
                  ("return (" +:+ transformedExpression +:+ ");"))
               (λ r, Normal {| result := Boolean r;
                               resolvedValues := resolved st |}))
          (λ _, Normal {| result := false; resolvedValues := [] |})
  | v => Normal {| result := Boolean v; resolvedValues := [] |}
  end.

(** ** Step executor *)

(** [lib/steps/condition.ts] *)
Definition evaluateCondition (input : value) : value :=
  VObj [("condition", js_get input "condition")].

Definition conditionStep (input : value) : completion value :=
  withStepLogging input (Normal (evaluateCondition input)).

(** [SYSTEM_ACTIONS[actionType]], when truthy, with what
    [module[systemAction.stepFunction]] of [await systemAction.importer()]
    does when called. On its own entries: importer and entry point,
    applied. [SYSTEM_ACTIONS] is a plain object, so the read also finds what
    [Object.prototype] holds: a function, or the prototype itself, none of
    which has an [importer], and the call [systemAction.importer()] throws
    a [TypeError] (the message is V8's). *)
Definition SYSTEM_ACTIONS (actionType : string) : option (value → completion value) :=
  if bool_decide (actionType = "Database Query") then Some databaseQueryStep
  else if bool_decide (actionType = "HTTP Request") then Some httpRequestStep
  else if bool_decide (actionType = "Condition") then Some conditionStep
  else if Boolean (js_get (VObj []) actionType)
  then Some (λ _, Abrupt "systemAction.importer is not a function")
  else None.

(** [a || b] on values. *)
Definition js_or (a b : value) : value := if Boolean a then a else b.

Definition of_option (o : option string) : value :=
  match o with
  | Some s => VStr s
  | None => VUndefined
  end.

(** [node.data.label || nodeId] *)
Definition label_or (node : WorkflowNode) (nodeId : string) : string :=
  match node_label node with
  | Some l => if bool_decide (l = "") then nodeId else l
  | None => nodeId
  end.

(** [node.data.config || {}] *)
Definition config_of (node : WorkflowNode) : obj := default [] (node_config node).

(** [config.key], [undefined] when absent. *)
Definition prop (key : string) (config : obj) : value :=
  default VUndefined (obj_get key config).

(** [getNodeName(node)] *)
Definition getNodeName (node : WorkflowNode) : value :=
  if Boolean (of_option (node_label node)) then of_option (node_label node)
  else if bool_decide (node_type node = "action") then
    let actionType := prop "actionType" (config_of node) in
    match (if Boolean actionType then getActionLabel actionType else None) with
    | Some l => if bool_decide (l = "") then VStr "Action" else VStr l
    | None => VStr "Action"
    end
  else if bool_decide (node_type node = "trigger") then
    js_or (prop "triggerType" (config_of node)) (VStr "Trigger")
  else VStr (node_type node).

Definition success_result (data : value) : ExecutionResult :=
  {| res_success := true; res_data := data; res_error := VUndefined |}.

Definition failure_result (error : value) : ExecutionResult :=
  {| res_success := false; res_data := VUndefined; res_error := error |}.

(** The body of the [trigger-<nodeId>] step: the synthesized
    [triggerData]. Here and for actions, [step.run(id, fn)] is taken to run
    [fn] once and to settle as [fn] does. *)
Definition triggerData (node : WorkflowNode) (triggerInput : obj) (now : float) : obj :=
  let config := config_of node in
  let base := [("triggered", VBool true); ("timestamp", VNum now)] in
  let mock := prop "webhookMockRequest" config in
  if match prop "triggerType" config with
     | VStr t => bool_decide (t = "Webhook")
     | _ => false
     end
     && Boolean mock
     && bool_decide (length triggerInput = 0)
  then
    match JSON_parse mock with
    | Normal mockData => obj_assign base (own_props mockData)
    | Abrupt _ => base
    end
  else if bool_decide (0 < length triggerInput) then obj_assign base triggerInput
  else base.

(** [StepContext] *)
Definition stepContext_of (executionId : option string) (node : WorkflowNode)
    (actionType : value) : value :=
  VObj [("executionId", of_option executionId);
        ("nodeId", VStr (node_id node));
        ("nodeName", getNodeName node);
        ("nodeType", actionType)].

(** The configuration handed to the step: templates resolved in every
    string field except [condition], which is kept as written. *)
Definition processedConfig_of (config : obj) (outputs : NodeOutputs) : obj :=
  let configWithoutCondition := obj_set "condition" VUndefined config in
  let originalCondition := prop "condition" config in
  let processedConfig := processTemplates configWithoutCondition outputs in
  match originalCondition with
  | VUndefined => processedConfig
  | _ => obj_set "condition" originalCondition processedConfig
  end.

Definition is_Condition (actionType : value) : bool :=
  match actionType with
  | VStr t => bool_decide (t = "Condition")
  | _ => false
  end.

(** [{ ...processedConfig, _context: stepContext }] *)
Definition stepInput_of (executionId : option string) (node : WorkflowNode)
    (actionType : value) (outputs : NodeOutputs) : obj :=
  obj_set "_context" (stepContext_of executionId node actionType)
    (processedConfig_of (config_of node) outputs).

(** The body of the [action-<nodeId>-<actionType>] step. *)
Definition actionStep (executionId : option string) (node : WorkflowNode)
    (actionType : value) (outputs : NodeOutputs) : completion value :=
  let stepContext := stepContext_of executionId node actionType in
  let stepInput := stepInput_of executionId node actionType outputs in
  if is_Condition actionType then
    let originalExpression := prop "condition" stepInput in
    bind_completion (evaluateConditionExpression originalExpression outputs)
      (λ ev,
        conditionStep
          (VObj [("condition", VBool (result ev));
                 ("expression", match originalExpression with
                                | VStr _ => originalExpression
                                | _ => VUndefined
                                end);
                 ("values", if bool_decide (0 < length (resolvedValues ev))
                            then VObj (resolvedValues ev) else VUndefined);
                 ("_context", stepContext)]))
  else
    match SYSTEM_ACTIONS (String_ actionType) with
    | Some stepFunction => stepFunction (VObj stepInput)
    | None =>
        match getStepImporter (String_ actionType) with
        | Some (name, imported) =>
            bind_completion imported
              (λ module,
                match module with
                | Some stepFunction => stepFunction (VObj stepInput)
                | None =>
                    Normal (VObj [("success", VBool false);
                                  ("error", VStr ("Step function " +:+ quoted name
                                                  +:+ " not found for action "
                                                  +:+ quoted (String_ actionType)))])
                end)
        | None =>
            Normal (VObj [("success", VBool false);
                          ("error", VStr ("Unknown action type: "
                                          +:+ quoted (String_ actionType)))])
        end
    end.

(** [isErrorResult] *)
Definition isErrorResult (stepResult : value) : bool :=
  is_object stepResult && js_in "success" stepResult
  && match js_get stepResult "success" with
     | VBool false => true
     | _ => false
     end.

(** The [ExecutionResult] built from what the action step returned. *)
Definition action_result (actionType stepResult : value) : ExecutionResult :=
  if isErrorResult stepResult then
    failure_result (js_or (js_get stepResult "error")
                      (VStr ("Step " +:+ quoted (String_ actionType) +:+ " failed")))
  else success_result stepResult.

(** ** Traversal orchestrator *)

(** What one invocation mutates: the per-walk [visited] set, the [outputs]
    and [results] objects and the clock. [results] is read through
    [Object.values] and returned, so its own properties are all there is to
    it. [history] lists the assignments and node entries in program order;
    nothing reads it, it is there to state once-only properties. *)
Inductive event : Type :=
| Entered (nodeId : string)
| OutputWritten (nodeId key : string) (output : NodeOutput)
| ResultWritten (nodeId : string) (r : ExecutionResult).

Record RunState := {
  visited : gset string;
  outputs : NodeOutputs;
  results : gmap string ExecutionResult;
  clock : nat;
  history : list event
}.

Definition event_node (e : event) : string :=
  match e with
  | Entered n | OutputWritten n _ _ | ResultWritten n _ => n
  end.

(** The nodes entered, and the nodes that wrote a result or an output, in
    the order of a history. *)
Definition entered_ids (h : list event) : list string :=
  omap (λ e, match e with Entered n => Some n | _ => None end) h.

Definition result_ids (h : list event) : list string :=
  omap (λ e, match e with ResultWritten n _ => Some n | _ => None end) h.

Definition output_ids (h : list event) : list string :=
  omap (λ e, match e with OutputWritten n _ _ => Some n | _ => None end) h.

Definition initial_state : RunState :=
  {| visited := ∅; outputs := ∅; results := ∅; clock := 0; history := [] |}.

(** [visited.add(nodeId)] *)
Definition mark_visited (nodeId : string) (st : RunState) : RunState :=
  {| visited := {[nodeId]} ∪ visited st; outputs := outputs st;
     results := results st; clock := clock st; history := history st |}.

(** A fresh [new Set()] for the next walk. *)
Definition fresh_walk (st : RunState) : RunState :=
  {| visited := ∅; outputs := outputs st;
     results := results st; clock := clock st; history := history st |}.

Definition enter (nodeId : string) (st : RunState) : RunState :=
  {| visited := visited st; outputs := outputs st;
     results := results st; clock := clock st;
     history := history st ++ [Entered nodeId] |}.

(** [outputs[sanitizedNodeId] = output] *)
Definition set_output (nodeId : string) (output : NodeOutput) (st : RunState) : RunState :=
  {| visited := visited st;
     outputs := outputs_set (sanitize nodeId) output (outputs st);
     results := results st; clock := clock st;
     history := history st ++ [OutputWritten nodeId (sanitize nodeId) output] |}.

(** [results[nodeId] = r]: under [__proto__] the assignment makes [r] the
    prototype of [results] and creates no property. *)
Definition set_result (nodeId : string) (r : ExecutionResult) (st : RunState) : RunState :=
  {| visited := visited st; outputs := outputs st;
     results := if bool_decide (nodeId = "__proto__") then results st
                else <[nodeId := r]> (results st);
     clock := clock st;
     history := history st ++ [ResultWritten nodeId r] |}.

(** One reading of [Date.now()]. *)
Definition tick (st : RunState) : RunState :=
  {| visited := visited st; outputs := outputs st;
     results := results st; clock := S (clock st); history := history st |}.

(** [for (const nextNodeId of nextNodes) await executeNode(nextNodeId, visited)]
    for a callee that may run out of fuel. *)
Fixpoint for_each (visit : string → RunState → option RunState)
    (nextNodes : list string) (st : RunState) : option RunState :=
  match nextNodes with
  | [] => Some st
  | nextNodeId :: nextNodes' =>
      match visit nextNodeId st with
      | Some st' => for_each visit nextNodes' st'
      | None => None
      end
  end.

Section Run.

(** The event payload of one invocation; [triggerInput] already defaulted
    to the empty object. *)
Variable nodes : list WorkflowNode.
Variable edges : list WorkflowEdge.
Variable triggerInput : obj.
Variable executionId : option string.

(** [new Map(nodes.map((n) => [n.id, n]))]: a later node with the same id
    replaces an earlier one. *)
Definition nodeMap : gmap string WorkflowNode :=
  foldl (λ m n, <[node_id n := n]> m) ∅ nodes.

(** [edgesBySource]: targets in edge order. *)
Definition edgesBySource : gmap string (list string) :=
  foldl (λ m e, <[edge_source e :=
                  (default [] (m !! edge_source e) ++ [edge_target e])%list]> m)
        ∅ edges.

(** [edgesBySource.get(nodeId) || []] *)
Definition nextNodes_of (nodeId : string) : list string :=
  default [] (edgesBySource !! nodeId).

Definition nodesWithIncoming : gset string :=
  list_to_set (edge_target <$> edges).

Definition triggerNodes : list WorkflowNode :=
  filter (λ node, node_type node = "trigger" ∧ node_id node ∉ nodesWithIncoming) nodes.

(** What the [try] block computes before "Store results". *)
Inductive attempt : Type :=
| Stored (r : ExecutionResult)   (* falls through to the stores *)
| Returned (r : ExecutionResult) (* missing action type: recorded, then [return] *)
| Thrown (message : string).     (* control passes to [catch] *)

(** The first half of the [try] block for an enabled node; the trigger
    step reads the clock. *)
Definition run_node (nodeId : string) (node : WorkflowNode) (st : RunState)
    : attempt * RunState :=
  if bool_decide (node_type node = "trigger") then
    (Stored (success_result (VObj (triggerData node triggerInput (Date_now (clock st))))),
     tick st)
  else if bool_decide (node_type node = "action") then
    let actionType := prop "actionType" (config_of node) in
    if negb (Boolean actionType) then
      (Returned (failure_result
                   (VStr ("Action node " +:+ quoted (label_or node (node_id node))
                          +:+ " has no action type configured"))), st)
    else
      match actionStep executionId node actionType (outputs st) with
      | Normal stepResult => (Stored (action_result actionType stepResult), st)
      | Abrupt message => (Thrown message, st)
      end
  else
    (Stored (failure_result
               (VStr ("Unknown node type " +:+ quoted (node_type node)))), st).

(** [isConditionNode], then [conditionResult === true]. *)
Definition continues (node : WorkflowNode) (r : ExecutionResult) : bool :=
  res_success r
  && (if bool_decide (node_type node = "action")
         && is_Condition (prop "actionType" (config_of node))
      then match js_get (res_data r) "condition" with
           | VBool true => true
           | _ => false
           end
      else true).

(** The body of [executeNode], the recursive calls going through [visit]. *)
Definition executeNode_body (visit : string → RunState → option RunState)
    (nodeId : string) (st : RunState) : option RunState :=
  if bool_decide (nodeId ∈ visited st) then Some st
  else
    let st := mark_visited nodeId st in
    match nodeMap !! nodeId with
    | None => Some st
    | Some node =>
        let st := enter nodeId st in
        if bool_decide (node_enabled node = Some false) then
          let st := set_output nodeId
                      {| out_label := label_or node nodeId; out_data := VNull |} st in
          for_each visit (nextNodes_of nodeId) st
        else
          match run_node nodeId node st with
          | (Returned r, st) => Some (set_result nodeId r st)
          | (Thrown message, st) =>
              Some (set_result nodeId (failure_result (VStr message)) st)
          | (Stored r, st) =>
              let st := set_result nodeId r st in
              let st := set_output nodeId
                          {| out_label := label_or node nodeId;
                             out_data := res_data r |} st in
              if continues node r then for_each visit (nextNodes_of nodeId) st
              else Some st
          end
    end.

(** [executeNode(nodeId, visited)]. [fuel] bounds the depth of the
    recursion; [executeNode_terminates] below shows that the number of edges
    plus two is always enough. *)
Fixpoint executeNode (fuel : nat) (nodeId : string) (st : RunState) : option RunState :=
  match fuel with
  | O => None
  | S fuel' => executeNode_body (executeNode fuel') nodeId st
  end.

Definition enough_fuel : nat := S (S (length edges)).

(** [for (const trigger of triggerNodes) await executeNode(trigger.id)] *)
Fixpoint walks (triggers : list WorkflowNode) (st : RunState) : option RunState :=
  match triggers with
  | [] => Some st
  | trigger :: triggers' =>
      match executeNode enough_fuel (node_id trigger) (fresh_walk st) with
      | Some st' => walks triggers' st'
      | None => None
      end
  end.

(** [Object.values(results).every((r) => r.success)] *)
Definition finalSuccess (results : gmap string ExecutionResult) : bool :=
  forallb res_success (snd <$> map_to_list results).

(** What the function returns ([duration] and the two pass-through ids
    left out): the own properties of [results] and of [outputs]. *)
Record RunReturn := {
  ret_success : bool;
  ret_results : gmap string ExecutionResult;
  ret_outputs : gmap string NodeOutput
}.

(** The handler of [executeWorkflowFunction] up to its return value; the
    status report to the logging collaborator does not touch it. *)
Definition executeWorkflow : option RunReturn :=
  match walks triggerNodes (tick initial_state) with
  | Some st =>
      Some {| ret_success := finalSuccess (results st);
              ret_results := results st;
              ret_outputs := entries (outputs st) |}
  | None => None
  end.

End Run.

End Engine.

(** ** Sample collaborators and inputs

    Stand-ins used to evaluate the executor on concrete inputs: logging
    that returns what the wrapped function returns, an empty registry, an
    HTTP step that echoes its input, a clock that counts readings. *)

(** The text [{"a":1}]. *)
Definition mock_text : string :=
  "{" +:+ quoted "a" +:+ ":1}".

Definition sample_parse (v : value) : completion value :=
  match v with
  | VStr s =>
      if bool_decide (s = mock_text) then Normal (VObj [("a", VNum 1%float)])
      else Abrupt "Unexpected token"
  | _ => Abrupt "Unexpected token"
  end.

(** Validators that accept everything, an evaluator that always throws. *)
Definition lenient : Collaborators := {|
  JSON_stringify := λ _, "{}";
  ToString := λ _, "";
  JSON_parse := sample_parse;
  Date_now := float_of_nat;
  preValidateConditionExpression := λ _, true;
  validateConditionExpression := λ _, true;
  evalFunc := λ _ _, Abrupt "Unexpected token";
  getActionLabel := λ _, None;
  getStepImporter := λ _, None;
  withStepLogging := λ _ outcome, outcome;
  databaseQueryStep := λ _, Abrupt "connection refused";
  httpRequestStep := λ input, Normal input
|}.

(** As [lenient], with a post-substitution validator that rejects. *)
Definition strict : Collaborators := {|
  JSON_stringify := λ _, "{}";
  ToString := λ _, "";
  JSON_parse := sample_parse;
  Date_now := float_of_nat;
  preValidateConditionExpression := λ _, true;
  validateConditionExpression := λ _, false;
  evalFunc := λ _ _, Abrupt "Unexpected token";
  getActionLabel := λ _, None;
  getStepImporter := λ _, None;
  withStepLogging := λ _ outcome, outcome;
  databaseQueryStep := λ _, Abrupt "connection refused";
  httpRequestStep := λ input, Normal input
|}.

(** As [lenient], with an HTTP step that reports a failure. *)
Definition failing : Collaborators := {|
  JSON_stringify := λ _, "{}";
  ToString := λ _, "";
  JSON_parse := sample_parse;
  Date_now := float_of_nat;
  preValidateConditionExpression := λ _, true;
  validateConditionExpression := λ _, true;
  evalFunc := λ _ _, Abrupt "Unexpected token";
  getActionLabel := λ _, None;
  getStepImporter := λ _, None;
  withStepLogging := λ _ outcome, outcome;
  databaseQueryStep := λ _, Abrupt "connection refused";
  httpRequestStep :=
    λ _, Normal (VObj [("success", VBool false); ("error", VStr "HTTP 500")])
|}.

(** As [lenient], with an HTTP step that reports a failure when the [url]
    it is given is still the reference [{{@T2:x}}]. *)
Definition picky : Collaborators := {|
  JSON_stringify := λ _, "{}";
  ToString := λ _, "";
  JSON_parse := sample_parse;
  Date_now := float_of_nat;
  preValidateConditionExpression := λ _, true;
  validateConditionExpression := λ _, true;
  evalFunc := λ _ _, Abrupt "Unexpected token";
  getActionLabel := λ _, None;
  getStepImporter := λ _, None;
  withStepLogging := λ _ outcome, outcome;
  databaseQueryStep := λ _, Abrupt "connection refused";
  httpRequestStep :=
    λ input,
      match js_get input "url" with
      | VStr url =>
          if bool_decide (url = "{{@T2:x}}")
          then Normal (VObj [("success", VBool false);
                             ("error", VStr "unresolved url")])
          else Normal input
      | _ => Normal input
      end
|}.

Definition action_node (id actionType : string) : WorkflowNode :=
  {| node_id := id; node_label := None; node_type := "action";
     node_enabled := None;
     node_config := Some [("actionType", VStr actionType)] |}.

Definition trigger_node (id : string) : WorkflowNode :=
  {| node_id := id; node_label := None; node_type := "trigger";
     node_enabled := None; node_config := None |}.

Definition disabled_node (id : string) : WorkflowNode :=
  {| node_id := id; node_label := Some "Skipped"; node_type := "action";
     node_enabled := Some false; node_config := None |}.

Definition webhook_node (id : string) : WorkflowNode :=
  {| node_id := id; node_label := None; node_type := "trigger";
     node_enabled := None;
     node_config := Some [("triggerType", VStr "Webhook");
                          ("webhookMockRequest", VStr mock_text)] |}.

Definition edge (source target : string) : WorkflowEdge :=
  {| edge_source := source; edge_target := target |}.

Definition condition_node (id : string) (condition : value) : WorkflowNode :=
  {| node_id := id; node_label := None; node_type := "action";
     node_enabled := None;
     node_config := Some [("actionType", VStr "Condition");
                          ("condition", condition)] |}.

Definition templated_node (id : string) : WorkflowNode :=
  {| node_id := id; node_label := None; node_type := "action";
     node_enabled := None;
     node_config := Some [("actionType", VStr "HTTP Request");
                          ("url", VStr "{{@T2:x}}")] |}.

Definition sample_outputs : NodeOutputs :=
  {| entries := {[ "n1" := {| out_label := "n1"; out_data := VNum 1%float |} ]};
     prototype := None |}.

Definition two_triggers_nodes : list WorkflowNode :=
  [trigger_node "T1"; trigger_node "T2"; templated_node "A"].

Definition two_triggers_edges : list WorkflowEdge :=
  [edge "T1" "A"; edge "T2" "A"].

Definition failing_nodes : list WorkflowNode :=
  [action_node "A" "HTTP Request"; action_node "B" "HTTP Request"].

Definition failing_edges : list WorkflowEdge := [edge "A" "B"].

Definition chain_nodes (condition : value) : list WorkflowNode :=
  [trigger_node "T"; condition_node "C" condition; action_node "A" "HTTP Request"].

Definition chain_edges : list WorkflowEdge := [edge "T" "C"; edge "C" "A"].

Definition cycle_A : WorkflowNode := action_node "A" "HTTP Request".
Definition cycle_B : WorkflowNode := action_node "B" "HTTP Request".

Definition skip_nodes : list WorkflowNode :=
  [disabled_node "D"; action_node "X" "HTTP Request"; action_node "Y" "HTTP Request"].

Definition skip_edges : list WorkflowEdge := [edge "D" "X"; edge "D" "Y"].

(** A chain whose first and last node have the same sanitized id. *)
Definition collision_nodes : list WorkflowNode :=
  [trigger_node "a-b"; condition_node "C" (VBool false);
   action_node "a_b" "HTTP Request"].

Definition collision_edges : list WorkflowEdge := [edge "a-b" "C"; edge "C" "a_b"].

Definition disabled_trigger (id : string) : WorkflowNode :=
  {| node_id := id; node_label := Some "Skipped"; node_type := "trigger";
     node_enabled := Some false; node_config := None |}.

(** ** Condition failures, as the evaluator meets them *)

Section Failures.

Context `{Collaborators}.

(** The expression after substitution, with the captured objects. *)
Definition substituted (outputs : NodeOutputs) (s : string)
    : subst_state * string :=
  replace_templates (substitute outputs) s subst_init.

Definition fails_pre_validation (s : string) : Prop :=
  preValidateConditionExpression s = false.

Definition fails_post_validation (outputs : NodeOutputs) (s : string) : Prop :=
  preValidateConditionExpression s = true
  ∧ validateConditionExpression (substituted outputs s).2 = false.

Definition fails_evaluation (outputs : NodeOutputs) (s : string) : Prop :=
  preValidateConditionExpression s = true
  ∧ validateConditionExpression (substituted outputs s).2 = true
  ∧ ∃ message,
      evalFunc (evalContext (substituted outputs s).1)
        ("return (" +:+ (substituted outputs s).2 +:+ ");") = Abrupt message.

Definition fails (outputs : NodeOutputs) (s : string) : Prop :=
  fails_pre_validation s ∨ fails_post_validation outputs s
  ∨ fails_evaluation outputs s.

End Failures.

(** ** The chain Trigger → Condition → A *)

Section Chain.

Context `{Collaborators}.

(** The outputs recorded when the Condition node runs: the trigger's,
    which is the skip output when the trigger node is disabled. *)
Definition outputs_after_trigger (T : WorkflowNode) (triggerInput : obj)
    : NodeOutputs :=
  outputs_set (sanitize (node_id T))
    {| out_label := label_or T (node_id T);
       out_data := if bool_decide (node_enabled T = Some false) then VNull
                   else VObj (triggerData T triggerInput (Date_now 1)) |} ∅.

(** What [processTemplates] does to one value. *)
Definition resolved_field (outputs : NodeOutputs) (v : value) : value :=
  match v with
  | VStr s => VStr (process_string outputs s)
  | _ => v
  end.

(** [stepInput.condition] of the Condition node, as [actionStep] reads it. *)
Definition originalExpression (executionId : option string) (C : WorkflowNode)
    (outputs : NodeOutputs) : value :=
  prop "condition" (stepInput_of executionId C (VStr "Condition") outputs).

End Chain.

(** ** What a stretch of a walk does to the run state

    [extends st st' new]: the run went from [st] to [st'], appending the
    events [new]; every event belongs to a node that was not visited in
    [st] and is visited in [st']; no node entered, wrote its result or
    wrote its output twice; [results] and [outputs] changed only at keys
    written by [new], the prototype of [outputs] only by an assignment
    under [__proto__]. *)
Record extends (st st' : RunState) (new : list event) : Prop := {
  ext_history : history st' = (history st ++ new)%list;
  ext_visited : visited st ⊆ visited st';
  ext_nodes : ∀ e, e ∈ new → event_node e ∈ visited st' ∧ event_node e ∉ visited st;
  ext_entered : NoDup (entered_ids new);
  ext_result_ids : NoDup (result_ids new);
  ext_output_ids : NoDup (output_ids new);
  ext_results : ∀ k, k ∉ result_ids new → results st' !! k = results st !! k;
  ext_outputs : ∀ key, key ∉ sanitize <$> output_ids new →
                entries (outputs st') !! key = entries (outputs st) !! key;
  ext_prototype : "__proto__" ∉ sanitize <$> output_ids new →
                  prototype (outputs st') = prototype (outputs st)
}.

(** ** Names used to state further properties *)

(** The variable names [__v0], [__v1], ... generated for a condition. *)
Definition var_name (i : nat) : string := "__v" +:+ pretty i.

Definition var_names (n : nat) : list string := var_name <$> seq 0 n.

(** No position of [s] starts a match of the template pattern. *)
Definition untemplated (s : string) : Prop :=
  ∀ n, match_template (drop_string n s) = None.

(** One edge from [x] to [y]. *)
Definition edge_step (edges : list WorkflowEdge) (x y : string) : Prop :=
  ∃ e, e ∈ edges ∧ edge_source e = x ∧ edge_target e = y.

(** [y] can be reached from [x] along edges. *)
Definition reachable (edges : list WorkflowEdge) : string → string → Prop :=
  rtc (edge_step edges).

(** The results assigned under [nodeId], in the order of a history. *)
Definition results_written (h : list event) (nodeId : string) : list ExecutionResult :=
  omap (λ e, match e with
             | ResultWritten n r => if bool_decide (n = nodeId) then Some r else None
             | _ => None
             end) h.

(** The result [executeNode] records for an attempt. *)
Definition attempt_result (a : attempt) : ExecutionResult :=
  match a with
  | Stored r | Returned r => r
  | Thrown message => failure_result (VStr message)
  end.

(** What one call of [executeNode] on an unvisited node of the graph does
    before it turns to the node's successors: the node is marked and
    entered, then skipped if it is disabled, and otherwise its step is
    attempted and the result (and, past "Store results", the output)
    assigned. *)
Definition own_part `{Collaborators} (triggerInput : obj) (executionId : option string)
    (nodeId : string) (node : WorkflowNode) (st : RunState) : RunState :=
  let st := enter nodeId (mark_visited nodeId st) in
  if bool_decide (node_enabled node = Some false) then
    set_output nodeId {| out_label := label_or node nodeId; out_data := VNull |} st
  else
    match run_node triggerInput executionId nodeId node st with
    | (Returned r, st) => set_result nodeId r st
    | (Thrown message, st) => set_result nodeId (failure_result (VStr message)) st
    | (Stored r, st) =>
        set_output nodeId {| out_label := label_or node nodeId; out_data := res_data r |}
          (set_result nodeId r st)
    end.

(** Whether that call goes on to the successors: the node is disabled, or
    its result was stored and lets the walk continue. *)
Definition proceeds `{Collaborators} (triggerInput : obj) (executionId : option string)
    (nodeId : string) (node : WorkflowNode) (st : RunState) : bool :=
  if bool_decide (node_enabled node = Some false) then true
  else
    match (run_node triggerInput executionId nodeId node
             (enter nodeId (mark_visited nodeId st))).1 with
    | Stored r => continues node r
    | Returned _ | Thrown _ => false
    end.

(** ** The public view of a workflow's nodes

    [sanitizeNodesForPublicView] of the workflow route
    ([app/api/workflows.$workflowId.ts]). *)

(** [const { k: _, ...rest } = o]: the own properties other than [k]. *)
Definition without_key (k : string) (o : obj) : obj :=
  filter (λ kv, kv.1 ≠ k) o.

(** The callback of [nodes.map] in [sanitizeNodesForPublicView]: a copy of
    the node whose [data.config], when there is one, has lost its
    [integrationId]. *)
Definition sanitizedNode (node : value) : value :=
  let sanitizedNode := own_props node in
  if is_object (prop "data" sanitizedNode) then
    let data := own_props (prop "data" sanitizedNode) in
    let data :=
      if is_object (prop "config" data) then
        let configWithoutIntegration :=
          without_key "integrationId" (own_props (prop "config" data)) in
        obj_set "config" (VObj configWithoutIntegration) data
      else data in
    VObj (obj_set "data" (VObj data) sanitizedNode)
  else VObj sanitizedNode.

Definition sanitizeNodesForPublicView (nodes : list value) : list value :=
  sanitizedNode <$> nodes.

(** ** More sample inputs *)

(** The match of [{{@nodeId:rest}}] at the end of a string. *)
Definition reference (nodeId rest : string) : template_match :=
  {| m_text := template_text nodeId rest; m_nodeId := nodeId;
     m_rest := rest; m_after := "" |}.

(** As [sample_outputs], with another label and other data. *)
Definition relabeled_outputs : NodeOutputs :=
  {| entries := {[ "n1" := {| out_label := "renamed"; out_data := VStr "z" |} ]};
     prototype := None |}.

Definition untyped_action_node (id : string) : WorkflowNode :=
  {| node_id := id; node_label := None; node_type := "action";
     node_enabled := None; node_config := None |}.

Definition note_node (id : string) : WorkflowNode :=
  {| node_id := id; node_label := None; node_type := "note";
     node_enabled := None; node_config := None |}.

(** A trigger that has an incoming edge. *)
Definition looped_nodes : list WorkflowNode :=
  [trigger_node "T"; action_node "A" "HTTP Request"].

Definition looped_edges : list WorkflowEdge := [edge "T" "A"; edge "A" "T"].

Definition stored_node : value :=
  VObj [("id", VStr "n1");
        ("data", VObj [("label", VStr "Send");
                       ("config", VObj [("actionType", VStr "HTTP Request");
                                        ("integrationId", VStr "int_1")])])].

(** * Properties *)

(** ** Strings and the template pattern *)

#[local] Arguments String.append !_ _ / : simpl nomatch.

Lemma append_nil_r (s : string) : s +:+ "" = s.
Proof. induction s as [|c s IH]; simpl; [done | by f_equal]. Qed.

Lemma append_assoc (a b c : string) : (a +:+ b) +:+ c = a +:+ (b +:+ c).
Proof. induction a as [|x a IH]; simpl; [done | by f_equal]. Qed.

Lemma length_append (a b : string) :
  String.length (a +:+ b) = String.length a + String.length b.
Proof. induction a as [|x a IH]; simpl; [done | by f_equal]. Qed.

Lemma strip_prefix_Some (p s r : string) :
  strip_prefix p s = Some r → s = p +:+ r.
Proof.
  revert s. induction p as [|a p IH]; intros [|b s]; simpl; try congruence.
  case_bool_decide; [|done]. intros Hs. subst. f_equal. by apply IH.
Qed.

Lemma strip_prefix_append (p r : string) : strip_prefix p (p +:+ r) = Some r.
Proof.
  induction p as [|a p IH]; simpl; [by destruct r|].
  by rewrite bool_decide_eq_true_2.
Qed.

Lemma strip_prefix_cons (a : ascii) (p s : string) :
  strip_prefix (String a p) (String a s) = strip_prefix p s.
Proof. simpl. by rewrite bool_decide_eq_true_2. Qed.

Lemma strip_prefix_nil (s : string) : strip_prefix "" s = Some s.
Proof. by destruct s. Qed.

Lemma span_not_append (stop : ascii) (s p r : string) :
  span_not stop s = (p, r) → s = p +:+ r.
Proof.
  revert p r. induction s as [|c s IH]; simpl; intros p r.
  - by intros [= <- <-].
  - case_bool_decide.
    + by intros [= <- <-].
    + destruct (span_not stop s) as [p' r'] eqn:E. intros [= <- <-].
      simpl. f_equal. by apply IH.
Qed.

Lemma span_not_stop (stop : ascii) (p r : string) :
  occurs stop p = false → span_not stop (p +:+ String stop r) = (p, String stop r).
Proof.
  induction p as [|c p IH]; simpl.
  - intros _. by rewrite bool_decide_eq_true_2.
  - intros [Hc Hp]%orb_false_elim. apply bool_decide_eq_false in Hc.
    rewrite bool_decide_eq_false_2 by done. by rewrite IH.
Qed.

#[local] Arguments strip_prefix : simpl never.
#[local] Arguments span_not : simpl never.

Lemma drop_string_append (t r : string) :
  drop_string (String.length t) (t +:+ r) = r.
Proof. induction t as [|c t IH]; simpl; [done | apply IH]. Qed.

Lemma match_template_sound (s : string) (m : template_match) :
  match_template s = Some m →
  s = m_text m +:+ m_after m ∧ m_text m = template_text (m_nodeId m) (m_rest m).
Proof.
  unfold match_template. intros Hm.
  destruct (strip_prefix "{{@" s) as [s1|] eqn:E1; simpl in Hm; [|done].
  destruct (span_not ":" s1) as [nodeId s2] eqn:E2.
  case_bool_decide; [done|].
  destruct (strip_prefix ":" s2) as [s3|] eqn:E3; simpl in Hm; [|done].
  destruct (span_not "}" s3) as [rest s4] eqn:E4.
  case_bool_decide; [done|].
  destruct (strip_prefix "}}" s4) as [s5|] eqn:E5; simpl in Hm; [|done].
  injection Hm as <-. simpl. split; [|done].
  apply strip_prefix_Some in E1, E3, E5.
  apply span_not_append in E2, E4. subst.
  unfold template_text. simpl.
  repeat (rewrite ?append_assoc; simpl). done.
Qed.

Lemma match_template_complete (nodeId rest post : string) :
  nodeId ≠ "" → occurs ":" nodeId = false →
  rest ≠ "" → occurs "}" rest = false →
  match_template (template_text nodeId rest +:+ post)
  = Some {| m_text := template_text nodeId rest; m_nodeId := nodeId;
            m_rest := rest; m_after := post |}.
Proof.
  intros Hn Hn' Hr Hr'. unfold match_template, template_text.
  rewrite !append_assoc. simpl.
  rewrite ?strip_prefix_cons, ?strip_prefix_nil. simpl.
  rewrite (span_not_stop ":" nodeId) by done.
  rewrite bool_decide_eq_false_2 by done.
  rewrite ?strip_prefix_cons, ?strip_prefix_nil. simpl.
  rewrite (span_not_stop "}" rest) by done.
  rewrite bool_decide_eq_false_2 by done.
  by rewrite ?strip_prefix_cons, ?strip_prefix_nil.
Qed.

Lemma replace_from_skip_all {St : Type}
    (cb : template_match → St → St * string) (s : string) (k : nat) (st : St) :
  (String.length s ≤ k)%nat → replace_from cb k s st = (st, "").
Proof.
  revert k. induction s as [|c s IH]; intros k Hk; simpl; [done|].
  simpl in Hk. destruct k as [|k]; [lia|]. apply IH. lia.
Qed.

(** A callback that returns the match leaves the string as it is. *)
Lemma replace_from_unchanged {St : Type}
    (cb : template_match → St → St * string) :
  (∀ m st, (cb m st).2 = m_text m) →
  ∀ s k st, (replace_from cb k s st).2 = drop_string k s.
Proof.
  intros Hcb. induction s as [|c s IH]; intros k st; simpl.
  - by destruct k.
  - destruct k as [|k]; [|apply IH].
    destruct (match_template (String c s)) as [m|] eqn:Em.
    + pose proof (Hcb m st) as Hr. destruct (cb m st) as [st1 r]. simpl in Hr.
      pose proof (IH (String.length (m_text m) - 1) st1) as IH'.
      destruct (replace_from cb _ s st1) as [st2 out]. simpl in *. subst.
      apply match_template_sound in Em as [Em Ht].
      rewrite Ht in *. unfold template_text in *. simpl in *.
      injection Em as -> ->. simpl. by rewrite drop_string_append.
    + specialize (IH 0 st). destruct (replace_from cb 0 s st) as [st2 out].
      simpl in *. by rewrite IH.
Qed.

Lemma replace_templates_single {St : Type}
    (cb : template_match → St → St * string) (nodeId rest : string) (st : St) :
  nodeId ≠ "" → occurs ":" nodeId = false →
  rest ≠ "" → occurs "}" rest = false →
  replace_templates cb (template_text nodeId rest) st
  = cb {| m_text := template_text nodeId rest; m_nodeId := nodeId;
          m_rest := rest; m_after := "" |} st.
Proof.
  intros Hn Hn' Hr Hr'.
  pose proof (match_template_complete nodeId rest "" Hn Hn' Hr Hr') as Hm.
  rewrite append_nil_r in Hm. unfold replace_templates.
  set (m := {| m_text := template_text nodeId rest |}) in *.
  assert (∃ s', template_text nodeId rest = String "{" s'
                ∧ String.length s' = String.length (m_text m) - 1)
    as (s' & Hs & Hl).
  { unfold m, template_text. simpl. eexists. split; [done|]. simpl. lia. }
  rewrite Hs in *. simpl. rewrite Hm.
  destruct (cb m st) as [st1 r].
  rewrite replace_from_skip_all by lia. by rewrite append_nil_r.
Qed.

(** ** Objects *)

Lemma obj_get_set (k k' : string) (v : value) (o : obj) :
  obj_get k (obj_set k' v o) = if bool_decide (k' = k) then Some v else obj_get k o.
Proof.
  induction o as [|[k0 v0] o IH]; simpl.
  - by case_bool_decide.
  - destruct (bool_decide (k0 = k')) eqn:E0; simpl.
    + apply bool_decide_eq_true in E0 as ->. by case_bool_decide.
    + apply bool_decide_eq_false in E0.
      destruct (bool_decide (k0 = k)) eqn:E1.
      * apply bool_decide_eq_true in E1 as ->.
        by rewrite bool_decide_eq_false_2 by congruence.
      * done.
Qed.

Lemma obj_get_assign_is_Some (k : string) (o src : obj) :
  is_Some (obj_get k o) → is_Some (obj_get k (obj_assign o src)).
Proof.
  unfold obj_assign. revert o. induction src as [|[k' v] src IH]; intros o Ho; [done|].
  simpl. apply IH. rewrite obj_get_set. by case_bool_decide.
Qed.

Lemma obj_get_assign_absent (k : string) (o src : obj) :
  k ∉ src.*1 → obj_get k (obj_assign o src) = obj_get k o.
Proof.
  unfold obj_assign. revert o. induction src as [|[k' v] src IH]; intros o Hk; [done|].
  simpl. rewrite IH by set_solver. rewrite obj_get_set.
  rewrite bool_decide_eq_false_2; [done|]. set_solver.
Qed.

Lemma obj_get_None (k : string) (o : obj) : k ∉ o.*1 → obj_get k o = None.
Proof.
  induction o as [|[k0 v0] o IH]; simpl; [done|]. intros Hk.
  rewrite bool_decide_eq_false_2 by set_solver. apply IH. set_solver.
Qed.

Lemma obj_set_keys (k x : string) (v : value) (o : obj) :
  x ∈ (obj_set k v o).*1 → x = k ∨ x ∈ o.*1.
Proof.
  induction o as [|[k0 v0] o IH]; simpl.
  - set_solver.
  - case_bool_decide; simpl; set_solver.
Qed.

Lemma obj_set_NoDup (k : string) (v : value) (o : obj) :
  NoDup o.*1 → NoDup (obj_set k v o).*1.
Proof.
  induction o as [|[k0 v0] o IH]; simpl.
  - intros _. apply NoDup_singleton.
  - intros [Hk0 Ho]%NoDup_cons. case_bool_decide; simpl.
    + subst. by apply NoDup_cons.
    + apply NoDup_cons. split; [|by apply IH].
      intros [->|?]%obj_set_keys; done.
Qed.

(** ** The prototype chain *)

(** Closes [x ∉ l] and [x ≠ y] for strings that differ in a character the
    goal shows. *)
Ltac other_string :=
  let H := fresh in
  intros H;
  repeat (apply elem_of_cons in H as [H|H]; [discriminate H|]);
  first [by apply elem_of_nil in H | discriminate H].

Lemma Object_prototype_get_truthy (field : string) (x : value) :
  Object_prototype_get field = Some x → Boolean x = true.
Proof.
  unfold Object_prototype_get. repeat case_bool_decide; by intros [= <-].
Qed.

(** No property of [Object.prototype] starts with an opening brace. *)
Lemma Object_prototype_get_brace (s : string) :
  Object_prototype_get (String "{" s) = None.
Proof.
  unfold Object_prototype_get.
  rewrite !bool_decide_eq_false_2; [done|other_string|other_string].
Qed.

Lemma js_get_VObj (field : string) (o : obj) :
  js_get (VObj o) field
  = match obj_get field o with
    | Some x => x
    | None => if bool_decide (field = "__proto__") then VNative ObjectPrototype
              else default VUndefined (Object_prototype_get field)
    end.
Proof.
  unfold js_get, inherited. simpl. destruct (obj_get field o); [done|].
  by case_bool_decide.
Qed.

(** A read that the chain has nothing for is the read of an own
    property. *)
Lemma js_get_own (field : string) (o : obj) :
  field ≠ "__proto__" → Object_prototype_get field = None →
  js_get (VObj o) field = default VUndefined (obj_get field o).
Proof.
  intros Hf Hnone. rewrite js_get_VObj, Hnone.
  rewrite bool_decide_eq_false_2 by done. by destruct (obj_get field o).
Qed.

Lemma js_get_brace (s : string) (o : obj) :
  js_get (VObj o) (String "{" s) = default VUndefined (obj_get (String "{" s) o).
Proof. apply js_get_own; [other_string|apply Object_prototype_get_brace]. Qed.

Lemma js_get_template_text (nodeId rest : string) (o : obj) :
  js_get (VObj o) (template_text nodeId rest)
  = default VUndefined (obj_get (template_text nodeId rest) o).
Proof. apply (js_get_brace ("{@" +:+ nodeId +:+ ":" +:+ rest +:+ "}}")). Qed.

Lemma js_set_other (k : string) (v : value) (o : obj) :
  k ≠ "__proto__" → js_set k v o = obj_set k v o.
Proof. intros Hk. unfold js_set. by rewrite bool_decide_eq_false_2. Qed.

Lemma js_set_proto (v : value) (o : obj) :
  obj_get "__proto__" o = None → js_set "__proto__" v o = o.
Proof.
  intros Ho. unfold js_set. rewrite Ho.
  rewrite bool_decide_eq_true_2 by done.
  by rewrite (bool_decide_eq_false_2 (is_Some None)) by by intros [? ?].
Qed.

(** An assignment creates a property of its key or none. *)
Lemma js_set_keys (k x : string) (v : value) (o : obj) :
  x ∈ (js_set k v o).*1 → x = k ∨ x ∈ o.*1.
Proof.
  unfold js_set. destruct (_ && _); [by right|]. apply obj_set_keys.
Qed.

Lemma obj_get_js_set (k k' : string) (v : value) (o : obj) :
  k' ≠ "__proto__" →
  obj_get k (js_set k' v o) = if bool_decide (k' = k) then Some v else obj_get k o.
Proof. intros Hk. rewrite js_set_other by done. apply obj_get_set. Qed.

(** *** The object [outputs] *)

Lemma Boolean_output_value (o : NodeOutput) : Boolean (output_value o) = true.
Proof. done. Qed.

Lemma js_get_output_data (o : NodeOutput) : js_get (output_value o) "data" = out_data o.
Proof. done. Qed.

(** Assigning and reading back, under every key. *)
Lemma outputs_get_set (key : string) (output : NodeOutput) (outputs : NodeOutputs) :
  outputs_get (outputs_set key output outputs) key = output_value output.
Proof.
  unfold outputs_get, outputs_set. case_bool_decide; simpl; [done|].
  by rewrite lookup_insert_eq.
Qed.

Lemma outputs_get_set_ne (key key' : string) (output : NodeOutput)
    (outputs : NodeOutputs) :
  key' ≠ key → key' ≠ "__proto__" →
  outputs_get (outputs_set key' output outputs) key = outputs_get outputs key.
Proof.
  intros Hne Hp. unfold outputs_get, outputs_set.
  rewrite (bool_decide_eq_false_2 (key' = "__proto__")) by done. simpl.
  by rewrite lookup_insert_ne.
Qed.

Lemma outputs_get_entry (key : string) (output : NodeOutput) (outputs : NodeOutputs) :
  key ≠ "__proto__" → entries outputs !! key = Some output →
  outputs_get outputs key = output_value output.
Proof.
  intros Hk Hout. unfold outputs_get.
  by rewrite bool_decide_eq_false_2, Hout.
Qed.

Lemma entries_outputs_set (key key' : string) (output : NodeOutput)
    (outputs : NodeOutputs) :
  entries (outputs_set key' output outputs) !! key
  = if bool_decide (key' = "__proto__") then entries outputs !! key
    else if bool_decide (key' = key) then Some output
    else entries outputs !! key.
Proof.
  unfold outputs_set. case_bool_decide; simpl; [done|].
  case_bool_decide as Hk.
  - subst. apply lookup_insert_eq.
  - by apply lookup_insert_ne.
Qed.

(** What an object without entries and with the default prototype gives. *)
Lemma outputs_get_empty (key : string) :
  outputs_get ∅ key
  = if bool_decide (key = "__proto__") then VNative ObjectPrototype
    else default VUndefined (Object_prototype_get key).
Proof. unfold outputs_get. simpl. by rewrite lookup_empty. Qed.

(** ** Template resolver and condition evaluator *)

Section EvaluatorFacts.

Context `{Collaborators}.

Implicit Types (outputs : NodeOutputs) (s : string) (v : value).

Lemma evaluateConditionExpression_normal v outputs :
  ∃ r, evaluateConditionExpression v outputs = Normal r.
Proof.
  destruct v as [| |b|n|s|items|props|native]; simpl; eauto.
  destruct (preValidateConditionExpression s); simpl; eauto.
  destruct (replace_templates _ _ _) as [st t].
  destruct (validateConditionExpression t); simpl; eauto.
  destruct (evalFunc _ _); simpl; eauto.
Qed.

(** X28. A reference [{{@nodeId:rest}}] for which [outputs[sanitizedNodeId]]
    is falsy (nothing is found under the key, own or inherited, or what is
    found is falsy): in a configuration string the text stays as written; in a
    condition nothing enters the evaluation context, the text stays as
    written and [undefined] is assigned to [resolvedValues[rest]]; the
    evaluator returns normally. *)
Theorem unknown_reference_safety outputs (nodeId rest key : string) :
  nodeId ≠ "" → occurs ":" nodeId = false →
  rest ≠ "" → occurs "}" rest = false →
  Boolean (outputs_get outputs (sanitize nodeId)) = false →
  process_string outputs (template_text nodeId rest) = template_text nodeId rest
  ∧ processTemplates [(key, VStr (template_text nodeId rest))] outputs
    = js_set key (VStr (template_text nodeId rest)) []
  ∧ substituted outputs (template_text nodeId rest)
    = ({| evalContext := []; varCounter := 0;
          resolved := js_set rest VUndefined [] |},
       template_text nodeId rest)
  ∧ ∃ r, evaluateConditionExpression (VStr (template_text nodeId rest)) outputs
         = Normal r.
Proof.
  intros Hn Hn' Hr Hr' Hmiss.
  assert (process_string outputs (template_text nodeId rest)
          = template_text nodeId rest) as Hstr.
  { unfold process_string. rewrite replace_templates_single by done.
    simpl. unfold resolve_in_string. simpl. by rewrite Hmiss. }
  split; [done|]. split.
  { unfold processTemplates. simpl. by rewrite Hstr. }
  split; [|apply evaluateConditionExpression_normal].
  unfold substituted. rewrite replace_templates_single by done.
  unfold substitute, replaceTemplateVariable. simpl. rewrite Hmiss. simpl.
  by rewrite js_get_template_text.
Qed.

(** C10. A condition that is neither a boolean nor a string is coerced
    with [Boolean], whatever the validators and the evaluator are. *)
Theorem non_boolean_non_string_condition v outputs :
  (∀ b, v ≠ VBool b) → (∀ s, v ≠ VStr s) →
  evaluateConditionExpression v outputs
  = Normal {| result := Boolean v; resolvedValues := [] |}.
Proof.
  intros _ Hs. destruct v as [| |b|n|s|items|props|native]; try reflexivity.
  by destruct (Hs s).
Qed.

(** C1 (amended). A failing condition string evaluates to [false] and no
    exception escapes; [resolvedValues] is empty after a pre-validation or
    an evaluation failure, and holds the values resolved by the substitution
    after a post-substitution validation failure. *)
Theorem condition_fail_closed outputs s :
  fails outputs s →
  ∃ r, evaluateConditionExpression (VStr s) outputs = Normal r
       ∧ result r = false
       ∧ (fails_pre_validation s ∨ fails_evaluation outputs s →
          resolvedValues r = [])
       ∧ (fails_post_validation outputs s →
          resolvedValues r = resolved (substituted outputs s).1).
Proof.
  unfold fails, fails_pre_validation, fails_post_validation, fails_evaluation,
    substituted.
  intros Hf. simpl.
  destruct (preValidateConditionExpression s) eqn:Hpre; simpl.
  - destruct (replace_templates (substitute outputs) s subst_init) as [st t] eqn:Hsub.
    simpl in *.
    destruct (validateConditionExpression t) eqn:Hval; simpl.
    + destruct Hf as [?|[[_ ?]|(_ & _ & message & Hev)]]; try done.
      rewrite Hev. simpl. eexists. repeat split; try done.
      intros [_ ?]. done.
    + eexists. repeat split; try done.
      intros [?|(_ & ? & _)]; done.
  - eexists. repeat split; try done.
    intros [? _]. done.
Qed.

End EvaluatorFacts.

(** ** Histories *)

Lemma entered_ids_node (h : list event) (x : string) :
  x ∈ entered_ids h → ∃ e, e ∈ h ∧ event_node e = x.
Proof.
  intros (e & He & Hf)%list_elem_of_omap.
  exists e. split; [done|]. destruct e; naive_solver.
Qed.

Lemma result_ids_node (h : list event) (x : string) :
  x ∈ result_ids h → ∃ e, e ∈ h ∧ event_node e = x.
Proof.
  intros (e & He & Hf)%list_elem_of_omap.
  exists e. split; [done|]. destruct e; naive_solver.
Qed.

Lemma output_ids_node (h : list event) (x : string) :
  x ∈ output_ids h → ∃ e, e ∈ h ∧ event_node e = x.
Proof.
  intros (e & He & Hf)%list_elem_of_omap.
  exists e. split; [done|]. destruct e; naive_solver.
Qed.

Lemma extends_refl (st : RunState) : extends st st [].
Proof.
  split; simpl; try apply NoDup_nil_2; try done.
  - by rewrite app_nil_r.
  - intros e He. by apply elem_of_nil in He.
Qed.

Lemma extends_trans (st1 st2 st3 : RunState) (new1 new2 : list event) :
  extends st1 st2 new1 → extends st2 st3 new2 → extends st1 st3 (new1 ++ new2).
Proof.
  intros [Hh1 Hv1 Hn1 He1 Hr1 Ho1 Hres1 Hout1 Hp1]
         [Hh2 Hv2 Hn2 He2 Hr2 Ho2 Hres2 Hout2 Hp2].
  assert (∀ x e1 e2, e1 ∈ new1 → event_node e1 = x →
                     e2 ∈ new2 → event_node e2 = x → False) as Hdisj.
  { intros x e1 e2 H1 <- H2 Heq.
    destruct (Hn1 _ H1) as [Hin _]. destruct (Hn2 _ H2) as [_ Hnot].
    rewrite Heq in Hnot. done. }
  split.
  - by rewrite Hh2, Hh1, app_assoc.
  - set_solver.
  - intros e [He|He]%elem_of_app.
    + destruct (Hn1 _ He). set_solver.
    + destruct (Hn2 _ He). set_solver.
  - unfold entered_ids. rewrite omap_app. apply NoDup_app. split_and!; [done| |done].
    intros x (e1 & ? & ?)%entered_ids_node (e2 & ? & ?)%entered_ids_node. eauto.
  - unfold result_ids. rewrite omap_app. apply NoDup_app. split_and!; [done| |done].
    intros x (e1 & ? & ?)%result_ids_node (e2 & ? & ?)%result_ids_node. eauto.
  - unfold output_ids. rewrite omap_app. apply NoDup_app. split_and!; [done| |done].
    intros x (e1 & ? & ?)%output_ids_node (e2 & ? & ?)%output_ids_node. eauto.
  - intros k Hk. unfold result_ids in Hk. rewrite omap_app in Hk.
    rewrite Hres2, Hres1; [done| |]; set_solver.
  - intros key Hk. unfold output_ids in Hk. rewrite omap_app, fmap_app in Hk.
    rewrite Hout2, Hout1; [done| |]; set_solver.
  - intros Hk. unfold output_ids in Hk. rewrite omap_app, fmap_app in Hk.
    rewrite Hp2, Hp1; [done| |]; set_solver.
Qed.

(** Closes one premise of [extends_own] once the state has been
    simplified. *)
Ltac own_events :=
  simpl;
  lazymatch goal with
  | |- NoDup [] => apply NoDup_nil_2
  | |- NoDup [_] => apply NoDup_singleton
  | |- Forall _ _ => by repeat constructor
  | |- ∀ _, _ ∉ _ → _ =>
      intros ? ?;
      first [ done
            | apply lookup_insert_ne; set_solver
            | case_bool_decide; [done | apply lookup_insert_ne; set_solver]
            | rewrite entries_outputs_set; repeat case_bool_decide;
              first [done | set_solver] ]
  | |- _ ∉ _ → _ =>
      intros ?;
      first [ done
            | unfold outputs_set; case_bool_decide; [set_solver | done] ]
  | |- _ = _ => by rewrite <-?app_assoc, ?app_nil_r
  | |- _ => done
  end.

(** The events of one node, written right after it was marked visited. *)
Lemma extends_own (nodeId : string) (st st1 : RunState) (evs : list event) :
  nodeId ∉ visited st →
  visited st1 = {[nodeId]} ∪ visited st →
  history st1 = (history st ++ evs)%list →
  Forall (λ e, event_node e = nodeId) evs →
  NoDup (entered_ids evs) → NoDup (result_ids evs) → NoDup (output_ids evs) →
  (∀ k, k ∉ result_ids evs → results st1 !! k = results st !! k) →
  (∀ key, key ∉ sanitize <$> output_ids evs →
          entries (outputs st1) !! key = entries (outputs st) !! key) →
  ("__proto__" ∉ sanitize <$> output_ids evs →
   prototype (outputs st1) = prototype (outputs st)) →
  extends st st1 evs.
Proof.
  intros Hnot Hv Hh Hevs ? ? ? ? ? ?. split; try done.
  - set_solver.
  - intros e He. rewrite Forall_forall in Hevs. rewrite (Hevs e He), Hv. set_solver.
Qed.

(** ** The graph model *)

Local Open Scope nat_scope.
Local Open Scope list_scope.

Lemma size_list_to_set_le (l : list string) :
  size (list_to_set l : gset string) ≤ length l.
Proof.
  induction l as [|x l IH].
  - rewrite list_to_set_nil, size_empty. done.
  - rewrite list_to_set_cons, size_union_alt, size_singleton.
    assert (size (list_to_set l ∖ {[x]} : gset string)
            ≤ size (list_to_set l : gset string)) as Hle.
    { apply subseteq_size. set_solver. }
    simpl. lia.
Qed.

Lemma edgesBySource_targets (edges : list WorkflowEdge) (source target : string)
    (targets : list string) :
  edgesBySource edges !! source = Some targets →
  target ∈ targets → target ∈ nodesWithIncoming edges.
Proof.
  unfold edgesBySource, nodesWithIncoming. revert source target targets.
  induction edges as [|e edges IH] using rev_ind; intros source target targets.
  - simpl. by rewrite lookup_empty.
  - rewrite foldl_app, fmap_app, list_to_set_app_L. simpl.
    destruct (decide (edge_source e = source)) as [->|Hne].
    + rewrite lookup_insert_eq. intros [= <-] [Hin|Hin]%elem_of_app.
      * match type of Hin with
        | context [default [] ?o] => destruct o as [ts|] eqn:E; simpl in Hin
        end.
        -- apply elem_of_union_l. eapply IH; eauto.
        -- by apply elem_of_nil in Hin.
      * set_solver.
    + rewrite lookup_insert_ne by done. intros Hl Hin.
      apply elem_of_union_l. eapply IH; eauto.
Qed.

Lemma nextNodes_targets (edges : list WorkflowEdge) (nodeId target : string) :
  target ∈ nextNodes_of edges nodeId → target ∈ nodesWithIncoming edges.
Proof.
  unfold nextNodes_of.
  destruct (edgesBySource edges !! nodeId) as [ts|] eqn:E; simpl.
  - by apply (edgesBySource_targets edges nodeId target ts).
  - by intros ?%elem_of_nil.
Qed.

Lemma size_targets (edges : list WorkflowEdge) :
  size (nodesWithIncoming edges) ≤ length edges.
Proof.
  unfold nodesWithIncoming.
  etrans; [apply size_list_to_set_le|]. by rewrite length_fmap.
Qed.

(** ** The walk *)

Lemma nodeMap_snoc (nodes : list WorkflowNode) (n : WorkflowNode) :
  nodeMap (nodes ++ [n]) = <[node_id n := n]> (nodeMap nodes).
Proof. unfold nodeMap. by rewrite foldl_app. Qed.

(** What the map holds under an id is a node of the list with that id. *)
Lemma nodeMap_Some (nodes : list WorkflowNode) (id : string) (node : WorkflowNode) :
  nodeMap nodes !! id = Some node → node_id node = id ∧ node ∈ nodes.
Proof.
  induction nodes as [|n nodes IH] using rev_ind; [done|].
  rewrite nodeMap_snoc. intros [[<- <-]|[_ Hold]]%lookup_insert_Some.
  - split; [done|]. set_solver.
  - destruct (IH Hold). split; [done|]. set_solver.
Qed.

(** Every node of the list has its id in the map. *)
Lemma nodeMap_is_Some (nodes : list WorkflowNode) (node : WorkflowNode) :
  node ∈ nodes → is_Some (nodeMap nodes !! node_id node).
Proof.
  induction nodes as [|n nodes IH] using rev_ind.
  { by intros ?%elem_of_nil. }
  rewrite nodeMap_snoc. intros [Hin|Hin]%elem_of_app.
  - apply lookup_insert_is_Some'. auto.
  - apply list_elem_of_singleton in Hin as ->. rewrite lookup_insert_eq. eauto.
Qed.

Lemma nextNodes_of_snoc (edges : list WorkflowEdge) (e : WorkflowEdge)
    (nodeId : string) :
  nextNodes_of (edges ++ [e]) nodeId
  = nextNodes_of edges nodeId
    ++ (if decide (edge_source e = nodeId) then [edge_target e] else []).
Proof.
  unfold nextNodes_of, edgesBySource. rewrite foldl_app. simpl.
  destruct (decide (edge_source e = nodeId)) as [Hs|Hs].
  - by rewrite <-Hs, lookup_insert_eq.
  - rewrite lookup_insert_ne by done. by rewrite app_nil_r.
Qed.

Section TraversalFacts.

Context `{Collaborators}.
Variable nodes : list WorkflowNode.
Variable edges : list WorkflowEdge.
Variable triggerInput : obj.
Variable executionId : option string.

Implicit Types (st : RunState) (nodeId : string) (node : WorkflowNode).

Local Abbreviation visit := (executeNode nodes edges triggerInput executionId).
Local Abbreviation body := (executeNode_body nodes edges triggerInput executionId).
Local Abbreviation targets := (nodesWithIncoming edges).
Local Abbreviation unvisited st := (size (targets ∖ visited st)).

(** What the callee of a loop is expected to do when it has fuel [k]. *)
Local Abbreviation visit_ok f k :=
  (∀ n st, n ∈ targets → unvisited st < k →
     ∃ st' new, f n st = Some st' ∧ extends st st' new ∧ n ∈ visited st').

Lemma unvisited_mono st st' :
  visited st ⊆ visited st' → unvisited st' ≤ unvisited st.
Proof. intros Hsub. apply subseteq_size. set_solver. Qed.

Lemma unvisited_mark nodeId st :
  nodeId ∈ targets → nodeId ∉ visited st →
  unvisited (mark_visited nodeId st) < unvisited st.
Proof.
  intros Hin Hnot. apply subset_size. simpl. split; [set_solver|].
  intros Hsub. specialize (Hsub nodeId). set_solver.
Qed.

Lemma run_node_frame nodeId node st :
  let st' := (run_node triggerInput executionId nodeId node st).2 in
  visited st' = visited st ∧ outputs st' = outputs st
  ∧ results st' = results st ∧ history st' = history st.
Proof.
  unfold run_node. repeat case_bool_decide; simpl; try done.
  destruct (negb _); simpl; [done|].
  by destruct (actionStep _ _ _ _).
Qed.

Lemma for_each_ok (f : string → RunState → option RunState) (k : nat)
    (l : list string) st :
  visit_ok f k → (∀ n, n ∈ l → n ∈ targets) → unvisited st < k →
  ∃ st' new, for_each f l st = Some st' ∧ extends st st' new
             ∧ ∀ n, n ∈ l → n ∈ visited st'.
Proof.
  intros Hf. revert st. induction l as [|n l IH]; intros st Hl Hk; simpl.
  - exists st, []. split_and!; [done|apply extends_refl|].
    by intros n ?%elem_of_nil.
  - destruct (Hf n st) as (st1 & new1 & -> & Hext1 & Hn); [set_solver|done|].
    destruct (IH st1) as (st2 & new2 & -> & Hext2 & Hl2).
    { set_solver. }
    { pose proof (unvisited_mono st st1 (ext_visited _ _ _ Hext1)). lia. }
    exists st2, (new1 ++ new2). split_and!; [done|by eapply extends_trans|].
    intros n' [->|?]%elem_of_cons; [|by auto].
    by apply (ext_visited _ _ _ Hext2).
Qed.

Lemma body_ok (f : string → RunState → option RunState) (k : nat) nodeId st :
  visit_ok f k →
  (nodeId ∉ visited st → unvisited (mark_visited nodeId st) < k) →
  ∃ st' new, body f nodeId st = Some st' ∧ extends st st' new
             ∧ nodeId ∈ visited st'.
Proof.
  intros Hf Hk. unfold executeNode_body.
  case_bool_decide as Hvis.
  { exists st, []. split_and!; [done|apply extends_refl|done]. }
  specialize (Hk Hvis).
  destruct (nodeMap nodes !! nodeId) as [node|] eqn:Hnode.
  2: { exists (mark_visited nodeId st), []. split_and!; [done| |simpl; set_solver].
       apply (extends_own nodeId); own_events. }
  assert (∀ st1 own,
    extends st st1 own → visited st1 = {[nodeId]} ∪ visited st →
    ∃ st' new, for_each f (nextNodes_of edges nodeId) st1 = Some st'
               ∧ extends st st' new ∧ nodeId ∈ visited st') as Hloop.
  { intros st1 own Hown Hv1.
    destruct (for_each_ok f k (nextNodes_of edges nodeId) st1)
      as (st' & new & -> & Hext & _); [done|apply nextNodes_targets| |].
    { rewrite Hv1. exact Hk. }
    exists st', (own ++ new). split_and!; [done|by eapply extends_trans|].
    apply (ext_visited _ _ _ Hext). rewrite Hv1. set_solver. }
  case_bool_decide as Hen.
  { apply (Hloop _ [Entered nodeId;
                      OutputWritten nodeId (sanitize nodeId)
                        {| out_label := label_or node nodeId;
                           out_data := VNull |}]); [|done].
    apply (extends_own nodeId); own_events. }
  pose proof (run_node_frame nodeId node (enter nodeId (mark_visited nodeId st)))
    as (Hv & Ho & Hr & Hh).
  destruct (run_node _ _ _ _ _) as [[r|r|message] st0]; simpl in *.
  - assert (extends st
              (set_output nodeId {| out_label := label_or node nodeId;
                                    out_data := res_data r |}
                 (set_result nodeId r st0))
              [Entered nodeId; ResultWritten nodeId r;
               OutputWritten nodeId (sanitize nodeId)
                 {| out_label := label_or node nodeId; out_data := res_data r |}])
      as Hown.
    { apply (extends_own nodeId); simpl; rewrite ?Hv, ?Ho, ?Hr, ?Hh; own_events. }
    destruct (continues node r).
    + apply (Hloop _ _ Hown). simpl. by rewrite Hv.
    + eexists _, _. split_and!; [done|exact Hown|]. simpl. rewrite Hv. set_solver.
  - eexists _, _. split_and!; [done| |simpl; rewrite Hv; set_solver].
    apply (extends_own nodeId _ _ [Entered nodeId; ResultWritten nodeId r]);
      simpl; rewrite ?Hv, ?Ho, ?Hr, ?Hh; own_events.
  - eexists _, _. split_and!; [done| |simpl; rewrite Hv; set_solver].
    apply (extends_own nodeId _ _
             [Entered nodeId; ResultWritten nodeId (failure_result (VStr message))]);
      simpl; rewrite ?Hv, ?Ho, ?Hr, ?Hh; own_events.
Qed.

Lemma executeNode_ok (fuel : nat) : visit_ok (visit fuel) fuel.
Proof.
  induction fuel as [|fuel IH]; intros n st Hn Hk; [lia|].
  simpl. apply body_ok with fuel; [exact IH|].
  intros Hvis. pose proof (unvisited_mark n st Hn Hvis). lia.
Qed.

(** Every call of [executeNode] returns: the recursion never needs more
    depth than there are edges. *)
Lemma executeNode_terminates nodeId st :
  ∃ st' new, visit (enough_fuel edges) nodeId st = Some st'
             ∧ extends st st' new ∧ nodeId ∈ visited st'.
Proof.
  unfold enough_fuel. simpl.
  apply body_ok with (S (length edges)); [apply executeNode_ok|].
  intros _. pose proof (size_targets edges).
  assert (unvisited (mark_visited nodeId st) ≤ size targets).
  { apply subseteq_size. set_solver. }
  lia.
Qed.

(** More fuel never changes what a call returns. *)
Lemma for_each_mono (f g : string → RunState → option RunState)
    (l : list string) st st' :
  (∀ n s s', f n s = Some s' → g n s = Some s') →
  for_each f l st = Some st' → for_each g l st = Some st'.
Proof.
  intros Hfg. revert st. induction l as [|n l IH]; intros st; simpl; [done|].
  destruct (f n st) as [st1|] eqn:E; [|done].
  rewrite (Hfg _ _ _ E). apply IH.
Qed.

Lemma body_mono (f g : string → RunState → option RunState) nodeId st st' :
  (∀ n s s', f n s = Some s' → g n s = Some s') →
  body f nodeId st = Some st' → body g nodeId st = Some st'.
Proof.
  intros Hfg. unfold executeNode_body.
  case_bool_decide; [done|].
  destruct (nodeMap nodes !! nodeId) as [node|]; [|done].
  case_bool_decide; [by apply for_each_mono|].
  destruct (run_node _ _ _ _ _) as [[r|r|message] st0]; try done.
  destruct (continues node r); [by apply for_each_mono|done].
Qed.

Lemma executeNode_fuel_mono (fuel fuel' : nat) nodeId st st' :
  fuel ≤ fuel' → visit fuel nodeId st = Some st' →
  visit fuel' nodeId st = Some st'.
Proof.
  revert fuel' nodeId st st'.
  induction fuel as [|fuel IH]; intros fuel' nodeId st st' Hle; [done|].
  destruct fuel' as [|fuel']; [lia|]. simpl.
  apply body_mono. intros n s s'. apply IH. lia.
Qed.

(** *** Single calls *)

(** One call on an enabled node whose attempt reaches the stores. *)
Lemma executeNode_stored nodeId node st st0 (r : ExecutionResult) (fuel : nat) :
  nodeId ∉ visited st →
  nodeMap nodes !! nodeId = Some node →
  node_enabled node ≠ Some false →
  run_node triggerInput executionId nodeId node (enter nodeId (mark_visited nodeId st))
  = (Stored r, st0) →
  visit (S fuel) nodeId st
  = let st1 := set_output nodeId {| out_label := label_or node nodeId;
                                    out_data := res_data r |}
                 (set_result nodeId r st0) in
    if continues node r then for_each (visit fuel) (nextNodes_of edges nodeId) st1
    else Some st1.
Proof.
  intros Hvis Hnode Hen Hrun. simpl. unfold executeNode_body.
  rewrite bool_decide_eq_false_2, Hnode, bool_decide_eq_false_2 by done.
  by rewrite Hrun.
Qed.

(** One call on a disabled node. *)
Lemma executeNode_disabled nodeId node st (fuel : nat) :
  nodeId ∉ visited st →
  nodeMap nodes !! nodeId = Some node →
  node_enabled node = Some false →
  visit (S fuel) nodeId st
  = for_each (visit fuel) (nextNodes_of edges nodeId)
      (set_output nodeId {| out_label := label_or node nodeId; out_data := VNull |}
         (enter nodeId (mark_visited nodeId st))).
Proof.
  intros Hvis Hnode Hen. simpl. unfold executeNode_body.
  by rewrite bool_decide_eq_false_2, Hnode, bool_decide_eq_true_2.
Qed.

Lemma run_node_trigger nodeId node st :
  node_type node = "trigger"%string →
  run_node triggerInput executionId nodeId node st
  = (Stored (success_result
               (VObj (triggerData node triggerInput (Date_now (clock st))))),
     tick st).
Proof. intros Hty. unfold run_node. by rewrite Hty. Qed.

Lemma run_node_condition nodeId node st (ev : ConditionEvalResult) :
  node_type node = "action"%string →
  prop "actionType" (config_of node) = VStr "Condition" →
  (∀ input outcome, withStepLogging input outcome = outcome) →
  evaluateConditionExpression
    (prop "condition" (stepInput_of executionId node (VStr "Condition") (outputs st)))
    (outputs st) = Normal ev →
  run_node triggerInput executionId nodeId node st
  = (Stored (success_result (VObj [("condition", VBool (result ev))])), st).
Proof.
  intros Hty Hat Hlog Hev. unfold run_node. rewrite Hty, Hat. simpl.
  unfold actionStep. simpl. rewrite Hev. simpl.
  unfold conditionStep. rewrite Hlog. done.
Qed.

Lemma continues_trigger node (r : ExecutionResult) :
  node_type node = "trigger"%string → continues node r = res_success r.
Proof. intros Hty. unfold continues. rewrite Hty. simpl. by destruct (res_success r). Qed.

Lemma continues_condition node (b : bool) :
  node_type node = "action"%string →
  prop "actionType" (config_of node) = VStr "Condition" →
  continues node (success_result (VObj [("condition", VBool b)])) = b.
Proof.
  intros Hty Hat. unfold continues. rewrite Hty, Hat. simpl. by destruct b.
Qed.

Lemma for_each_visited (l : list string) st (fuel : nat) :
  (∀ n, n ∈ l → n ∈ visited st) →
  for_each (visit (S fuel)) l st = Some st.
Proof.
  induction l as [|n l IH]; intros Hl; [done|].
  cbn [for_each]. simpl. unfold executeNode_body at 1.
  rewrite bool_decide_eq_true_2 by set_solver.
  apply IH. set_solver.
Qed.

(** Where [results[nodeId] = r] leaves an entry, and where it does not. *)
Lemma results_set_result nodeId (r : ExecutionResult) st :
  results (set_result nodeId r st) !! nodeId
  = if bool_decide (nodeId = "__proto__") then results st !! nodeId else Some r.
Proof. simpl. case_bool_decide; [done|]. apply lookup_insert_eq. Qed.

Lemma results_set_result_ne nodeId (k : string) (r : ExecutionResult) st :
  k ≠ nodeId → results (set_result nodeId r st) !! k = results st !! k.
Proof. intros Hk. simpl. case_bool_decide; [done|]. by apply lookup_insert_ne. Qed.

(** A call on an unvisited node of the graph is the node's own part,
    followed by the calls on its successors when the walk proceeds. *)
Lemma executeNode_own_part nodeId node st (fuel : nat) :
  nodeId ∉ visited st →
  nodeMap nodes !! nodeId = Some node →
  visit (S fuel) nodeId st
  = if proceeds triggerInput executionId nodeId node st
    then for_each (visit fuel) (nextNodes_of edges nodeId)
           (own_part triggerInput executionId nodeId node st)
    else Some (own_part triggerInput executionId nodeId node st).
Proof.
  intros Hvis Hnode.
  change (visit (S fuel) nodeId st) with (body (visit fuel) nodeId st).
  unfold executeNode_body, proceeds, own_part.
  rewrite bool_decide_eq_false_2, Hnode by done.
  case_bool_decide; [done|].
  destruct (run_node _ _ _ _ _) as [[r|r|message] st0]; simpl; try done.
Qed.

Lemma own_part_frame nodeId node st :
  let st' := own_part triggerInput executionId nodeId node st in
  visited st' = {[nodeId]} ∪ visited st
  ∧ entered_ids (history st') = entered_ids (history st) ++ [nodeId]
  ∧ result_ids (history st')
    = result_ids (history st)
      ++ (if bool_decide (node_enabled node = Some false) then [] else [nodeId])
  ∧ results_written (history st') nodeId
    = results_written (history st) nodeId
      ++ (if bool_decide (node_enabled node = Some false) then []
          else [attempt_result
                  (run_node triggerInput executionId nodeId node
                     (enter nodeId (mark_visited nodeId st))).1]).
Proof.
  unfold own_part. case_bool_decide.
  { simpl. unfold entered_ids, result_ids, results_written.
    rewrite !omap_app. simpl. by rewrite !app_nil_r. }
  pose proof (run_node_frame nodeId node
                (enter nodeId (mark_visited nodeId st))) as (Hv & _ & _ & Hh).
  destruct (run_node _ _ _ _ _) as [[r|r|message] st0];
    simpl in *; rewrite Hv, Hh; unfold entered_ids, result_ids, results_written;
    rewrite !omap_app; simpl; rewrite ?bool_decide_eq_true_2 by done;
    by rewrite ?app_nil_r.
Qed.

(** The result recorded for an enabled action node with a truthy action
    type: what [actionStep] returned, or the failure carrying what it
    threw. *)
Lemma run_node_action nodeId node st :
  node_type node = "action"%string →
  Boolean (prop "actionType" (config_of node)) = true →
  attempt_result (run_node triggerInput executionId nodeId node st).1
  = match actionStep executionId node (prop "actionType" (config_of node))
            (outputs st) with
    | Normal stepResult => action_result (prop "actionType" (config_of node)) stepResult
    | Abrupt message => failure_result (VStr message)
    end.
Proof.
  intros Hty Hat. unfold run_node. rewrite Hty. simpl. rewrite Hat. simpl.
  by destruct (actionStep _ _ _ _).
Qed.

(** One call on an unvisited node all of whose successors are visited
    already (or are the node itself): the node runs, nothing else does. *)
Lemma executeNode_last nodeId node st (fuel : nat) :
  nodeId ∉ visited st →
  nodeMap nodes !! nodeId = Some node →
  (∀ n, n ∈ nextNodes_of edges nodeId → n ∈ ({[nodeId]} ∪ visited st : gset string)) →
  ∃ st' rest,
    visit (S (S fuel)) nodeId st = Some st'
    ∧ visited st' = {[nodeId]} ∪ visited st
    ∧ history st' = history st ++ Entered nodeId :: rest
    ∧ entered_ids rest = []
    ∧ (∀ e, e ∈ rest → event_node e = nodeId)
    ∧ (node_enabled node ≠ Some false →
       ResultWritten nodeId
         (attempt_result
            (run_node triggerInput executionId nodeId node
               (enter nodeId (mark_visited nodeId st))).1) ∈ rest
       ∧ (nodeId ≠ "__proto__" →
          results st' !! nodeId
          = Some (attempt_result
                    (run_node triggerInput executionId nodeId node
                       (enter nodeId (mark_visited nodeId st))).1)))
    ∧ (node_enabled node = Some false →
       rest = [OutputWritten nodeId (sanitize nodeId)
                 {| out_label := label_or node nodeId; out_data := VNull |}]
       ∧ results st' = results st
       ∧ outputs st'
         = outputs_set (sanitize nodeId)
             {| out_label := label_or node nodeId; out_data := VNull |} (outputs st)).
Proof.
  intros Hvis Hnode Hnext.
  change (visit (S (S fuel)) nodeId st) with (body (visit (S fuel)) nodeId st).
  unfold executeNode_body.
  rewrite bool_decide_eq_false_2, Hnode by done.
  case_bool_decide as Hen.
  { rewrite for_each_visited by done.
    eexists _, _. split_and!; [done|done|simpl; by rewrite <-app_assoc|done| |done|done].
    by intros e ->%list_elem_of_singleton. }
  pose proof (run_node_frame nodeId node
                (enter nodeId (mark_visited nodeId st))) as (Hv & Ho & Hr & Hh).
  destruct (run_node _ _ _ _ _) as [[r|r|message] st0]; simpl in Hv, Ho, Hr, Hh.
  - rewrite for_each_visited by (simpl; by rewrite Hv).
    assert (∀ b : bool, (if b then Some (set_output nodeId
              {| out_label := label_or node nodeId; out_data := res_data r |}
              (set_result nodeId r st0)) else Some (set_output nodeId
              {| out_label := label_or node nodeId; out_data := res_data r |}
              (set_result nodeId r st0))) = Some (set_output nodeId
              {| out_label := label_or node nodeId; out_data := res_data r |}
              (set_result nodeId r st0))) as -> by by intros [].
    eexists _, _; split_and!; [done|simpl; by rewrite Hv
      |simpl; by rewrite Hh, <-!app_assoc|done| | |done].
    + intros e. simpl. rewrite !elem_of_cons, elem_of_nil. by intros [->|[->|[]]].
    + intros _. split; [set_solver|]. intros Hp. simpl.
      rewrite bool_decide_eq_false_2 by done. apply lookup_insert_eq.
  - eexists _, _. split_and!; [done|simpl; by rewrite Hv
      |simpl; by rewrite Hh, <-!app_assoc|done| | |done].
    + by intros e ->%list_elem_of_singleton.
    + intros _. split; [set_solver|]. intros Hp. simpl.
      rewrite bool_decide_eq_false_2 by done. apply lookup_insert_eq.
  - eexists _, _. split_and!; [done|simpl; by rewrite Hv
      |simpl; by rewrite Hh, <-!app_assoc|done| | |done].
    + by intros e ->%list_elem_of_singleton.
    + intros _. split; [set_solver|]. intros Hp. simpl.
      rewrite bool_decide_eq_false_2 by done. apply lookup_insert_eq.
Qed.

(** *** Whole walks and runs *)

Local Abbreviation run := (walks nodes edges triggerInput executionId).

Lemma run_node_state nodeId node st :
  let st' := (run_node triggerInput executionId nodeId node st).2 in
  st' = st ∨ st' = tick st.
Proof.
  unfold run_node. repeat case_bool_decide; simpl; auto.
  destruct (negb _); simpl; auto.
  destruct (actionStep _ _ _ _); auto.
Qed.

Lemma walks_cons (trigger : WorkflowNode) (triggers : list WorkflowNode) st :
  run (trigger :: triggers) st
  = match visit (enough_fuel edges) (node_id trigger) (fresh_walk st) with
    | Some st' => run triggers st'
    | None => None
    end.
Proof. done. Qed.

(** *** A rule for state invariants *)

Section Invariant.

Variable I : RunState → Prop.

Hypothesis I_mark : ∀ nodeId st, I st → I (mark_visited nodeId st).
Hypothesis I_tick : ∀ st, I st → I (tick st).
Hypothesis I_enter :
  ∀ nodeId node st, nodeMap nodes !! nodeId = Some node → I st → I (enter nodeId st).
Hypothesis I_output :
  ∀ nodeId node data st,
    nodeMap nodes !! nodeId = Some node → I st →
    I (set_output nodeId {| out_label := label_or node nodeId; out_data := data |} st).
Hypothesis I_result :
  ∀ nodeId node st0 st,
    nodeMap nodes !! nodeId = Some node → node_enabled node ≠ Some false → I st →
    I (set_result nodeId
         (attempt_result (run_node triggerInput executionId nodeId node st0).1) st).

Lemma for_each_invariant (f : string → RunState → option RunState)
    (l : list string) st st' :
  (∀ n s s', f n s = Some s' → I s → I s') →
  for_each f l st = Some st' → I st → I st'.
Proof.
  intros Hf. revert st. induction l as [|n l IH]; intros st; simpl.
  - by intros [= ->].
  - destruct (f n st) as [st1|] eqn:E; [|done]. eauto.
Qed.

Lemma body_invariant (f : string → RunState → option RunState) nodeId st st' :
  (∀ n s s', f n s = Some s' → I s → I s') →
  body f nodeId st = Some st' → I st → I st'.
Proof.
  intros Hf. unfold executeNode_body.
  case_bool_decide; [by intros [= ->]|].
  destruct (nodeMap nodes !! nodeId) as [node|] eqn:Hnode;
    [|intros [= <-]; by auto].
  case_bool_decide as Hen.
  { intros Hloop Hst. eapply for_each_invariant; [done|exact Hloop|]. eauto. }
  pose proof (run_node_state nodeId node (enter nodeId (mark_visited nodeId st)))
    as Hst0.
  pose proof (I_result nodeId node (enter nodeId (mark_visited nodeId st))) as Hres.
  destruct (run_node _ _ _ _ _) as [a st0]. simpl in Hst0, Hres.
  intros Hrun Hst.
  assert (I st0) as Hst0' by (destruct Hst0 as [->| ->]; eauto).
  specialize (Hres st0 Hnode Hen Hst0').
  destruct a as [r|r|message]; simpl in Hres.
  - destruct (continues node r).
    + eapply for_each_invariant; [done|exact Hrun|]. eauto.
    + injection Hrun as <-. eauto.
  - by injection Hrun as <-.
  - by injection Hrun as <-.
Qed.

Lemma executeNode_invariant (fuel : nat) nodeId st st' :
  visit fuel nodeId st = Some st' → I st → I st'.
Proof.
  revert nodeId st st'. induction fuel as [|fuel IH]; intros nodeId st st'; [done|].
  simpl. apply body_invariant. exact IH.
Qed.

Hypothesis I_fresh : ∀ st, I st → I (fresh_walk st).

Lemma walks_invariant (triggers : list WorkflowNode) st st' :
  run triggers st = Some st' → I st → I st'.
Proof.
  revert st. induction triggers as [|trigger triggers IH]; intros st.
  - by intros [= ->].
  - rewrite walks_cons.
    destruct (visit _ _ _) as [st1|] eqn:E; [|done].
    intros Hrun Hst. apply (IH st1 Hrun).
    eapply executeNode_invariant; [exact E|]. auto.
Qed.

End Invariant.

Lemma walks_total (triggers : list WorkflowNode) st :
  ∃ st', run triggers st = Some st'.
Proof.
  revert st. induction triggers as [|trigger triggers IH]; intros st; [by eexists|].
  destruct (executeNode_terminates (node_id trigger) (fresh_walk st))
    as (st1 & new & Hrun & _).
  destruct (IH st1) as [st' Hst']. exists st'.
  by rewrite walks_cons, Hrun.
Qed.

Lemma finalSuccess_spec (results : gmap string ExecutionResult) :
  finalSuccess results = true
  ↔ ∀ id r, results !! id = Some r → res_success r = true.
Proof.
  unfold finalSuccess. rewrite forallb_forall. split.
  - intros Hall id r Hr. apply Hall, list_elem_of_In, list_elem_of_fmap.
    exists (id, r). split; [done|]. by apply elem_of_map_to_list.
  - intros Hall r (kv & -> & Hin)%list_elem_of_In%list_elem_of_fmap.
    destruct kv as [id r]. apply elem_of_map_to_list in Hin. by apply (Hall id).
Qed.

(** *** What [results] holds *)

Lemma results_written_snoc (h : list event) (e : event) (id : string) :
  results_written (h ++ [e]) id
  = results_written h id
    ++ match e with
       | ResultWritten n r => if bool_decide (n = id) then [r] else []
       | _ => []
       end.
Proof.
  unfold results_written. rewrite omap_app. f_equal.
  destruct e as [n|n key o|n r]; simpl; try done. by case_bool_decide.
Qed.

Lemma results_written_ids (h : list event) (id : string) :
  id ∉ result_ids h → results_written h id = [].
Proof.
  induction h as [|e h IH]; [done|]. unfold result_ids, results_written in *.
  destruct e as [n|n key o|n r]; simpl; try done.
  intros Hid. rewrite bool_decide_eq_false_2 by set_solver. apply IH. set_solver.
Qed.

(** [results] holds, under every id but [__proto__], the result assigned
    last under it. *)
Local Abbreviation last_writes st :=
  (∀ id, results st !! id
         = if bool_decide (id = "__proto__") then None
           else last (results_written (history st) id)).

Lemma walks_last_writes (triggers : list WorkflowNode) st st' :
  run triggers st = Some st' → last_writes st → last_writes st'.
Proof.
  apply (walks_invariant (λ s, last_writes s)); try done.
  - intros nodeId node s _ Hs id. simpl.
    by rewrite results_written_snoc, app_nil_r.
  - intros nodeId node data s _ Hs id. simpl.
    by rewrite results_written_snoc, app_nil_r.
  - intros nodeId node st0 s _ _ Hs id. simpl.
    rewrite results_written_snoc. specialize (Hs id).
    destruct (decide (nodeId = id)) as [->|Hn].
    + rewrite (bool_decide_eq_true_2 (id = id)), last_snoc by done.
      case_bool_decide; [done|]. apply lookup_insert_eq.
    + rewrite (bool_decide_eq_false_2 (nodeId = id)), app_nil_r by done.
      destruct (bool_decide (nodeId = "__proto__")); [done|].
      by rewrite lookup_insert_ne.
Qed.

(** *** Start nodes *)

Section HasRun.

Variable nodeId : string.
Variable node : WorkflowNode.
Hypothesis Hnode : nodeMap nodes !! nodeId = Some node.

(** What stays true of the node once it has run. *)
Local Abbreviation has_run st :=
  (Entered nodeId ∈ history st
   ∧ (node_enabled node ≠ Some false →
      nodeId ∈ result_ids (history st)
      ∧ (nodeId ≠ "__proto__" →
         ∃ st0, results st !! nodeId
                = Some (attempt_result
                          (run_node triggerInput executionId nodeId node st0).1)))
   ∧ (node_enabled node = Some false →
      nodeId ∈ output_ids (history st)
      ∧ (sanitize nodeId ≠ "__proto__" →
         is_Some (entries (outputs st) !! sanitize nodeId)))
   ∧ (node_enabled node ≠ Some false →
      ∃ st0, ResultWritten nodeId
               (attempt_result
                  (run_node triggerInput executionId nodeId node st0).1)
             ∈ history st)).

Lemma executeNode_has_run (fuel : nat) n st st' :
  visit fuel n st = Some st' → has_run st → has_run st'.
Proof.
  apply (executeNode_invariant (λ s, has_run s)); try done.
  - intros n' node' s _ (He & Hr & Ho & Hw). simpl. unfold result_ids, output_ids.
    rewrite !omap_app. simpl. rewrite !app_nil_r. split_and!; [set_solver|done|done|].
    intros Hen. destruct (Hw Hen) as [st0 ?]. exists st0. set_solver.
  - intros n' node' data s _ (He & Hr & Ho & Hw). simpl. unfold result_ids, output_ids.
    rewrite !omap_app. simpl. rewrite app_nil_r. split_and!; [set_solver|done| |].
    + intros Hen. destruct (Ho Hen) as [? Hentry]. split; [set_solver|].
      intros Hp. rewrite entries_outputs_set.
      repeat case_bool_decide; eauto.
    + intros Hen. destruct (Hw Hen) as [st0 ?]. exists st0. set_solver.
  - intros n' node' st0 s Hn' Hen' (He & Hr & Ho & Hw). simpl.
    unfold result_ids, output_ids.
    rewrite !omap_app. simpl. rewrite app_nil_r. split_and!; [set_solver| |done|].
    + intros Hen. destruct (Hr Hen) as [? Hentry]. split; [set_solver|].
      intros Hp. destruct (decide (n' = nodeId)) as [->|Hne].
      * rewrite bool_decide_eq_false_2, lookup_insert_eq by done. exists st0.
        rewrite Hnode in Hn'. by injection Hn' as ->.
      * case_bool_decide; [by auto|]. rewrite lookup_insert_ne by done. auto.
    + intros Hen. destruct (Hw Hen) as [st1 ?]. exists st1. set_solver.
Qed.

Lemma walks_has_run (triggers : list WorkflowNode) st st' :
  run triggers st = Some st' → has_run st → has_run st'.
Proof.
  revert st. induction triggers as [|trigger triggers IH]; intros st.
  - by intros [= ->].
  - rewrite walks_cons.
    destruct (visit _ _ _) as [st1|] eqn:E; [|done].
    intros Hrun Hst. apply (IH st1 Hrun).
    by apply (executeNode_has_run _ _ _ _ E).
Qed.

Lemma executeNode_runs (fuel : nat) st st' :
  nodeId ∉ visited st →
  visit (S fuel) nodeId st = Some st' → has_run st'.
Proof.
  intros Hvis. simpl. unfold executeNode_body.
  rewrite bool_decide_eq_false_2, Hnode by done.
  assert (∀ s s', for_each (visit fuel) (nextNodes_of edges nodeId) s = Some s' →
                  has_run s → has_run s') as Hloop.
  { intros s s'. apply (for_each_invariant (λ s, has_run s)).
    intros n s1 s2. apply executeNode_has_run. }
  assert (∀ s evs, Entered nodeId ∈ (history s ++ [Entered nodeId]) ++ evs) as Hent
    by set_solver.
  case_bool_decide as Hen.
  { intros Hrun. apply (Hloop _ _ Hrun). simpl. split_and!; [apply Hent|done| |done].
    intros _. unfold output_ids. rewrite !omap_app. simpl. split; [set_solver|].
    intros Hp. rewrite entries_outputs_set.
    rewrite bool_decide_eq_false_2, bool_decide_eq_true_2 by done. eauto. }
  pose proof (run_node_frame nodeId node (enter nodeId (mark_visited nodeId st)))
    as (_ & _ & _ & Hh).
  destruct (run_node _ _ _ _ _) as [a st0] eqn:Hrun. simpl in Hh.
  assert (∀ s, history s = history st0 →
               has_run (set_result nodeId (attempt_result a) s)) as Hres.
  { intros s Hs. simpl. rewrite Hs, Hh. split_and!; [apply Hent| |done|].
    - intros _. unfold result_ids. rewrite !omap_app. simpl. split; [set_solver|].
      intros Hp. exists (enter nodeId (mark_visited nodeId st)).
      by rewrite bool_decide_eq_false_2, lookup_insert_eq, Hrun.
    - intros _. exists (enter nodeId (mark_visited nodeId st)).
      rewrite Hrun. set_solver. }
  destruct a as [r|r|message]; simpl in Hres.
  - assert (has_run
              (set_output nodeId {| out_label := label_or node nodeId;
                                    out_data := res_data r |}
                 (set_result nodeId r st0))) as Hst1.
    { destruct (Hres st0 eq_refl) as (He & Hr & _ & Hw).
      split_and!; [simpl in *; set_solver| |done|].
      - intros Hen'. destruct (Hr Hen') as [Hin Hentry]. split; [|done].
        simpl in *. unfold result_ids in *. rewrite omap_app. set_solver.
      - intros Hen'. destruct (Hw Hen') as [st1 ?]. exists st1.
        simpl in *. set_solver. }
    destruct (continues node r); [intros Hfor; by apply (Hloop _ _ Hfor)|].
    by intros [= <-].
  - intros [= <-]. by apply (Hres st0).
  - intros [= <-]. by apply (Hres st0).
Qed.

Lemma walks_runs (triggers : list WorkflowNode) trigger st st' :
  trigger ∈ triggers → node_id trigger = nodeId →
  run triggers st = Some st' → has_run st'.
Proof.
  revert st. induction triggers as [|t triggers IH]; intros st Hin Hid.
  { by apply elem_of_nil in Hin. }
  rewrite walks_cons.
  destruct (visit _ _ _) as [st1|] eqn:E; [|done]. intros Hrun.
  apply elem_of_cons in Hin as [<-|Hin]; [|by apply (IH st1)].
  apply (walks_has_run _ _ _ Hrun).
  rewrite Hid in E. unfold enough_fuel in E.
  apply (executeNode_runs _ _ _ (not_elem_of_empty _) E).
Qed.

End HasRun.

(** C6 (amended). The run returns. What it returns as [results] holds,
    under every node id other than [__proto__], the result assigned last
    under that id on the walks, and its [success] flag is the conjunction
    of the [success] fields of these results; with no result assigned it
    is [true]. Every start node is entered on the walks, and gets a result
    assigned when the node the map holds under its id is enabled: the
    success carrying the trigger payload when that node is a trigger. *)
Theorem run_success_is_conjunction :
  ∃ st ret,
    run (triggerNodes nodes edges) (tick initial_state) = Some st
    ∧ executeWorkflow nodes edges triggerInput executionId = Some ret
    ∧ (∀ id, ret_results ret !! id
             = if bool_decide (id = "__proto__") then None
               else last (results_written (history st) id))
    ∧ (ret_success ret = true
       ↔ ∀ id r, id ≠ "__proto__" →
                 last (results_written (history st) id) = Some r →
                 res_success r = true)
    ∧ (result_ids (history st) = [] → ret_success ret = true)
    ∧ (∀ trigger node,
         trigger ∈ triggerNodes nodes edges →
         nodeMap nodes !! node_id trigger = Some node →
         Entered (node_id trigger) ∈ history st
         ∧ (node_enabled node ≠ Some false →
            node_id trigger ∈ result_ids (history st)
            ∧ (node_type node = "trigger"%string →
               ∃ now, ResultWritten (node_id trigger)
                        (success_result (VObj (triggerData node triggerInput now)))
                      ∈ history st))).
Proof.
  destruct (walks_total (triggerNodes nodes edges) (tick initial_state))
    as (st & Hrun).
  assert (last_writes st) as Hlast.
  { apply (walks_last_writes _ _ _ Hrun). intros id. simpl.
    rewrite lookup_empty. by case_bool_decide. }
  assert (ret_success_iff :
    finalSuccess (results st) = true
    ↔ ∀ id r, id ≠ "__proto__" →
              last (results_written (history st) id) = Some r →
              res_success r = true).
  { rewrite finalSuccess_spec. split.
    - intros Hall id r Hid Hr. apply (Hall id). rewrite Hlast.
      by rewrite bool_decide_eq_false_2.
    - intros Hall id r Hr. rewrite Hlast in Hr.
      case_bool_decide; [done|]. by apply (Hall id). }
  exists st. unfold executeWorkflow. rewrite Hrun. eexists.
  split_and!; [done|done|exact Hlast|exact ret_success_iff| |].
  - intros Hnone. simpl. apply ret_success_iff. intros id r _.
    rewrite results_written_ids; [done|]. rewrite Hnone. set_solver.
  - intros trigger node Hin Hnode.
    destruct (walks_runs (node_id trigger) node Hnode (triggerNodes nodes edges)
                trigger (tick initial_state) st Hin eq_refl Hrun)
      as (He & Hr & _ & Hw).
    split; [done|]. intros Hen. split; [by destruct (Hr Hen)|].
    intros Hty. destruct (Hw Hen) as [st0 Hin0].
    rewrite run_node_trigger in Hin0 by done. simpl in Hin0. eauto.
Qed.

(** Whatever the graph, a walk returns, and no node is entered twice on
    it. *)
Lemma walk_enters_once nodeId st :
  ∃ st' new, visit (enough_fuel edges) nodeId st = Some st'
             ∧ history st' = history st ++ new
             ∧ NoDup (entered_ids new)
             ∧ ∀ fuel, enough_fuel edges ≤ fuel →
                       visit fuel nodeId st = Some st'.
Proof.
  destruct (executeNode_terminates nodeId st) as (st' & new & Hrun & Hext & _).
  exists st', new. split_and!; [done|apply Hext|apply Hext|].
  intros fuel Hle. by apply executeNode_fuel_mono with (enough_fuel edges).
Qed.

(** C2 (amended). On one walk every node writes its result at most once
    and its output at most once; if the nodes that wrote an output have
    pairwise distinct sanitized ids no output key is written twice; the
    entries of [results] and [outputs] under keys not written on this walk
    are as they were before it. *)
Theorem write_once_per_walk nodeId st :
  ∃ st' new, visit (enough_fuel edges) nodeId st = Some st'
    ∧ history st' = history st ++ new
    ∧ NoDup (result_ids new)
    ∧ NoDup (output_ids new)
    ∧ ((∀ a b, a ∈ output_ids new → b ∈ output_ids new →
               sanitize a = sanitize b → a = b) →
       NoDup (sanitize <$> output_ids new))
    ∧ (∀ k, k ∉ result_ids new → results st' !! k = results st !! k)
    ∧ (∀ key, key ∉ sanitize <$> output_ids new →
              entries (outputs st') !! key = entries (outputs st) !! key)
    ∧ ("__proto__" ∉ sanitize <$> output_ids new →
       prototype (outputs st') = prototype (outputs st)).
Proof.
  destruct (executeNode_terminates nodeId st) as (st' & new & Hrun & Hext & _).
  exists st', new. split_and!; try apply Hext; [done|].
  intros Hinj. apply NoDup_fmap_2_strong; [done|apply Hext].
Qed.

(** A read of [outputs] under a key that no later event wrote. *)
Lemma outputs_get_unwritten (key : string) (output : NodeOutput) st st'
    (new : list event) :
  extends st st' new → key ∉ sanitize <$> output_ids new →
  outputs_get (outputs st) key = output_value output →
  (key = "__proto__" ∨ is_Some (entries (outputs st) !! key)) →
  outputs_get (outputs st') key = output_value output.
Proof.
  intros Hext Hkey Hget Hown. unfold outputs_get in *.
  case_bool_decide as Hp.
  - subst. by rewrite (ext_prototype _ _ _ Hext).
  - rewrite (ext_outputs _ _ _ Hext) by done.
    destruct Hown as [?|[o Ho]]; [done|]. by rewrite Ho in *.
Qed.

(** X29. A disabled node, met unvisited: [{label, data: null}] is assigned to
    [outputs] under its sanitized id, the loop over its successors runs
    from there (every successor ends up visited), and nothing on the way
    writes for the node again. Unless a node reached later has the same
    sanitized id, [outputs] still reads as that object under the sanitized
    id at the end; it is an entry of [outputs] when the sanitized id is not
    [__proto__], and the prototype of [outputs] when it is. *)
Theorem disabled_node_pass_through nodeId node st :
  nodeId ∉ visited st →
  nodeMap nodes !! nodeId = Some node →
  node_enabled node = Some false →
  let skipped := {| out_label := label_or node nodeId; out_data := VNull |} in
  ∃ st' rest,
    visit (enough_fuel edges) nodeId st = Some st'
    ∧ for_each (visit (S (length edges))) (nextNodes_of edges nodeId)
        (set_output nodeId skipped (enter nodeId (mark_visited nodeId st))) = Some st'
    ∧ history st'
      = history st
        ++ (Entered nodeId :: OutputWritten nodeId (sanitize nodeId) skipped :: rest)
    ∧ (∀ e, e ∈ rest → event_node e ≠ nodeId)
    ∧ results st' !! nodeId = results st !! nodeId
    ∧ (sanitize nodeId ∉ sanitize <$> output_ids rest →
       outputs_get (outputs st') (sanitize nodeId) = output_value skipped
       ∧ (sanitize nodeId ≠ "__proto__" →
          entries (outputs st') !! sanitize nodeId = Some skipped)
       ∧ (sanitize nodeId = "__proto__" →
          prototype (outputs st') = Some skipped
          ∧ entries (outputs st') !! sanitize nodeId
            = entries (outputs st) !! sanitize nodeId))
    ∧ ∀ n, n ∈ nextNodes_of edges nodeId → n ∈ visited st'.
Proof.
  intros Hvis Hnode Hen skipped.
  set (st1 := set_output nodeId skipped (enter nodeId (mark_visited nodeId st))).
  destruct (for_each_ok (visit (S (length edges))) (S (length edges))
              (nextNodes_of edges nodeId) st1)
    as (st' & rest & Hloop & Hext & Hsucc).
  { apply executeNode_ok. }
  { apply nextNodes_targets. }
  { pose proof (size_targets edges).
    assert (unvisited st1 ≤ size targets) by (apply subseteq_size; set_solver).
    lia. }
  assert (∀ e, e ∈ rest → event_node e ≠ nodeId) as Hrest.
  { intros e He Hid. destruct (ext_nodes _ _ _ Hext e He) as [_ Hnot].
    apply Hnot. rewrite Hid. simpl. set_solver. }
  exists st', rest. split_and!; try done.
  - unfold enough_fuel. by rewrite (executeNode_disabled nodeId node).
  - rewrite (ext_history _ _ _ Hext). simpl. by rewrite <-!app_assoc.
  - rewrite (ext_results _ _ _ Hext); [done|].
    intros (e & He & Hid)%result_ids_node. by apply (Hrest e).
  - intros Hkey. split_and!.
    + apply (outputs_get_unwritten _ _ st1 st' rest Hext Hkey).
      * apply outputs_get_set.
      * destruct (decide (sanitize nodeId = "__proto__")); [by left|right].
        simpl. rewrite entries_outputs_set.
        rewrite bool_decide_eq_false_2, bool_decide_eq_true_2 by done. eauto.
    + intros Hp. rewrite (ext_outputs _ _ _ Hext) by done.
      simpl. rewrite entries_outputs_set.
      by rewrite bool_decide_eq_false_2, bool_decide_eq_true_2.
    + intros Hp. split.
      * rewrite (ext_prototype _ _ _ Hext) by by rewrite <-Hp.
        simpl. unfold outputs_set. by rewrite bool_decide_eq_true_2.
      * rewrite (ext_outputs _ _ _ Hext) by done.
        simpl. rewrite entries_outputs_set. by rewrite bool_decide_eq_true_2.
Qed.

(** C3 (amended). An action node whose step returns an object with
    [success === false]: the result assigned is a failure carrying the
    step's [error] (or the fallback text when that is falsy), an output
    with [data: undefined] is assigned under the sanitized id, and nothing
    else happens: no successor is visited. Ids [__proto__] aside, the two
    assignments leave the entries. *)
Theorem returned_failure_is_recorded nodeId node st (stepResult : value) (fuel : nat) :
  nodeId ∉ visited st →
  nodeMap nodes !! nodeId = Some node →
  node_enabled node ≠ Some false →
  node_type node = "action"%string →
  Boolean (prop "actionType" (config_of node)) = true →
  actionStep executionId node (prop "actionType" (config_of node)) (outputs st)
  = Normal stepResult →
  isErrorResult stepResult = true →
  let r := failure_result
             (js_or (js_get stepResult "error")
                (VStr ("Step "
                       +:+ quoted (String_ (prop "actionType" (config_of node)))
                       +:+ " failed"))) in
  let output := {| out_label := label_or node nodeId; out_data := VUndefined |} in
  ∃ st',
    visit (S fuel) nodeId st = Some st'
    ∧ st' = set_output nodeId output
              (set_result nodeId r (enter nodeId (mark_visited nodeId st)))
    ∧ (nodeId ≠ "__proto__" → results st' !! nodeId = Some r)
    ∧ outputs_get (outputs st') (sanitize nodeId) = output_value output
    ∧ (sanitize nodeId ≠ "__proto__" →
       entries (outputs st') !! sanitize nodeId = Some output)
    ∧ visited st' = {[nodeId]} ∪ visited st
    ∧ entered_ids (drop (length (history st)) (history st')) = [nodeId].
Proof.
  intros Hvis Hnode Hen Hty Hat Hstep Herr r output.
  eexists. split.
  { simpl. unfold executeNode_body.
    rewrite bool_decide_eq_false_2, Hnode, bool_decide_eq_false_2 by done.
    unfold run_node. rewrite Hty. simpl. rewrite Hat. simpl.
    rewrite Hstep. unfold action_result. rewrite Herr.
    unfold continues. simpl. done. }
  split_and!.
  - done.
  - intros Hp. apply (eq_trans (results_set_result nodeId r _)).
    by rewrite bool_decide_eq_false_2.
  - apply outputs_get_set.
  - intros Hp. simpl. rewrite entries_outputs_set.
    by rewrite bool_decide_eq_false_2, bool_decide_eq_true_2.
  - done.
  - simpl. rewrite <-!app_assoc, drop_app_length. done.
Qed.

End TraversalFacts.

(** ** Configurations *)

Section ConfigFacts.

Context `{Collaborators}.

(** [processTemplates] as one assignment per field. *)
Lemma processTemplates_fold (outputs : NodeOutputs) (config : obj) :
  processTemplates config outputs
  = foldl (λ processed kv, js_set kv.1 (resolved_field outputs kv.2) processed)
      [] config.
Proof.
  unfold processTemplates. generalize ([] : obj).
  induction config as [|[k v] config IH]; intros acc; [done|].
  simpl. rewrite <-IH. by destruct v.
Qed.

Lemma processTemplates_get (outputs : NodeOutputs) (k : string) (config : obj) :
  NoDup config.*1 →
  obj_get k (processTemplates config outputs)
  = if bool_decide (k = "__proto__") then None
    else resolved_field outputs <$> obj_get k config.
Proof.
  rewrite processTemplates_fold.
  assert (∀ acc, NoDup config.*1 → obj_get "__proto__" acc = None →
            obj_get k (foldl (λ processed kv,
                                js_set kv.1 (resolved_field outputs kv.2) processed)
                         acc config)
            = if bool_decide (k = "__proto__") then None
              else match obj_get k config with
                   | Some v => Some (resolved_field outputs v)
                   | None => obj_get k acc
                   end) as Hgen.
  { induction config as [|[k0 v0] config IH]; intros acc; simpl.
    { intros _ Hacc. case_bool_decide; [by subst|done]. }
    intros [Hk0 Hnd]%NoDup_cons Hacc.
    destruct (decide (k0 = "__proto__")) as [->|Hp].
    - rewrite js_set_proto by done. rewrite IH by done.
      case_bool_decide as Hk; [done|].
      by rewrite (bool_decide_eq_false_2 ("__proto__" = k)).
    - rewrite js_set_other by done. rewrite IH; [|done|].
      2: { by rewrite obj_get_set, bool_decide_eq_false_2. }
      case_bool_decide as Hk; [done|].
      case_bool_decide as Hk0'.
      + subst. rewrite obj_get_None by done.
        by rewrite obj_get_set, bool_decide_eq_true_2.
      + destruct (obj_get k config); [done|].
        by rewrite obj_get_set, bool_decide_eq_false_2. }
  intros Hnd. rewrite Hgen by done.
  case_bool_decide; [done|]. by destruct (obj_get k config).
Qed.

(** The step reads the condition as configured: [processTemplates] never
    sees it. *)
Lemma originalExpression_config (executionId : option string) (C : WorkflowNode)
    (outputs : NodeOutputs) :
  NoDup (config_of C).*1 →
  originalExpression executionId C outputs = prop "condition" (config_of C).
Proof.
  intros Hnd. unfold originalExpression, stepInput_of, prop.
  rewrite obj_get_set, bool_decide_eq_false_2 by done.
  unfold processedConfig_of.
  assert (obj_get "condition"
            (processTemplates (obj_set "condition" VUndefined (config_of C)) outputs)
          = Some VUndefined) as Hundef.
  { rewrite processTemplates_get by by apply obj_set_NoDup.
    rewrite bool_decide_eq_false_2 by done.
    by rewrite obj_get_set, bool_decide_eq_true_2. }
  unfold prop.
  destruct (default VUndefined (obj_get "condition" (config_of C))) eqn:E;
    rewrite ?obj_get_set, ?bool_decide_eq_true_2 by done; try done.
  by rewrite Hundef.
Qed.

End ConfigFacts.

(** ** Condition pruning on the chain Trigger → Condition → A *)

Section ConditionPruning.

Context `{Collaborators}.
Variables T C A : WorkflowNode.
Variable triggerInput : obj.
Variable executionId : option string.

Local Abbreviation t := (node_id T).
Local Abbreviation c := (node_id C).
Local Abbreviation a := (node_id A).
Local Abbreviation graph_nodes := [T; C; A].
Local Abbreviation graph_edges := [edge t c; edge c a].

Hypothesis t_c : t ≠ c.
Hypothesis t_a : t ≠ a.
Hypothesis c_a : c ≠ a.

Lemma chain_nodeMap :
  nodeMap graph_nodes = <[a := A]> (<[c := C]> (<[t := T]> ∅)).
Proof. reflexivity. Qed.

Local Ltac chain_lookup :=
  repeat first
    [ rewrite lookup_empty
    | rewrite lookup_insert_eq
    | rewrite lookup_insert_ne by congruence
    | progress simpl ].

Lemma chain_next_t : nextNodes_of graph_edges t = [c].
Proof. unfold nextNodes_of, edgesBySource. by chain_lookup. Qed.

Lemma chain_next_c : nextNodes_of graph_edges c = [a].
Proof. unfold nextNodes_of, edgesBySource. by chain_lookup. Qed.

Lemma chain_next_a : nextNodes_of graph_edges a = [].
Proof. unfold nextNodes_of, edgesBySource. by chain_lookup. Qed.

Lemma chain_triggers :
  node_type T = "trigger" → node_type C = "action" →
  triggerNodes graph_nodes graph_edges = [T].
Proof.
  intros HT HC. unfold triggerNodes, nodesWithIncoming. simpl.
  rewrite filter_cons_True.
  2: { split; [done|]. set_solver. }
  rewrite filter_cons_False.
  2: { rewrite HC. intros [? _]. done. }
  rewrite filter_cons_False.
  2: { intros [_ Hn]. apply Hn. set_solver. }
  done.
Qed.

Hypothesis T_trigger : node_type T = "trigger"%string.
Hypothesis C_action : node_type C = "action"%string.
Hypothesis C_condition : prop "actionType" (config_of C) = VStr "Condition".
Hypothesis C_enabled : node_enabled C ≠ Some false.
Hypothesis logging_transparent :
  ∀ input outcome, withStepLogging input outcome = outcome.

Local Abbreviation run_chain :=
  (executeNode graph_nodes graph_edges triggerInput executionId).

(** The walk up to the call on the Condition node: the trigger has run
    (or has been skipped) and nothing else has. *)
Lemma chain_trigger_step :
  ∃ stT,
    walks graph_nodes graph_edges triggerInput executionId [T] (tick initial_state)
    = run_chain 3 c stT
    ∧ visited stT = {[t]}
    ∧ outputs stT = outputs_after_trigger T triggerInput
    ∧ results stT !! c = None
    ∧ results stT !! a = None
    ∧ ∀ e, e ∈ history stT → event_node e = t.
Proof.
  set (st0 := fresh_walk (tick initial_state)).
  assert (∀ o : option RunState,
            match o with Some st' => Some st' | None => None end = o) as Hid
    by by intros [].
  unfold outputs_after_trigger.
  destruct (decide (node_enabled T = Some false)) as [Hdis|Hen].
  - rewrite bool_decide_eq_true_2 by done.
    eexists. split; [|split_and!].
    + unfold walks, enough_fuel. cbn [length].
      rewrite (executeNode_disabled _ _ _ _ t T st0) by
        (first [done | rewrite chain_nodeMap; by chain_lookup]).
      rewrite chain_next_t. cbn [for_each]. by rewrite !Hid.
    + simpl. set_solver.
    + done.
    + done.
    + done.
    + intros e. simpl. rewrite !elem_of_cons, elem_of_nil. by intros [->|[->|[]]].
  - rewrite bool_decide_eq_false_2 by done.
    eexists. split; [|split_and!].
    + unfold walks, enough_fuel. cbn [length].
      rewrite (executeNode_stored _ _ _ _ t T st0
                 (tick (enter t (mark_visited t st0)))
                 (success_result (VObj (triggerData T triggerInput (Date_now 1)))))
        by (first [done | rewrite chain_nodeMap; by chain_lookup
                  | by rewrite run_node_trigger]).
      cbv zeta. rewrite continues_trigger, chain_next_t by done.
      cbn [res_success success_result for_each]. by rewrite !Hid.
    + simpl. set_solver.
    + done.
    + subst st0. simpl. case_bool_decide; [done|by rewrite lookup_insert_ne].
    + subst st0. simpl. case_bool_decide; [done|by rewrite lookup_insert_ne].
    + intros e. simpl. rewrite !elem_of_cons, elem_of_nil.
      by intros [->|[->|[->|[]]]].
Qed.

(** C5 (amended). On the graph Trigger → Condition → A, with an enabled
    Condition action whose logging wrapper returns what the step returns:
    the run returns; the Condition step's verdict is the evaluator's result
    on the node's condition, read against the trigger's output; A is
    visited exactly when that result is [true]. When it is [false] A is
    never entered and nothing is written for it: [results] has no entry
    under its id, and [outputs] none under its sanitized id unless that is
    also the sanitized id of Trigger or Condition. When it is [true] A is
    entered; if it is enabled its step is run against the outputs of
    Trigger and Condition and the result is assigned (an entry of [results]
    unless the id is [__proto__]); if it is disabled the skip output is
    assigned. *)
Theorem condition_pruning :
  let skipped := {| out_label := label_or A a; out_data := VNull |} in
  ∃ st' ev,
    walks graph_nodes graph_edges triggerInput executionId
      (triggerNodes graph_nodes graph_edges) (tick initial_state) = Some st'
    ∧ evaluateConditionExpression
        (originalExpression executionId C (outputs_after_trigger T triggerInput))
        (outputs_after_trigger T triggerInput) = Normal ev
    ∧ (NoDup (config_of C).*1 →
       originalExpression executionId C (outputs_after_trigger T triggerInput)
       = prop "condition" (config_of C))
    ∧ (a ∈ visited st' ↔ result ev = true)
    ∧ (result ev = false →
       (∀ e, e ∈ history st' → event_node e ≠ a)
       ∧ results st' !! a = None
       ∧ (sanitize a ≠ sanitize t → sanitize a ≠ sanitize c →
          entries (outputs st') !! sanitize a = None))
    ∧ (result ev = true →
       Entered a ∈ history st'
       ∧ (node_enabled A ≠ Some false →
          ∃ stA,
            outputs stA
            = outputs_set (sanitize c)
                {| out_label := label_or C c;
                   out_data := VObj [("condition", VBool true)] |}
                (outputs_after_trigger T triggerInput)
            ∧ ResultWritten a
                (attempt_result (run_node triggerInput executionId a A stA).1)
              ∈ history st'
            ∧ (a ≠ "__proto__" →
               results st' !! a
               = Some (attempt_result
                         (run_node triggerInput executionId a A stA).1)))
       ∧ (node_enabled A = Some false →
          OutputWritten a (sanitize a) skipped ∈ history st'
          ∧ outputs_get (outputs st') (sanitize a) = output_value skipped
          ∧ (sanitize a ≠ "__proto__" →
             entries (outputs st') !! sanitize a = Some skipped))).
Proof.
  intros skipped.
  destruct (evaluateConditionExpression_normal
              (originalExpression executionId C (outputs_after_trigger T triggerInput))
              (outputs_after_trigger T triggerInput))
    as [ev Hev].
  rewrite chain_triggers by done.
  destruct chain_trigger_step as (stT & -> & HvT & HoT & HrTc & HrTa & HhT).
  set (rC := success_result (VObj [("condition", VBool (result ev))])).
  set (stC := set_output c {| out_label := label_or C c; out_data := res_data rC |}
                (set_result c rC (enter c (mark_visited c stT)))).
  assert (run_chain 3 c stT = if result ev then run_chain 2 a stC else Some stC) as ->.
  { rewrite (executeNode_stored _ _ _ _ c C stT (enter c (mark_visited c stT)) rC).
    - cbv zeta. rewrite chain_next_c.
      replace (continues C rC) with (result ev)
        by (symmetry; by apply continues_condition).
      destruct (result ev); [|done]. cbn [for_each].
      by destruct (run_chain 2 a _).
    - rewrite HvT. set_solver.
    - rewrite chain_nodeMap. by chain_lookup.
    - done.
    - apply run_node_condition; try done. simpl. by rewrite HoT. }
  assert (visited stC = {[c; t]}) as HvC by (simpl; rewrite HvT; set_solver).
  assert (∀ e, e ∈ history stC → event_node e ≠ a) as HhC.
  { intros e. simpl. rewrite !elem_of_app, !elem_of_cons, !elem_of_nil.
    intros [[[Hin|[->|[]]]|[->|[]]]|[->|[]]]; simpl; try congruence.
    rewrite (HhT e Hin). congruence. }
  destruct (result ev) eqn:Hres.
  - destruct (executeNode_last graph_nodes graph_edges triggerInput executionId
                a A stC 0) as (st' & rest & Hrun & Hv & Hh & _ & _ & HA & HA').
    { rewrite HvC. set_solver. }
    { rewrite chain_nodeMap. by chain_lookup. }
    { rewrite chain_next_a. by intros n ?%elem_of_nil. }
    exists st', ev.
    split_and!; [done|done|apply originalExpression_config| | |].
    + split; [done|]. intros _. rewrite Hv. set_solver.
    + intros ?; congruence.
    + intros _. split_and!; [rewrite Hh; set_solver| |].
      * intros Hen. destruct (HA Hen) as [Hin Hentry].
        exists (enter a (mark_visited a stC)). split_and!; [|rewrite Hh; set_solver|done].
        simpl. by rewrite HoT.
      * intros Hen. destruct (HA' Hen) as (-> & _ & Ho).
        split_and!; [rewrite Hh; set_solver| |].
        -- rewrite Ho. apply outputs_get_set.
        -- intros Hp. rewrite Ho, entries_outputs_set.
           by rewrite bool_decide_eq_false_2, bool_decide_eq_true_2.
  - exists stC, ev.
    split_and!; [done|done|apply originalExpression_config| | |intros ?; congruence].
    + split; [|intros ?; congruence]. rewrite HvC. set_solver.
    + intros _. split_and!; [done| |].
      * simpl. case_bool_decide; [done|by rewrite lookup_insert_ne].
      * intros Hat Hac. simpl. rewrite HoT. unfold outputs_after_trigger.
        rewrite !entries_outputs_set. simpl. rewrite lookup_empty.
        repeat case_bool_decide; congruence.
Qed.

End ConditionPruning.

(** ** The two-node cycle A → B → A *)

Section TwoCycle.

Context `{Collaborators}.
Variables A B : WorkflowNode.
Variable triggerInput : obj.
Variable executionId : option string.

Local Abbreviation a := (node_id A).
Local Abbreviation b := (node_id B).
Local Abbreviation cycle_nodes := [A; B].
Local Abbreviation cycle_edges := [edge a b; edge b a].

Hypothesis a_b : a ≠ b.

Local Ltac cycle_lookup :=
  repeat first
    [ rewrite lookup_empty
    | rewrite lookup_insert_eq
    | rewrite lookup_insert_ne by congruence
    | progress simpl ].

Lemma cycle_next_a : nextNodes_of cycle_edges a = [b].
Proof. unfold nextNodes_of, edgesBySource. by cycle_lookup. Qed.

Lemma cycle_next_b : nextNodes_of cycle_edges b = [a].
Proof. unfold nextNodes_of, edgesBySource. by cycle_lookup. Qed.

(** Seeded at A with nothing visited: A's own part, then B's when the walk
    proceeds; the edge back to A finds it visited. *)
Lemma two_cycle_walk :
  let stA := own_part triggerInput executionId a A initial_state in
  executeNode cycle_nodes cycle_edges triggerInput executionId
    (enough_fuel cycle_edges) a initial_state
  = Some (if proceeds triggerInput executionId a A initial_state
          then own_part triggerInput executionId b B stA else stA).
Proof.
  intros stA. unfold enough_fuel. cbn [length].
  rewrite (executeNode_own_part _ _ _ _ a A) by
    (first [set_solver | unfold nodeMap; by cycle_lookup]).
  destruct (proceeds _ _ a A _); [|done].
  rewrite cycle_next_a. cbn [for_each].
  pose proof (own_part_frame triggerInput executionId a A initial_state)
    as (HvA & _). fold stA in HvA |- *.
  rewrite (executeNode_own_part _ _ _ _ b B) by
    (first [rewrite HvA; set_solver | unfold nodeMap; by cycle_lookup]).
  destruct (proceeds _ _ b B _); [|done].
  rewrite cycle_next_b. cbn [for_each].
  pose proof (own_part_frame triggerInput executionId b B stA) as (HvB & _).
  cbn [executeNode]. unfold executeNode_body.
  rewrite bool_decide_eq_true_2; [done|].
  rewrite HvB, HvA. set_solver.
Qed.

End TwoCycle.

(** C7 (amended). Every walk returns, whatever the graph, and enters no
    node twice; the result does not depend on the fuel once it is enough.
    On the two-node cycle seeded at A with nothing visited, the walk is A's
    own part followed, exactly when A is disabled or its stored result lets
    the walk continue, by B's own part: A is entered once, B once or (when
    the walk stops at A) not at all, and each enabled node that is entered
    has its step attempted and its result assigned once: for an action
    node with an action type, what the action step returned, or the failure
    carrying what it threw. *)
Theorem cycle_termination `{Collaborators} (triggerInput : obj)
    (executionId : option string) :
  (∀ nodes edges nodeId st,
     ∃ st' new,
       executeNode nodes edges triggerInput executionId (enough_fuel edges) nodeId st
       = Some st'
       ∧ history st' = history st ++ new
       ∧ NoDup (entered_ids new)
       ∧ ∀ fuel, enough_fuel edges ≤ fuel →
           executeNode nodes edges triggerInput executionId fuel nodeId st = Some st')
  ∧ (∀ A B,
       node_id A ≠ node_id B →
       let a := node_id A in
       let b := node_id B in
       let stA := own_part triggerInput executionId a A initial_state in
       let goes_on := proceeds triggerInput executionId a A initial_state in
       let st' := if goes_on then own_part triggerInput executionId b B stA else stA in
       executeNode [A; B] [edge a b; edge b a] triggerInput executionId
         (enough_fuel [edge a b; edge b a]) a initial_state = Some st'
       ∧ entered_ids (history st') = (if goes_on then [a; b] else [a])
       ∧ result_ids (history st')
         = (if bool_decide (node_enabled A = Some false) then [] else [a])
           ++ (if goes_on && negb (bool_decide (node_enabled B = Some false))
               then [b] else [])
       ∧ (node_enabled A ≠ Some false →
          node_type A = "action"%string →
          Boolean (prop "actionType" (config_of A)) = true →
          results_written (history st') a
          = [match actionStep executionId A (prop "actionType" (config_of A)) ∅ with
             | Normal stepResult =>
                 action_result (prop "actionType" (config_of A)) stepResult
             | Abrupt message => failure_result (VStr message)
             end])
       ∧ (goes_on = true →
          node_enabled B ≠ Some false →
          node_type B = "action"%string →
          Boolean (prop "actionType" (config_of B)) = true →
          results_written (history st') b
          = [match actionStep executionId B (prop "actionType" (config_of B))
                   (outputs stA) with
             | Normal stepResult =>
                 action_result (prop "actionType" (config_of B)) stepResult
             | Abrupt message => failure_result (VStr message)
             end])).
Proof.
  split.
  - intros nodes edges nodeId st. apply walk_enters_once.
  - intros A B Hab a b stA goes_on st'.
    split; [by apply two_cycle_walk|].
    pose proof (own_part_frame triggerInput executionId a A initial_state)
      as (_ & HeA & HrA & HwA).
    pose proof (own_part_frame triggerInput executionId b B stA)
      as (_ & HeB & HrB & HwB).
    assert (results_written (history stA) b = []) as HwAb.
    { apply results_written_ids. fold stA in HrA. rewrite HrA.
      destruct (bool_decide (node_enabled A = Some false)); set_solver. }
    assert (results_written (history (own_part triggerInput executionId b B stA)) a
            = results_written (history stA) a) as HwBa.
    { unfold own_part. case_bool_decide.
      - simpl. by rewrite !results_written_snoc, !app_nil_r.
      - pose proof (run_node_frame triggerInput executionId b B
                      (enter b (mark_visited b stA))) as (_ & _ & _ & Hh).
        destruct (run_node _ _ b B _) as [[r|r|message] st0]; simpl in *;
          rewrite ?results_written_snoc, Hh, ?results_written_snoc; simpl;
          rewrite ?(bool_decide_eq_false_2 (b = a)) by done;
          by rewrite ?app_nil_r. }
    subst st'. fold stA in HeA, HrA, HwA. split_and!.
    + destruct goes_on; [by rewrite HeB, HeA|by rewrite HeA].
    + destruct goes_on; simpl.
      * rewrite HrB, HrA. simpl.
        by destruct (bool_decide (node_enabled B = Some false)).
      * rewrite HrA. simpl. by rewrite app_nil_r.
    + intros Hen Hty Hat.
      assert (results_written (history stA) a
              = [attempt_result
                   (run_node triggerInput executionId a A
                      (enter a (mark_visited a initial_state))).1]) as HwA'.
      { rewrite HwA. simpl. by rewrite bool_decide_eq_false_2. }
      rewrite run_node_action in HwA' by done.
      destruct goes_on; [by rewrite HwBa|done].
    + intros -> Hen Hty Hat.
      rewrite HwB, HwAb, bool_decide_eq_false_2 by done. simpl.
      by rewrite run_node_action.
Qed.

(** ** The trigger step *)

Section TriggerPayload.

Context `{Collaborators}.

(** C8 (amended). The payload is the base fields overridden by exactly one
    source: the live input when it is non-empty (a configured mock payload
    is then ignored); otherwise the parsed mock payload of a Webhook
    trigger; otherwise nothing. The keys [triggered] and [timestamp] are
    always present, with the base values unless the source overrides
    them. *)
Theorem trigger_payload (node : WorkflowNode) (triggerInput : obj) (now : float) :
  let mock := prop "webhookMockRequest" (config_of node) in
  let base := [("triggered", VBool true); ("timestamp", VNum now)] in
  let payload := triggerData node triggerInput now in
  (triggerInput ≠ [] → payload = obj_assign base triggerInput)
  ∧ (triggerInput = [] →
     prop "triggerType" (config_of node) = VStr "Webhook" →
     Boolean mock = true →
     ∀ mockData, JSON_parse mock = Normal mockData →
                 payload = obj_assign base (own_props mockData))
  ∧ (triggerInput = [] →
     prop "triggerType" (config_of node) ≠ VStr "Webhook"
     ∨ Boolean mock = false
     ∨ (∃ message, JSON_parse mock = Abrupt message) →
     payload = base)
  ∧ (∃ source, payload = obj_assign base source
               ∧ is_Some (obj_get "triggered" payload)
               ∧ is_Some (obj_get "timestamp" payload)
               ∧ ("triggered" ∉ source.*1 →
                  obj_get "triggered" payload = Some (VBool true))
               ∧ ("timestamp" ∉ source.*1 →
                  obj_get "timestamp" payload = Some (VNum now))).
Proof.
  cbv zeta. unfold triggerData.
  set (base := [("triggered", VBool true); ("timestamp", VNum now)]).
  split_and!.
  - intros Hne. destruct triggerInput as [|kv input]; [done|].
    rewrite (bool_decide_eq_false_2 (length (kv :: input) = 0)) by done.
    rewrite andb_false_r. by rewrite bool_decide_eq_true_2 by (simpl; lia).
  - intros -> Hty Hmock mockData Hparse.
    rewrite Hty, Hmock, Hparse. simpl. done.
  - intros -> Hcase.
    rewrite (bool_decide_eq_false_2 (0 < length [])) by (simpl; lia).
    destruct (_ && _ && _) eqn:Hcond; [|done].
    apply andb_prop in Hcond as [[Hty Hmock]%andb_prop _].
    destruct Hcase as [Hne|[Hf|[message Hparse]]].
    + destruct (prop "triggerType" (config_of node)) as [| | | |s| | |]; try done.
      apply bool_decide_eq_true in Hty. by subst.
    + congruence.
    + by rewrite Hparse.
  - assert (∀ source, ∃ source',
              obj_assign base source = obj_assign base source'
              ∧ is_Some (obj_get "triggered" (obj_assign base source))
              ∧ is_Some (obj_get "timestamp" (obj_assign base source))
              ∧ ("triggered" ∉ source'.*1 →
                 obj_get "triggered" (obj_assign base source) = Some (VBool true))
              ∧ ("timestamp" ∉ source'.*1 →
                 obj_get "timestamp" (obj_assign base source) = Some (VNum now)))
      as Hsrc.
    { intros source. exists source. split_and!; [done| | | |].
      - by apply obj_get_assign_is_Some.
      - by apply obj_get_assign_is_Some.
      - intros Hk. by rewrite obj_get_assign_absent.
      - intros Hk. by rewrite obj_get_assign_absent. }
    destruct (_ && _ && _).
    + destruct (JSON_parse _) as [mockData|message]; [apply Hsrc|apply (Hsrc [])].
    + case_bool_decide; [apply Hsrc|apply (Hsrc [])].
Qed.

End TriggerPayload.

(** ** Concrete runs *)

Local Ltac distinct := first [discriminate | by vm_compute].

(** C10, at [null] and at a non-zero number. *)
Lemma non_boolean_non_string_condition_witness :
  evaluateConditionExpression (H := strict) VNull ∅
  = Normal {| result := false; resolvedValues := [] |}
  ∧ evaluateConditionExpression (H := strict) (VNum 7%float) ∅
    = Normal {| result := true; resolvedValues := [] |}.
Proof.
  split.
  - apply (non_boolean_non_string_condition (H := strict) VNull ∅); discriminate.
  - apply (non_boolean_non_string_condition (H := strict) (VNum 7%float) ∅);
      discriminate.
Defined.

(** X28, at the reference [{{@missing:x}}] with no output recorded. *)
Lemma unknown_reference_safety_witness :
  process_string (H := lenient) ∅ (template_text "missing" "x")
  = template_text "missing" "x"
  ∧ processTemplates (H := lenient) [("url", VStr (template_text "missing" "x"))] ∅
    = js_set "url" (VStr (template_text "missing" "x")) []
  ∧ substituted ∅ (template_text "missing" "x")
    = ({| evalContext := []; varCounter := 0;
          resolved := js_set "x" VUndefined [] |},
       template_text "missing" "x")
  ∧ ∃ r, evaluateConditionExpression (H := lenient)
           (VStr (template_text "missing" "x")) ∅ = Normal r.
Proof.
  apply (unknown_reference_safety (H := lenient) ∅ "missing" "x" "url");
    first [discriminate | reflexivity].
Defined.

(** C4 fails at a reference to a node named like a property every object
    inherits: [outputs["constructor"]] is the function [Object], which is
    truthy and has no [data]. In a configuration string the reference is
    replaced by the empty string; in a condition it is replaced by a
    variable bound to [undefined]. With a name nothing is found under, the
    text stays as written. *)
Lemma inherited_reference_is_replaced :
  outputs_get ∅ (sanitize "constructor") = VNative (BuiltinFunction "Object")
  ∧ process_string (H := lenient) ∅ "{{@constructor:x}}" = ""
  ∧ processTemplates (H := lenient) [("url", VStr "{{@constructor:x}}")] ∅
    = [("url", VStr "")]
  ∧ substituted ∅ "{{@constructor:x}}"
    = ({| evalContext := [("__v0", VUndefined)]; varCounter := 1;
          resolved := [("x", VUndefined)] |}, "__v0")
  ∧ process_string (H := lenient) ∅ "{{@missing:x}}" = "{{@missing:x}}".
Proof. split_and!; vm_compute; reflexivity. Qed.

(** C1: an expression that passes pre-validation and fails
    post-substitution validation comes back with the resolved values, not
    with an empty map. *)
Lemma post_validation_failure_keeps_resolved_values :
  fails (H := strict) sample_outputs "{{@n1:x}} === foo"
  ∧ evaluateConditionExpression (H := strict) (VStr "{{@n1:x}} === foo") sample_outputs
    = Normal {| result := false; resolvedValues := [("x", VNum 1%float)] |}
  ∧ evaluateConditionExpression (H := strict) (VStr "{{@n1:x}} === foo") sample_outputs
    ≠ Normal {| result := false; resolvedValues := [] |}.
Proof.
  split_and!.
  - right. left. split; reflexivity.
  - vm_compute. reflexivity.
  - vm_compute. discriminate.
Qed.

Lemma condition_fail_closed_witness :
  fails (H := strict) sample_outputs "{{@n1:x}} === foo"
  ∧ ∃ r, evaluateConditionExpression (H := strict) (VStr "{{@n1:x}} === foo")
           sample_outputs = Normal r
         ∧ result r = false
         ∧ (fails_pre_validation (H := strict) "{{@n1:x}} === foo"
            ∨ fails_evaluation (H := strict) sample_outputs "{{@n1:x}} === foo" →
            resolvedValues r = [])
         ∧ (fails_post_validation (H := strict) sample_outputs "{{@n1:x}} === foo" →
            resolvedValues r
            = resolved (substituted sample_outputs "{{@n1:x}} === foo").1).
Proof.
  assert (fails (H := strict) sample_outputs "{{@n1:x}} === foo") as Hf.
  { right. left. split; reflexivity. }
  split; [exact Hf|].
  exact (condition_fail_closed (H := strict) sample_outputs "{{@n1:x}} === foo" Hf).
Defined.

(** C2: a node below two trigger nodes runs on both walks; the second walk
    replaces the result (and the output) the first one wrote. *)
Lemma second_walk_overwrites :
  ∃ st1 st2 r1 r2 o1 o2,
    executeNode (H := lenient) two_triggers_nodes two_triggers_edges [] None
      (enough_fuel two_triggers_edges) "T1" (fresh_walk (tick initial_state)) = Some st1
    ∧ executeNode (H := lenient) two_triggers_nodes two_triggers_edges [] None
        (enough_fuel two_triggers_edges) "T2" (fresh_walk st1) = Some st2
    ∧ walks (H := lenient) two_triggers_nodes two_triggers_edges [] None
        (triggerNodes two_triggers_nodes two_triggers_edges) (tick initial_state)
      = Some st2
    ∧ results st1 !! "A" = Some r1
    ∧ results st2 !! "A" = Some r2
    ∧ r1 ≠ r2
    ∧ entries (outputs st1) !! "A" = Some o1
    ∧ entries (outputs st2) !! "A" = Some o2
    ∧ o1 ≠ o2
    ∧ result_ids (history st2) = ["T1"; "A"; "T2"; "A"]
    ∧ output_ids (history st2) = ["T1"; "A"; "T2"; "A"].
Proof.
  do 6 eexists. split_and!; try (vm_compute; reflexivity); discriminate.
Qed.

(** C3: a step that returns [{success: false, error}] leaves an output
    entry behind (with [data: undefined]) where there was none. *)
Lemma returned_failure_stores_output :
  ∃ st',
    executeNode (H := failing) failing_nodes failing_edges [] None
      (enough_fuel failing_edges) "A" initial_state = Some st'
    ∧ results st' !! "A" = Some (failure_result (VStr "HTTP 500"))
    ∧ entries (outputs initial_state) !! sanitize "A" = None
    ∧ entries (outputs st') !! sanitize "A"
      = Some {| out_label := "A"; out_data := VUndefined |}
    ∧ entered_ids (history st') = ["A"].
Proof. eexists. split_and!; vm_compute; reflexivity. Qed.

Lemma returned_failure_is_recorded_witness :
  ∃ st',
    executeNode (H := failing) failing_nodes failing_edges [] None 3 "A" initial_state
    = Some st'
    ∧ results st' !! "A" = Some (failure_result (VStr "HTTP 500"))
    ∧ outputs_get (outputs st') (sanitize "A")
      = output_value {| out_label := "A"; out_data := VUndefined |}
    ∧ entries (outputs st') !! sanitize "A"
      = Some {| out_label := "A"; out_data := VUndefined |}
    ∧ visited st' = {["A"]} ∪ ∅
    ∧ entered_ids (drop 0 (history st')) = ["A"].
Proof.
  destruct (returned_failure_is_recorded (H := failing) failing_nodes failing_edges
              [] None "A" (action_node "A" "HTTP Request") initial_state
              (VObj [("success", VBool false); ("error", VStr "HTTP 500")]) 2)
    as (st' & Hrun & _ & Hres & Hget & Hentry & Hvis & Hids);
    try first [ apply not_elem_of_empty | discriminate | reflexivity ].
  exists st'. split_and!.
  - exact Hrun.
  - apply Hres. distinct.
  - exact Hget.
  - apply Hentry. distinct.
  - exact Hvis.
  - exact Hids.
Defined.

(** C5: a node that is pruned and whose sanitized id is also that of the
    trigger: nothing is written for it, yet [outputs] has an entry under
    its sanitized id. *)
Lemma pruned_node_shares_an_output_key :
  ∃ st',
    walks (H := lenient) collision_nodes collision_edges [] None
      (triggerNodes collision_nodes collision_edges) (tick initial_state) = Some st'
    ∧ entered_ids (history st') = ["a-b"; "C"]
    ∧ result_ids (history st') = ["a-b"; "C"]
    ∧ output_ids (history st') = ["a-b"; "C"]
    ∧ results st' !! "a_b" = None
    ∧ sanitize "a_b" = "a_b"
    ∧ entries (outputs st') !! sanitize "a_b" ≠ None.
Proof.
  eexists. split_and!; try (vm_compute; reflexivity). vm_compute. discriminate.
Qed.

(** C5, at a condition that is [false] and at one that is [true]. *)
Lemma condition_pruning_witness :
  (∃ st',
     walks (H := lenient) (chain_nodes (VBool false)) chain_edges [] None
       (triggerNodes (chain_nodes (VBool false)) chain_edges) (tick initial_state)
     = Some st'
     ∧ ("A" ∉ visited st')
     ∧ (∀ e, e ∈ history st' → event_node e ≠ "A")
     ∧ results st' !! "A" = None
     ∧ entries (outputs st') !! sanitize "A" = None)
  ∧ (∃ st' stA,
       walks (H := lenient) (chain_nodes (VBool true)) chain_edges [] None
         (triggerNodes (chain_nodes (VBool true)) chain_edges) (tick initial_state)
       = Some st'
       ∧ "A" ∈ visited st'
       ∧ Entered "A" ∈ history st'
       ∧ ResultWritten "A"
           (attempt_result
              (run_node (H := lenient) [] None "A"
                 (action_node "A" "HTTP Request") stA).1) ∈ history st'
       ∧ results st' !! "A"
         = Some (attempt_result
                   (run_node (H := lenient) [] None "A"
                      (action_node "A" "HTTP Request") stA).1)).
Proof.
  split.
  - destruct (condition_pruning (H := lenient) (trigger_node "T")
                (condition_node "C" (VBool false)) (action_node "A" "HTTP Request")
                [] None)
      as (st' & ev & Hwalk & Hev & _ & Hiff & Hfalse & _);
      try first [discriminate | reflexivity].
    vm_compute in Hev. injection Hev as <-.
    destruct Hfalse as (Hh & Hr & Ho); [done|].
    exists st'. split_and!; [exact Hwalk| |exact Hh|exact Hr|apply Ho; distinct].
    intros Hin. by apply Hiff in Hin.
  - destruct (condition_pruning (H := lenient) (trigger_node "T")
                (condition_node "C" (VBool true)) (action_node "A" "HTTP Request")
                [] None)
      as (st' & ev & Hwalk & Hev & _ & Hiff & _ & Htrue);
      try first [discriminate | reflexivity].
    vm_compute in Hev. injection Hev as <-.
    destruct Htrue as (He & Hen & _); [done|].
    destruct Hen as (stA & _ & Hin & Hr); [discriminate|].
    exists st', stA.
    split_and!; [exact Hwalk|by apply Hiff|exact He|exact Hin|apply Hr; distinct].
Defined.

(** C6: a failure recorded for a node on the first walk is replaced by the
    success the second walk records for it; the run reports success. *)
Lemma overwritten_failure_is_forgotten :
  ∃ st ret r,
    walks (H := picky) two_triggers_nodes two_triggers_edges [] None
      (triggerNodes two_triggers_nodes two_triggers_edges) (tick initial_state)
    = Some st
    ∧ executeWorkflow (H := picky) two_triggers_nodes two_triggers_edges [] None
      = Some ret
    ∧ results_written (history st) "A" = [failure_result (VStr "unresolved url"); r]
    ∧ res_success (failure_result (VStr "unresolved url")) = false
    ∧ res_success r = true
    ∧ ret_results ret !! "A" = Some r
    ∧ ret_success ret = true.
Proof. do 3 eexists. split_and!; vm_compute; reflexivity. Qed.

(** C7: on the cycle A → B → A with an HTTP step that reports a failure,
    the walk stops at A and B is never entered. *)
Lemma failed_step_stops_the_cycle :
  ∃ st',
    executeNode (H := failing) [cycle_A; cycle_B] [edge "A" "B"; edge "B" "A"] [] None
      (enough_fuel [edge "A" "B"; edge "B" "A"]) "A" initial_state = Some st'
    ∧ entered_ids (history st') = ["A"]
    ∧ result_ids (history st') = ["A"]
    ∧ results st' !! "B" = None.
Proof. eexists. split_and!; vm_compute; reflexivity. Qed.

(** C7, on the cycle A → B → A with steps that succeed. *)
Lemma cycle_termination_witness :
  ∃ st',
    executeNode (H := lenient) [cycle_A; cycle_B] [edge "A" "B"; edge "B" "A"] [] None
      (enough_fuel [edge "A" "B"; edge "B" "A"]) "A" initial_state = Some st'
    ∧ entered_ids (history st') = ["A"; "B"]
    ∧ result_ids (history st') = ["A"; "B"].
Proof.
  destruct (proj2 (cycle_termination (H := lenient) [] None) cycle_A cycle_B)
    as (Hrun & He & Hr & _); [discriminate|].
  eexists. split_and!; [exact Hrun|exact He|exact Hr].
Defined.

(** C8: with a live input the configured mock payload does not reach the
    payload, and a live field named [triggered] replaces the base one. *)
Lemma live_input_ignores_mock_payload :
  JSON_parse (Collaborators := lenient) (VStr mock_text)
  = Normal (VObj [("a", VNum 1%float)])
  ∧ triggerData (H := lenient) (webhook_node "T") [("b", VNum 2%float)] 7%float
    = [("triggered", VBool true); ("timestamp", VNum 7%float); ("b", VNum 2%float)]
  ∧ obj_get "a" (triggerData (H := lenient) (webhook_node "T")
                   [("b", VNum 2%float)] 7%float) = None
  ∧ obj_get "triggered" (triggerData (H := lenient) (trigger_node "T")
                           [("triggered", VBool false)] 7%float)
    = Some (VBool false).
Proof. split_and!; vm_compute; reflexivity. Qed.

Lemma trigger_payload_witness :
  triggerData (H := lenient) (webhook_node "T") [] 7%float
  = obj_assign [("triggered", VBool true); ("timestamp", VNum 7%float)]
      (own_props (VObj [("a", VNum 1%float)]))
  ∧ triggerData (H := lenient) (webhook_node "T") [("b", VNum 2%float)] 7%float
    = obj_assign [("triggered", VBool true); ("timestamp", VNum 7%float)]
        [("b", VNum 2%float)].
Proof.
  pose proof (trigger_payload (H := lenient) (webhook_node "T") [] 7%float)
    as (_ & Hmock & _).
  pose proof (trigger_payload (H := lenient) (webhook_node "T")
                [("b", VNum 2%float)] 7%float) as (Hlive & _).
  split.
  - apply Hmock; reflexivity.
  - apply Hlive. discriminate.
Defined.

(** C9 fails at a disabled node whose id is [__proto__]: the assignment
    [outputs["__proto__"] = {label, data: null}] makes the object the
    prototype of [outputs] and creates no entry, so the outputs the run
    returns have nothing under the node's sanitized id. A disabled node
    with the id [D] gets its entry. *)
Lemma disabled_proto_node_has_no_output_entry :
  ∃ st ret,
    walks (H := lenient) [disabled_trigger "__proto__"] [] [] None
      (triggerNodes [disabled_trigger "__proto__"] []) (tick initial_state) = Some st
    ∧ executeWorkflow (H := lenient) [disabled_trigger "__proto__"] [] [] None
      = Some ret
    ∧ sanitize "__proto__" = "__proto__"
    ∧ output_ids (history st) = ["__proto__"]
    ∧ prototype (outputs st) = Some {| out_label := "Skipped"; out_data := VNull |}
    ∧ entries (outputs st) !! sanitize "__proto__" = None
    ∧ ret_outputs ret !! sanitize "__proto__" = None
    ∧ ∃ ret',
        executeWorkflow (H := lenient) [disabled_trigger "D"] [] [] None = Some ret'
        ∧ ret_outputs ret' !! sanitize "D"
          = Some {| out_label := "Skipped"; out_data := VNull |}.
Proof.
  do 2 eexists. split_and!; try (vm_compute; reflexivity).
  eexists. split; vm_compute; reflexivity.
Qed.

(** X29, at a disabled node with two successors. *)
Lemma disabled_node_pass_through_witness :
  ∃ st',
    executeNode (H := lenient) skip_nodes skip_edges [] None
      (enough_fuel skip_edges) "D" initial_state = Some st'
    ∧ outputs_get (outputs st') (sanitize "D")
      = output_value {| out_label := "Skipped"; out_data := VNull |}
    ∧ entries (outputs st') !! sanitize "D"
      = Some {| out_label := "Skipped"; out_data := VNull |}
    ∧ results st' !! "D" = None
    ∧ "X" ∈ visited st' ∧ "Y" ∈ visited st'.
Proof.
  destruct (disabled_node_pass_through (H := lenient) skip_nodes skip_edges [] None
              "D" (disabled_node "D") initial_state)
    as (st' & rest & Hrun & _ & Hh & _ & Hres & Hout & Hnext);
    try first [apply not_elem_of_empty | reflexivity].
  destruct Hout as (Hget & Hentry & _).
  { vm_compute in Hrun. injection Hrun as <-.
    vm_compute in Hh. injection Hh as <-. compute_done. }
  exists st'. split_and!.
  - exact Hrun.
  - exact Hget.
  - apply Hentry. distinct.
  - rewrite Hres. reflexivity.
  - apply Hnext. compute_done.
  - apply Hnext. compute_done.
Defined.
(** * Further properties *)

(** ** Sanitized ids *)

Lemma is_alnum_underscore : is_alnum "_" = false.
Proof. reflexivity. Qed.

(** X1. Sanitizing an id ([nodeId.replace(/[^a-zA-Z0-9]/g, "_")]) is
    idempotent and keeps the length; the result holds only letters, digits
    and underscores; an id made of letters and digits is left as it is. *)
Theorem sanitize_shape (s : string) :
  sanitize (sanitize s) = sanitize s
  ∧ String.length (sanitize s) = String.length s
  ∧ (∀ c, occurs c (sanitize s) = true → is_alnum c = true ∨ c = "_"%char)
  ∧ ((∀ c, occurs c s = true → is_alnum c = true) → sanitize s = s).
Proof.
  induction s as [|c s (IH1 & IH2 & IH3 & IH4)]; [by repeat split|].
  split_and!; simpl.
  - destruct (is_alnum c) eqn:E.
    + by rewrite E, IH1.
    + by rewrite is_alnum_underscore, IH1.
  - by rewrite IH2.
  - intros x [Hx|Hx]%orb_true_iff; [|by apply IH3].
    apply bool_decide_eq_true in Hx as <-.
    destruct (is_alnum c) eqn:E; [by left|by right].
  - intros Hall. rewrite (Hall c), IH4.
    + done.
    + intros x Hx. apply Hall. simpl. rewrite Hx. apply orb_true_r.
    + simpl. by rewrite bool_decide_eq_true_2.
Qed.

(** ** The template pattern *)

Lemma span_not_cons (stop c : ascii) (s : string) :
  span_not stop (String c s)
  = if bool_decide (c = stop) then ("", String c s)
    else (String c (span_not stop s).1, (span_not stop s).2).
Proof.
  change (span_not stop (String c s))
    with (if bool_decide (c = stop) then (EmptyString, String c s)
          else let '(p, r) := span_not stop s in (String c p, r)).
  by destruct (span_not stop s).
Qed.

Lemma span_not_spec (stop : ascii) (s p r : string) :
  span_not stop s = (p, r) →
  occurs stop p = false ∧ s = p +:+ r.
Proof.
  revert p r. induction s as [|c s IH]; intros p r.
  - by intros [= <- <-].
  - rewrite span_not_cons. case_bool_decide as Hc.
    + by intros [= <- <-].
    + destruct (span_not stop s) as [p' r'] eqn:E. intros [= <- <-].
      destruct (IH _ _ eq_refl) as [Hocc ->]. simpl.
      by rewrite bool_decide_eq_false_2, Hocc.
Qed.

(** X2. The template pattern at one position: [match_template s] finds
    [m] exactly when [s] starts with [{{@nodeId:rest}}] for a non-empty
    [nodeId] without colon and a non-empty [rest] without closing brace, [m]
    recording that text, the two groups and what follows it. *)
Theorem match_template_iff (s : string) (m : template_match) :
  match_template s = Some m
  ↔ m_nodeId m ≠ "" ∧ occurs ":" (m_nodeId m) = false
    ∧ m_rest m ≠ "" ∧ occurs "}" (m_rest m) = false
    ∧ m_text m = template_text (m_nodeId m) (m_rest m)
    ∧ s = m_text m +:+ m_after m.
Proof.
  split.
  - intros Hm. destruct (match_template_sound s m Hm) as [Hs Ht].
    unfold match_template in Hm.
    destruct (strip_prefix "{{@" s) as [s1|] eqn:E1; simpl in Hm; [|done].
    destruct (span_not ":" s1) as [nodeId s2] eqn:E2.
    case_bool_decide; [done|].
    destruct (strip_prefix ":" s2) as [s3|] eqn:E3; simpl in Hm; [|done].
    destruct (span_not "}" s3) as [rest s4] eqn:E4.
    case_bool_decide; [done|].
    destruct (strip_prefix "}}" s4) as [s5|] eqn:E5; simpl in Hm; [|done].
    injection Hm as <-. simpl in *.
    apply span_not_spec in E2 as [? _], E4 as [? _]. done.
  - intros (Hn & Hn' & Hr & Hr' & Ht & ->). rewrite Ht.
    rewrite match_template_complete by done. f_equal.
    destruct m. simpl in *. by subst.
Qed.

Lemma match_template_no_brace (c : ascii) (s : string) :
  c ≠ "{"%char → match_template (String c s) = None.
Proof.
  intros Hc. unfold match_template.
  change (strip_prefix "{{@" (String c s))
    with (if bool_decide ("{"%char = c) then strip_prefix "{@" s else None).
  by rewrite bool_decide_eq_false_2 by congruence.
Qed.

Lemma replace_from_no_brace {St : Type}
    (cb : template_match → St → St * string) (s : string) (st : St) :
  occurs "{" s = false → replace_from cb 0 s st = (st, s).
Proof.
  induction s as [|c s IH]; simpl; [done|].
  intros [Hc Hs]%orb_false_elim. apply bool_decide_eq_false in Hc.
  rewrite match_template_no_brace by done. by rewrite IH.
Qed.

(** ** Strings without references *)

Lemma untemplated_tail (c : ascii) (s : string) :
  untemplated (String c s) → untemplated s.
Proof. intros Hs n. apply (Hs (S n)). Qed.

Lemma replace_from_untemplated {St : Type}
    (cb : template_match → St → St * string) (s : string) (st : St) :
  untemplated s → replace_from cb 0 s st = (st, s).
Proof.
  induction s as [|c s IH]; intros Hs; [done|].
  cbn [replace_from]. pose proof (Hs 0) as H0. cbn [drop_string] in H0.
  rewrite H0, IH; [done|].
  by apply untemplated_tail with c.
Qed.

Lemma no_brace_untemplated (s : string) : occurs "{" s = false → untemplated s.
Proof.
  intros Hs n. revert s Hs. induction n as [|n IH]; intros [|c s] Hs; try done.
  - simpl in Hs. apply orb_false_elim in Hs as [Hc _].
    apply bool_decide_eq_false in Hc. by apply match_template_no_brace.
  - simpl in Hs. apply orb_false_elim in Hs as [_ Hs]. by apply IH.
Qed.

Section ResolverFacts.

Context `{Collaborators}.

Implicit Types (outputs : NodeOutputs) (s : string) (v : value).

(** X3. A string in which no position starts a template reference goes
    through both resolvers untouched: [processTemplates] assigns the string
    as written under its key (which creates the field unless the key is
    [__proto__], where assigning a string does nothing), and the
    substitution of [evaluateConditionExpression] returns the text as
    written, with an empty evaluation context, no resolved value and the
    counter at 0. *)
Theorem untemplated_string_unchanged outputs s (key : string) :
  untemplated s →
  process_string outputs s = s
  ∧ processTemplates [(key, VStr s)] outputs
    = (if bool_decide (key = "__proto__") then [] else [(key, VStr s)])
  ∧ substituted outputs s = (subst_init, s).
Proof.
  intros Hs.
  assert (process_string outputs s = s) as Hp.
  { unfold process_string, replace_templates.
    by rewrite replace_from_untemplated. }
  split_and!; [done| |].
  - unfold processTemplates. simpl. rewrite Hp.
    case_bool_decide as Hk; [subst; by rewrite js_set_proto|].
    by rewrite js_set_other.
  - unfold substituted, replace_templates. by rewrite replace_from_untemplated.
Qed.

(** *** Field paths *)

Lemma navigate_value_app (p q : list string) v :
  navigate_value (p ++ q) v = navigate_value q (navigate_value p v).
Proof.
  revert v. induction p as [|f p IH]; intros v; simpl; [done|].
  destruct (is_object v) eqn:E; [apply IH|].
  destruct q as [|g q]; simpl; [done|]. by rewrite E.
Qed.

Lemma navigate_string_app (p q : list string) v :
  navigate_string (p ++ q) v = navigate_string p v ≫= navigate_string q.
Proof.
  revert v. induction p as [|f p IH]; intros v; simpl; [done|].
  destruct (is_object v); [apply IH|done].
Qed.

(** Where the string callback finds a value, the condition callback
    finds the same one. *)
Lemma navigate_string_Some (fields : list string) v current :
  navigate_string fields v = Some current → navigate_value fields v = current.
Proof.
  revert v. induction fields as [|f fields IH]; intros v; simpl.
  - by intros [= ->].
  - destruct (is_object v); [apply IH|done].
Qed.

(** Where the string callback gives up, the condition callback is left
    with the value it could not enter. *)
Lemma navigate_string_None (fields : list string) v :
  navigate_string fields v = None →
  is_object (navigate_value fields v) = false
  ∧ ∃ p q, fields = p ++ q ∧ q ≠ []
           ∧ navigate_string p v = Some (navigate_value fields v).
Proof.
  revert v. induction fields as [|f fields IH]; intros v; simpl; [done|].
  destruct (is_object v) eqn:E.
  - intros Hn. destruct (IH _ Hn) as (Hobj & p & q & -> & Hq & Hp).
    split; [done|]. exists (f :: p), q. split_and!; [done|done|].
    simpl. by rewrite E.
  - intros _. split; [done|]. by exists [], (f :: fields).
Qed.

(** X4. The field loops of the two resolvers. Both can be run in two
    parts; where the loop of [processTemplates] reaches a value, the loop of
    [replaceTemplateVariable] reaches the same value; where the former
    gives up (a non-object met with fields left), the latter ends on that
    non-object, which is what a prefix of the path leads to. *)
Theorem navigation_contexts (fields : list string) v :
  (∀ p q, fields = p ++ q →
          navigate_value fields v = navigate_value q (navigate_value p v)
          ∧ navigate_string fields v = navigate_string p v ≫= navigate_string q)
  ∧ (∀ current, navigate_string fields v = Some current →
                navigate_value fields v = current)
  ∧ (navigate_string fields v = None →
     is_object (navigate_value fields v) = false
     ∧ ∃ p q, fields = p ++ q ∧ q ≠ []
              ∧ navigate_string p v = Some (navigate_value fields v)).
Proof.
  split_and!.
  - intros p q ->. split; [apply navigate_value_app|apply navigate_string_app].
  - apply navigate_string_Some.
  - apply navigate_string_None.
Qed.

(** *** References to recorded outputs *)

Lemma after_first_dot_label (label path : string) :
  occurs "." label = false →
  after_first_dot (label +:+ "." +:+ path) = Some path.
Proof.
  induction label as [|c label IH]; simpl; [done|].
  intros [Hc Hl]%orb_false_elim. apply bool_decide_eq_false in Hc.
  rewrite bool_decide_eq_false_2 by done. by apply IH.
Qed.

(** X5. The text between the colon and the first dot of a reference is
    not looked at: two references to the same node that differ only there
    resolve alike, in a configuration string and in a condition. *)
Theorem first_segment_ignored outputs (m1 m2 : template_match)
    (label1 label2 path : string) (st : subst_state) :
  occurs "." label1 = false → occurs "." label2 = false →
  m_nodeId m1 = m_nodeId m2 →
  m_rest m1 = label1 +:+ "." +:+ path →
  m_rest m2 = label2 +:+ "." +:+ path →
  is_Some (outputs !! sanitize (m_nodeId m1)) →
  resolve_in_string outputs m1 = resolve_in_string outputs m2
  ∧ replaceTemplateVariable m1 outputs st = replaceTemplateVariable m2 outputs st.
Proof.
  intros Hl1 Hl2 Hid Hr1 Hr2 [output Hout].
  assert (Boolean (outputs_get outputs (sanitize (m_nodeId m1))) = true) as HB.
  { unfold outputs_get. case_bool_decide; [by destruct (prototype outputs)|].
    unfold lookup, NodeOutputs_lookup in Hout. by rewrite Hout. }
  unfold resolve_in_string, replaceTemplateVariable. cbv zeta.
  rewrite <-Hid, HB, Hr1, Hr2, !after_first_dot_label by done. done.
Qed.

(** The generated names are not inherited, and none is [__proto__]. *)
Lemma var_name_own (n : nat) :
  var_name n ≠ "__proto__" ∧ Object_prototype_get (var_name n) = None.
Proof.
  unfold var_name. simpl. split; [discriminate|].
  unfold Object_prototype_get.
  rewrite !bool_decide_eq_false_2; [done|other_string|other_string].
Qed.

Lemma js_set_var_name (n : nat) (v : value) (o : obj) :
  js_set ("__v" +:+ pretty n) v o = obj_set (var_name n) v o.
Proof. apply js_set_other, var_name_own. Qed.

Lemma js_get_var_name (n : nat) (o : obj) :
  js_get (VObj o) ("__v" +:+ pretty n) = default VUndefined (obj_get (var_name n) o).
Proof. apply js_get_own; apply var_name_own. Qed.

Lemma after_first_dot_Some (rest path : string) :
  after_first_dot rest = Some path → rest ≠ "__proto__".
Proof. intros Hdot ->. vm_compute in Hdot. discriminate. Qed.

(** X6. Write, then read. After [outputs[sanitizedNodeId] = output], a
    reference [{{@nodeId:rest}}] without a dot resolves to the rendered
    [output.data] in a configuration string and binds [__v0] to
    [output.data] in a condition, where it is also assigned to
    [resolvedValues[rest]] (which creates an entry unless [rest] is
    [__proto__]); with a path that can be followed in non-nullish data,
    the same holds for the value the path leads to. *)
Theorem reference_round_trip (nodeId rest : string) (output : NodeOutput)
    (st : RunState) :
  nodeId ≠ "" → occurs ":" nodeId = false →
  rest ≠ "" → occurs "}" rest = false →
  let recorded := outputs (set_output nodeId output st) in
  (after_first_dot rest = None →
   process_string recorded (template_text nodeId rest) = render (out_data output)
   ∧ substituted recorded (template_text nodeId rest)
     = ({| evalContext := [("__v0", out_data output)]; varCounter := 1;
           resolved := js_set rest (out_data output) [] |}, "__v0")
   ∧ (rest ≠ "__proto__" →
      js_set rest (out_data output) [] = [(rest, out_data output)]))
  ∧ (∀ path current,
       after_first_dot rest = Some path →
       is_nullish (out_data output) = false →
       navigate_string (split_dots path) (out_data output) = Some current →
       process_string recorded (template_text nodeId rest) = render current
       ∧ substituted recorded (template_text nodeId rest)
         = ({| evalContext := [("__v0", current)]; varCounter := 1;
               resolved := [(rest, current)] |}, "__v0")).
Proof.
  intros Hn Hn' Hr Hr'. cbv zeta.
  assert (outputs_get (outputs (set_output nodeId output st)) (sanitize nodeId)
          = output_value output) as Hout by apply outputs_get_set.
  set (recorded := outputs (set_output nodeId output st)) in *. clearbody recorded.
  split.
  - intros Hdot. split_and!.
    + unfold process_string. rewrite replace_templates_single by done.
      cbn [snd]. unfold resolve_in_string. cbn [m_nodeId m_rest]. cbv zeta.
      by rewrite Hout, Hdot.
    + unfold substituted. rewrite replace_templates_single by done.
      unfold substitute, replaceTemplateVariable. cbn [m_nodeId m_rest]. cbv zeta.
      rewrite Hout, Hdot. reflexivity.
    + intros Hp. by rewrite js_set_other.
  - intros path current Hdot Hnull Hnav.
    pose proof (after_first_dot_Some _ _ Hdot) as Hp. split.
    + unfold process_string. rewrite replace_templates_single by done.
      cbn [snd]. unfold resolve_in_string. cbn [m_nodeId m_rest]. cbv zeta.
      rewrite Hout, Hdot. cbn [Boolean output_value negb].
      rewrite js_get_output_data. by rewrite Hnull, Hnav.
    + unfold substituted. rewrite replace_templates_single by done.
      unfold substitute, replaceTemplateVariable. cbn [m_nodeId m_rest]. cbv zeta.
      rewrite Hout, Hdot. cbn [Boolean output_value negb].
      rewrite js_get_output_data, Hnull.
      rewrite (navigate_string_Some _ _ current Hnav).
      rewrite (js_set_other rest) by done. by destruct current.
Qed.

(** X7. A path that cannot be followed to its end (a non-object met with
    fields left), in the data of what [outputs[sanitizedNodeId]] reads as:
    in a configuration string the reference becomes the empty string; in a
    condition the variable is bound to the non-object value the path
    stopped at. *)
Theorem broken_path_contexts outputs (m : template_match) (output : NodeOutput)
    (path : string) (st : subst_state) :
  outputs_get outputs (sanitize (m_nodeId m)) = output_value output →
  after_first_dot (m_rest m) = Some path →
  is_nullish (out_data output) = false →
  navigate_string (split_dots path) (out_data output) = None →
  let stopped := navigate_value (split_dots path) (out_data output) in
  resolve_in_string outputs m = ""
  ∧ is_object stopped = false
  ∧ replaceTemplateVariable m outputs st
    = ({| evalContext := obj_set (var_name (varCounter st)) stopped (evalContext st);
          varCounter := S (varCounter st);
          resolved := resolved st |}, var_name (varCounter st)).
Proof.
  intros Hout Hdot Hnull Hnav. cbv zeta.
  destruct (navigate_string_None _ _ Hnav) as [Hobj _].
  unfold resolve_in_string, replaceTemplateVariable. cbv zeta.
  rewrite Hout, Hdot. cbn [Boolean output_value negb].
  rewrite js_get_output_data, Hnull, Hnav. split_and!; [done|done|].
  rewrite js_set_var_name. by destruct (navigate_value _ _).
Qed.

End ResolverFacts.

(** ** Substitution *)

Lemma replace_from_invariant {St : Type} (I : St → Prop)
    (cb : template_match → St → St * string) :
  (∀ m st, I st → I (cb m st).1) →
  ∀ s k st, I st → I (replace_from cb k s st).1.
Proof.
  intros Hcb. induction s as [|c s IH]; intros k st Hst; [done|].
  cbn [replace_from]. destruct k as [|k]; [|by apply IH].
  destruct (match_template (String c s)) as [m|].
  - pose proof (Hcb m st Hst) as H1. destruct (cb m st) as [st1 r].
    pose proof (IH (String.length (m_text m) - 1) st1 H1) as H2.
    by destruct (replace_from cb _ s st1).
  - pose proof (IH 0 st Hst) as H2. by destruct (replace_from cb 0 s st).
Qed.

Lemma replace_from_related {St1 St2 : Type} (R : St1 → St2 → Prop)
    (cb1 : template_match → St1 → St1 * string)
    (cb2 : template_match → St2 → St2 * string) :
  (∀ m st1 st2, R st1 st2 →
                R (cb1 m st1).1 (cb2 m st2).1 ∧ (cb1 m st1).2 = (cb2 m st2).2) →
  ∀ s k st1 st2, R st1 st2 →
    R (replace_from cb1 k s st1).1 (replace_from cb2 k s st2).1
    ∧ (replace_from cb1 k s st1).2 = (replace_from cb2 k s st2).2.
Proof.
  intros Hcb. induction s as [|c s IH]; intros k st1 st2 HR; [done|].
  cbn [replace_from]. destruct k as [|k]; [|by apply IH].
  destruct (match_template (String c s)) as [m|].
  - destruct (Hcb m st1 st2 HR) as [H1 Ht].
    destruct (cb1 m st1) as [st1' r1], (cb2 m st2) as [st2' r2]. simpl in H1, Ht.
    destruct (IH (String.length (m_text m) - 1) st1' st2' H1) as [H2 Ho].
    destruct (replace_from cb1 _ s st1'), (replace_from cb2 _ s st2').
    simpl in *. by subst.
  - destruct (IH 0 st1 st2 HR) as [H2 Ho].
    destruct (replace_from cb1 0 s st1), (replace_from cb2 0 s st2).
    simpl in *. by subst.
Qed.

Lemma obj_set_fresh (k : string) (v : value) (o : obj) :
  k ∉ o.*1 → obj_set k v o = o ++ [(k, v)].
Proof.
  induction o as [|[k0 v0] o IH]; simpl; [done|]. intros Hk.
  rewrite bool_decide_eq_false_2 by set_solver. f_equal. apply IH. set_solver.
Qed.

Lemma obj_set_same_keys (k : string) (v1 v2 : value) (o1 o2 : obj) :
  o1.*1 = o2.*1 → (obj_set k v1 o1).*1 = (obj_set k v2 o2).*1.
Proof.
  revert o2. induction o1 as [|[k1 w1] o1 IH]; intros [|[k2 w2] o2]; simpl; try done.
  intros [= -> Ho]. case_bool_decide; simpl; [by rewrite Ho|].
  f_equal. by apply IH.
Qed.

Global Instance var_name_inj : Inj (=) (=) var_name.
Proof.
  intros i j Hij. unfold var_name in Hij.
  apply (inj (String.app "__v")) in Hij. by apply (inj pretty) in Hij.
Qed.

Lemma var_names_S (n : nat) : var_names (S n) = var_names n ++ [var_name n].
Proof. unfold var_names. by rewrite seq_S, fmap_app. Qed.

Lemma var_name_fresh (n : nat) : var_name n ∉ var_names n.
Proof.
  unfold var_names. intros (i & Hi & Hin)%list_elem_of_fmap.
  apply (inj var_name) in Hi as <-. apply elem_of_seq in Hin. lia.
Qed.

(** X8. The variables generated for a condition: after the substitution
    the keys of the evaluation context are [__v0], ..., [__v(n-1)] in this
    order, [n] being the final counter; they are pairwise distinct. *)
Theorem substitution_variables (outputs : NodeOutputs) (s : string) :
  let st := (substituted outputs s).1 in
  (evalContext st).*1 = var_names (varCounter st)
  ∧ NoDup (evalContext st).*1
  ∧ length (evalContext st) = varCounter st.
Proof.
  cbv zeta.
  assert ((evalContext (substituted outputs s).1).*1
          = var_names (varCounter (substituted outputs s).1)) as Hkeys.
  { unfold substituted, replace_templates.
    apply (replace_from_invariant
             (λ st, (evalContext st).*1 = var_names (varCounter st))); [|done].
    intros m st Hst. unfold substitute, replaceTemplateVariable. cbv zeta.
    destruct (negb (Boolean _)); [done|].
    cbn [fst evalContext varCounter]. rewrite js_set_var_name.
    rewrite obj_set_fresh by (rewrite Hst; apply var_name_fresh).
    by rewrite fmap_app, Hst, var_names_S. }
  split_and!; [done| |].
  - rewrite Hkeys. unfold var_names. apply NoDup_fmap_2; [apply _|apply NoDup_seq].
  - rewrite <-(length_fmap fst), Hkeys. unfold var_names.
    by rewrite length_fmap, length_seq.
Qed.

Lemma obj_get_same_keys (k : string) (o1 o2 : obj) :
  o1.*1 = o2.*1 → is_Some (obj_get k o1) ↔ is_Some (obj_get k o2).
Proof.
  revert o2. induction o1 as [|[k1 w1] o1 IH]; intros [|[k2 w2] o2]; simpl; try done.
  intros [= -> Ho]. case_bool_decide; [by split; eauto|]. by apply IH.
Qed.

Lemma js_set_same_keys (k : string) (v1 v2 : value) (o1 o2 : obj) :
  o1.*1 = o2.*1 → (js_set k v1 o1).*1 = (js_set k v2 o2).*1.
Proof.
  intros Ho. unfold js_set.
  rewrite (bool_decide_ext _ _ (obj_get_same_keys k o1 o2 Ho)).
  destruct (_ && _); [done|]. by apply obj_set_same_keys.
Qed.

(** X9. Recorded data never reaches the text handed to the validator and
    to [new Function]: two [outputs] objects under which the same keys read
    as truthy give the same transformed expression, the same variable names
    and the same keys of [resolvedValues], whatever the data they hold. *)
Theorem expression_text_ignores_values (outputs outputs' : NodeOutputs)
    (s : string) :
  (∀ key, Boolean (outputs_get outputs key) = Boolean (outputs_get outputs' key)) →
  (substituted outputs s).2 = (substituted outputs' s).2
  ∧ (evalContext (substituted outputs s).1).*1
    = (evalContext (substituted outputs' s).1).*1
  ∧ (resolved (substituted outputs s).1).*1
    = (resolved (substituted outputs' s).1).*1.
Proof.
  intros Hdom. unfold substituted, replace_templates.
  destruct (replace_from_related
              (λ st1 st2, varCounter st1 = varCounter st2
                          ∧ (evalContext st1).*1 = (evalContext st2).*1
                          ∧ (resolved st1).*1 = (resolved st2).*1)
              (substitute outputs) (substitute outputs')) with
    (s := s) (k := 0) (st1 := subst_init) (st2 := subst_init)
    as [(_ & Hctx & Hres) Htext]; [|done|done].
  intros m st1 st2 (Hn & Hctx & Hres).
  unfold substitute, replaceTemplateVariable. cbv zeta.
  rewrite (Hdom (sanitize (m_nodeId m))).
  destruct (negb (Boolean (outputs_get outputs' _))).
  - cbn [fst snd evalContext varCounter resolved].
    split_and!; [done|done|by apply js_set_same_keys|done].
  - cbn [fst snd evalContext varCounter resolved]. rewrite Hn.
    split_and!; [done| |by apply js_set_same_keys|done].
    by apply js_set_same_keys.
Qed.

(** ** The evaluator and the step input *)

Section EvaluatorGate.

Context `{Collaborators}.

Implicit Types (outputs : NodeOutputs) (s : string).

(** X10. A string condition evaluates to [true] exactly when the
    pre-validator accepts it, the validator accepts the transformed
    expression, and the compiled function returns a truthy value without
    throwing. *)
Theorem condition_true_iff outputs s :
  (∃ r, evaluateConditionExpression (VStr s) outputs = Normal r ∧ result r = true)
  ↔ preValidateConditionExpression s = true
    ∧ validateConditionExpression (substituted outputs s).2 = true
    ∧ ∃ v, evalFunc (evalContext (substituted outputs s).1)
             ("return (" +:+ (substituted outputs s).2 +:+ ");") = Normal v
           ∧ Boolean v = true.
Proof.
  unfold substituted. simpl.
  destruct (preValidateConditionExpression s); simpl.
  2: { split; [intros (r & [= <-] & ?); done|intros [? _]; done]. }
  destruct (replace_templates (substitute outputs) s subst_init) as [st t]. simpl.
  destruct (validateConditionExpression t); simpl.
  2: { split; [intros (r & [= <-] & ?); done|intros (_ & ? & _); done]. }
  destruct (evalFunc _ _) as [v|message]; simpl.
  - split.
    + intros (r & [= <-] & Hr). simpl in Hr. eauto.
    + intros (_ & _ & v' & [= <-] & Hv). eauto.
  - split; [intros (r & [= <-] & ?); done|intros (_ & _ & v & ? & _); done].
Qed.

(** *** Step input *)

(** X11. On a configuration with pairwise distinct keys
    [processTemplates] keeps the keys other than [__proto__] and their
    order, resolves every string field and copies every other field; a
    field named [__proto__] is dropped. *)
Lemma processTemplates_fields outputs (config : obj) :
  NoDup config.*1 →
  processTemplates config outputs
  = (λ kv, (kv.1, resolved_field outputs kv.2))
    <$> filter (λ kv, kv.1 ≠ "__proto__") config.
Proof.
  rewrite processTemplates_fold.
  assert (∀ acc, NoDup (acc.*1 ++ config.*1) → "__proto__" ∉ acc.*1 →
            foldl (λ processed kv,
                     js_set kv.1 (resolved_field outputs kv.2) processed) acc config
            = acc ++ ((λ kv, (kv.1, resolved_field outputs kv.2))
                      <$> filter (λ kv, kv.1 ≠ "__proto__") config))
    as Hgen.
  { induction config as [|[k v] config IH]; intros acc Hnd Hp; simpl.
    - by rewrite app_nil_r.
    - apply NoDup_app in Hnd as (Hacc & Hdisj & Hcfg).
      apply NoDup_cons in Hcfg as [Hk Hcfg].
      assert (k ∉ acc.*1) as Hfresh by (intros Hin; apply (Hdisj k Hin); set_solver).
      destruct (decide (k = "__proto__")) as [->|Hkp].
      + rewrite js_set_proto by by apply obj_get_None.
        rewrite filter_cons_False by (simpl; by intros ?).
        apply IH; [|done]. apply NoDup_app. split_and!; [done| |done].
        intros x Hx Hin. apply (Hdisj x Hx). set_solver.
      + rewrite js_set_other, obj_set_fresh by done.
        rewrite filter_cons_True by done. rewrite IH.
        * simpl. by rewrite <-app_assoc.
        * rewrite fmap_app. simpl. rewrite <-app_assoc. simpl.
          apply NoDup_app. split_and!; [done| |by apply NoDup_cons].
          intros x Hx [->|Hin]%elem_of_cons; [done|].
          apply (Hdisj x Hx). set_solver.
        * rewrite fmap_app. simpl. set_solver. }
  intros Hnd. rewrite (Hgen []); [done|done|set_solver].
Qed.

(** X12. The object [stepInput] built inside the step, which every step
    but the Condition step receives (the Condition step reads its
    [condition] only): [condition] is as the configuration has it (not
    resolved), [_context] is the step context (a configured [_context] is
    replaced), there is no field [__proto__], and every other field is
    resolved as [processTemplates] does. *)
Theorem step_input_fields (executionId : option string) (node : WorkflowNode)
    (actionType : value) outputs :
  NoDup (config_of node).*1 →
  let stepInput := stepInput_of executionId node actionType outputs in
  prop "condition" stepInput = prop "condition" (config_of node)
  ∧ prop "_context" stepInput = stepContext_of executionId node actionType
  ∧ obj_get "__proto__" stepInput = None
  ∧ ∀ key, key ≠ "condition" → key ≠ "_context" → key ≠ "__proto__" →
           obj_get key stepInput
           = resolved_field outputs <$> obj_get key (config_of node).
Proof.
  intros Hnd. cbv zeta. unfold stepInput_of, prop.
  assert (∀ key, obj_get key (processTemplates
                                (obj_set "condition" VUndefined (config_of node)) outputs)
                 = if bool_decide (key = "__proto__") then None
                   else resolved_field outputs
                        <$> (if bool_decide ("condition" = key) then Some VUndefined
                             else obj_get key (config_of node))) as Hget.
  { intros key. rewrite processTemplates_get by by apply obj_set_NoDup.
    by rewrite obj_get_set. }
  split_and!.
  - rewrite obj_get_set, bool_decide_eq_false_2 by done.
    unfold processedConfig_of, prop.
    destruct (default VUndefined (obj_get "condition" (config_of node))) eqn:E;
      rewrite ?obj_get_set, ?bool_decide_eq_true_2 by done; try done.
    rewrite Hget, bool_decide_eq_false_2 by done.
    by rewrite bool_decide_eq_true_2.
  - by rewrite obj_get_set, bool_decide_eq_true_2.
  - rewrite obj_get_set, bool_decide_eq_false_2 by done.
    unfold processedConfig_of.
    destruct (prop "condition" (config_of node));
      rewrite ?obj_get_set, ?(bool_decide_eq_false_2 ("condition" = "__proto__"))
        by done;
      by rewrite Hget, bool_decide_eq_true_2.
  - intros key Hc Hx Hp. rewrite obj_get_set, bool_decide_eq_false_2 by done.
    unfold processedConfig_of.
    destruct (prop "condition" (config_of node));
      rewrite ?obj_get_set, ?(bool_decide_eq_false_2 ("condition" = key)) by done;
      rewrite Hget, (bool_decide_eq_false_2 (key = "__proto__")) by done;
      by rewrite bool_decide_eq_false_2.
Qed.

(** X13. [getNodeName]: a non-empty label is the name; an action or
    trigger node always gets a non-empty name; an action node without label
    and without action type is named [Action]. *)
Theorem getNodeName_cases (node : WorkflowNode) :
  (∀ l, node_label node = Some l → l ≠ "" → getNodeName node = VStr l)
  ∧ (node_type node = "action" ∨ node_type node = "trigger" →
     Boolean (getNodeName node) = true)
  ∧ (node_type node = "action" →
     (node_label node = None ∨ node_label node = Some "") →
     Boolean (prop "actionType" (config_of node)) = false →
     getNodeName node = VStr "Action").
Proof.
  unfold getNodeName. split_and!.
  - intros l -> Hl. simpl. by rewrite bool_decide_eq_false_2.
  - intros Hty. destruct (Boolean (of_option (node_label node))) eqn:E; [done|].
    destruct Hty as [-> | ->]; simpl.
    + destruct (if Boolean _ then _ else _) as [l|]; [|done].
      case_bool_decide; simpl; [done|]. by rewrite bool_decide_eq_false_2.
    + unfold js_or. by destruct (Boolean (prop "triggerType" (config_of node))) eqn:E'.
  - intros -> Hl Hat.
    assert (Boolean (of_option (node_label node)) = false) as ->
      by by destruct Hl as [-> | ->].
    simpl. by rewrite Hat.
Qed.

End EvaluatorGate.

(** ** The graph model, continued *)

(** X14. [nodeMap.get(id)] is the last node of the list with that id, and
    [undefined] when there is none. *)
Theorem nodeMap_lookup (nodes : list WorkflowNode) (id : string) :
  nodeMap nodes !! id = last (filter (λ n, node_id n = id) nodes).
Proof.
  induction nodes as [|n nodes IH] using rev_ind; [done|].
  rewrite nodeMap_snoc, filter_app.
  destruct (decide (node_id n = id)) as [Hid|Hid].
  - rewrite filter_cons_True, filter_nil by done.
    by rewrite <-Hid, lookup_insert_eq, last_snoc.
  - rewrite filter_cons_False, filter_nil, app_nil_r by done.
    by rewrite lookup_insert_ne.
Qed.

(** X15. [edgesBySource.get(nodeId) || []] lists the targets of the edges
    that leave [nodeId], in edge order, one entry per edge. *)
Theorem nextNodes_of_edges (edges : list WorkflowEdge) (nodeId : string) :
  nextNodes_of edges nodeId
  = edge_target <$> filter (λ e, edge_source e = nodeId) edges.
Proof.
  induction edges as [|e edges IH] using rev_ind; [done|].
  rewrite nextNodes_of_snoc, filter_app, fmap_app, IH.
  destruct (decide (edge_source e = nodeId)) as [Hs|Hs].
  - by rewrite filter_cons_True, filter_nil.
  - by rewrite filter_cons_False, filter_nil.
Qed.

(** ** Single steps of the executor *)

Section StepOutcomes.

Context `{Collaborators}.
Variable nodes : list WorkflowNode.
Variable edges : list WorkflowEdge.
Variable triggerInput : obj.
Variable executionId : option string.

Implicit Types (st : RunState) (nodeId : string) (node : WorkflowNode).

Local Abbreviation visit := (executeNode nodes edges triggerInput executionId).
Local Abbreviation body := (executeNode_body nodes edges triggerInput executionId).
Local Abbreviation targets := (nodesWithIncoming edges).
Local Abbreviation unvisited st := (size (targets ∖ visited st)).

(** X16. An enabled action node with a falsy [actionType], met
    unvisited: the failure [Action node "<label or id>" has no action type
    configured] is recorded and nothing else happens: no step runs, no
    output is written, no successor is visited. *)
Theorem missing_action_type nodeId node st (fuel : nat) :
  nodeId ∉ visited st →
  nodeMap nodes !! nodeId = Some node →
  node_enabled node ≠ Some false →
  node_type node = "action" →
  Boolean (prop "actionType" (config_of node)) = false →
  visit (S fuel) nodeId st
  = Some (set_result nodeId
            (failure_result
               (VStr ("Action node " +:+ quoted (label_or node nodeId)
                      +:+ " has no action type configured")))
            (enter nodeId (mark_visited nodeId st))).
Proof.
  intros Hvis Hnode Hen Hty Hat.
  destruct (nodeMap_Some _ _ _ Hnode) as [Hid _].
  simpl. unfold executeNode_body.
  rewrite bool_decide_eq_false_2, Hnode, bool_decide_eq_false_2 by done.
  unfold run_node. rewrite Hty. simpl. rewrite Hat. simpl. by rewrite Hid.
Qed.

(** X17. An enabled node whose type is neither [trigger] nor [action]:
    the failure [Unknown node type "<type>"] is recorded, an output with
    [data: undefined] is stored, and no successor is visited. *)
Theorem unknown_node_type nodeId node st (fuel : nat) :
  nodeId ∉ visited st →
  nodeMap nodes !! nodeId = Some node →
  node_enabled node ≠ Some false →
  node_type node ≠ "trigger" →
  node_type node ≠ "action" →
  visit (S fuel) nodeId st
  = Some (set_output nodeId
            {| out_label := label_or node nodeId; out_data := VUndefined |}
            (set_result nodeId
               (failure_result
                  (VStr ("Unknown node type " +:+ quoted (node_type node))))
               (enter nodeId (mark_visited nodeId st)))).
Proof.
  intros Hvis Hnode Hen Hty1 Hty2.
  simpl. unfold executeNode_body.
  rewrite bool_decide_eq_false_2, Hnode, bool_decide_eq_false_2 by done.
  unfold run_node. by rewrite !bool_decide_eq_false_2 by done.
Qed.

Lemma Boolean_VStr_append (a b : string) :
  a ≠ "" → Boolean (VStr (a +:+ b)) = true.
Proof. by destruct a. Qed.

Lemma action_result_failure (actionType : value) (message : string) :
  Boolean (VStr message) = true →
  action_result actionType (VObj [("success", VBool false); ("error", VStr message)])
  = failure_result (VStr message).
Proof.
  intros Hm. unfold action_result.
  assert (isErrorResult (VObj [("success", VBool false); ("error", VStr message)])
          = true) as -> by reflexivity.
  rewrite js_get_own by (first [discriminate | reflexivity]). simpl.
  unfold js_or. by rewrite Hm.
Qed.

(** X18. An action type under which [SYSTEM_ACTIONS] has nothing, own or
    inherited, and that the registry does not know, or whose imported
    module lacks the entry point: the step returns a failure object, so
    the node records the failure with the corresponding message, stores an
    output with [data: undefined], and visits no successor. *)
Theorem unresolvable_action_type nodeId node st (fuel : nat) :
  let actionType := prop "actionType" (config_of node) in
  nodeId ∉ visited st →
  nodeMap nodes !! nodeId = Some node →
  node_enabled node ≠ Some false →
  node_type node = "action" →
  Boolean actionType = true →
  is_Condition actionType = false →
  SYSTEM_ACTIONS (String_ actionType) = None →
  ∀ message,
    match getStepImporter (String_ actionType) with
    | None => message = "Unknown action type: " +:+ quoted (String_ actionType)
    | Some (name, imported) =>
        imported = Normal None
        ∧ message = "Step function " +:+ quoted name +:+ " not found for action "
                    +:+ quoted (String_ actionType)
    end →
    visit (S fuel) nodeId st
    = Some (set_output nodeId
              {| out_label := label_or node nodeId; out_data := VUndefined |}
              (set_result nodeId (failure_result (VStr message))
                 (enter nodeId (mark_visited nodeId st)))).
Proof.
  intros actionType Hvis Hnode Hen Hty Hat Hcond Hsys message Hmsg.
  assert (actionStep executionId node actionType (outputs st)
          = Normal (VObj [("success", VBool false); ("error", VStr message)])
          ∧ Boolean (VStr message) = true) as [Hstep Htruthy].
  { unfold actionStep. rewrite Hcond, Hsys.
    destruct (getStepImporter (String_ actionType)) as [[name imported]|].
    - destruct Hmsg as [-> ->]. split; [done|]. by apply Boolean_VStr_append.
    - rewrite Hmsg. split; [done|]. by apply Boolean_VStr_append. }
  simpl. unfold executeNode_body.
  rewrite bool_decide_eq_false_2, Hnode, bool_decide_eq_false_2 by done.
  unfold run_node. rewrite Hty. simpl. fold actionType. rewrite Hat. simpl.
  rewrite Hstep. by rewrite action_result_failure.
Qed.

(** X19. A step that throws: the [catch] block records the failure with
    the thrown message; no output is written and no successor is
    visited. *)
Theorem thrown_error_ends_branch nodeId node st (message : string) (fuel : nat) :
  nodeId ∉ visited st →
  nodeMap nodes !! nodeId = Some node →
  node_enabled node ≠ Some false →
  node_type node = "action" →
  Boolean (prop "actionType" (config_of node)) = true →
  actionStep executionId node (prop "actionType" (config_of node)) (outputs st)
  = Abrupt message →
  visit (S fuel) nodeId st
  = Some (set_result nodeId (failure_result (VStr message))
            (enter nodeId (mark_visited nodeId st))).
Proof.
  intros Hvis Hnode Hen Hty Hat Hstep.
  simpl. unfold executeNode_body.
  rewrite bool_decide_eq_false_2, Hnode, bool_decide_eq_false_2 by done.
  unfold run_node. rewrite Hty. simpl. rewrite Hat. simpl.
  by rewrite Hstep.
Qed.

(** One call on an enabled node whose attempt reaches the stores, seen
    from outside. *)
Lemma executeNode_stored_walk nodeId node st st0 (r : ExecutionResult) :
  nodeId ∉ visited st →
  nodeMap nodes !! nodeId = Some node →
  node_enabled node ≠ Some false →
  run_node triggerInput executionId nodeId node (enter nodeId (mark_visited nodeId st))
  = (Stored r, st0) →
  ∃ st' rest,
    visit (enough_fuel edges) nodeId st = Some st'
    ∧ history st'
      = history st
        ++ (Entered nodeId :: ResultWritten nodeId r
            :: OutputWritten nodeId (sanitize nodeId)
                 {| out_label := label_or node nodeId; out_data := res_data r |}
            :: rest)
    ∧ (∀ e, e ∈ rest → event_node e ≠ nodeId)
    ∧ (nodeId ≠ "__proto__" → results st' !! nodeId = Some r)
    ∧ (continues node r = true →
       ∀ n, n ∈ nextNodes_of edges nodeId → n ∈ visited st')
    ∧ (continues node r = false →
       rest = [] ∧ visited st' = {[nodeId]} ∪ visited st).
Proof.
  intros Hvis Hnode Hen Hrun.
  pose proof (run_node_frame triggerInput executionId nodeId node
                (enter nodeId (mark_visited nodeId st))) as (Hv & Ho & Hr & Hh).
  rewrite Hrun in Hv, Ho, Hr, Hh. simpl in Hv, Ho, Hr, Hh.
  unfold enough_fuel.
  rewrite (executeNode_stored nodes edges triggerInput executionId nodeId node st st0 r) by done.
  set (st1 := set_output nodeId _ (set_result nodeId r st0)).
  assert (history st1 = history st ++ [Entered nodeId; ResultWritten nodeId r;
            OutputWritten nodeId (sanitize nodeId)
              {| out_label := label_or node nodeId; out_data := res_data r |}])
    as Hh1 by (simpl; by rewrite Hh, <-!app_assoc).
  assert (visited st1 = {[nodeId]} ∪ visited st) as Hv1 by (simpl; by rewrite Hv).
  assert (nodeId ≠ "__proto__" → results st1 !! nodeId = Some r) as Hr1.
  { intros Hp. simpl. rewrite bool_decide_eq_false_2 by done.
    apply lookup_insert_eq. }
  clearbody st1.
  destruct (continues node r) eqn:Hcont.
  - destruct (for_each_ok edges
                (visit (S (length edges))) (S (length edges))
                (nextNodes_of edges nodeId) st1)
      as (st' & rest & Hloop & Hext & Hsucc).
    { apply executeNode_ok. }
    { apply nextNodes_targets. }
    { pose proof (size_targets edges).
      assert (unvisited st1 ≤ size targets) by (apply subseteq_size; set_solver).
      lia. }
    assert (∀ e, e ∈ rest → event_node e ≠ nodeId) as Hrest.
    { intros e He Hid. destruct (ext_nodes _ _ _ Hext e He) as [_ Hnot].
      apply Hnot. rewrite Hid, Hv1. set_solver. }
    exists st', rest. split_and!; [done| |done| |done|done].
    + rewrite (ext_history _ _ _ Hext), Hh1. by rewrite <-!app_assoc.
    + intros Hp. rewrite (ext_results _ _ _ Hext); [by apply Hr1|].
      intros (e & He & Hid)%result_ids_node. by apply (Hrest e).
  - exists st1, []. split_and!; [done|done| |done|done|done].
    by intros e ?%elem_of_nil.
Qed.

(** X20. An enabled node whose attempt reaches the stores: the result
    and then the output are assigned, once; on a failed result nothing else
    happens; on a successful result of a node that is no Condition action
    every successor ends up visited; unless the id is [__proto__] (where
    the assignment creates no entry) the result of the node is an entry of
    [results] when the call returns. *)
Theorem stored_result_decides_branch nodeId node st st0 (r : ExecutionResult) :
  nodeId ∉ visited st →
  nodeMap nodes !! nodeId = Some node →
  node_enabled node ≠ Some false →
  run_node triggerInput executionId nodeId node (enter nodeId (mark_visited nodeId st))
  = (Stored r, st0) →
  ∃ st' rest,
    visit (enough_fuel edges) nodeId st = Some st'
    ∧ history st'
      = history st
        ++ (Entered nodeId :: ResultWritten nodeId r
            :: OutputWritten nodeId (sanitize nodeId)
                 {| out_label := label_or node nodeId; out_data := res_data r |}
            :: rest)
    ∧ (∀ e, e ∈ rest → event_node e ≠ nodeId)
    ∧ (nodeId ≠ "__proto__" → results st' !! nodeId = Some r)
    ∧ (res_success r = false → rest = [] ∧ visited st' = {[nodeId]} ∪ visited st)
    ∧ (res_success r = true →
       ¬ (node_type node = "action"
          ∧ prop "actionType" (config_of node) = VStr "Condition") →
       ∀ n, n ∈ nextNodes_of edges nodeId → n ∈ visited st').
Proof.
  intros Hvis Hnode Hen Hrun.
  destruct (executeNode_stored_walk nodeId node st st0 r)
    as (st' & rest & Hwalk & Hh & Hrest & Hres & Hyes & Hno); try done.
  exists st', rest. split_and!; try done.
  - intros Hfail. apply Hno. unfold continues. by rewrite Hfail.
  - intros Hok Hnc. apply Hyes. unfold continues. rewrite Hok. simpl.
    case_bool_decide as Hty; simpl; [|done].
    destruct (prop "actionType" (config_of node)) as [| | | |t| | |] eqn:Hat;
      simpl; try done.
    case_bool_decide as Ht; [|done]. destruct Hnc. by rewrite Ht.
Qed.

(** X21. A Condition node never records a failure: whatever its
    expression, the result assigned is a success carrying [{condition: b}],
    [b] being what [evaluateConditionExpression] returned (an entry of
    [results] when the call returns, unless the id is [__proto__]); the
    successors are walked when [b] is [true], and nothing else happens when
    it is [false]. *)
Theorem condition_node_never_fails nodeId node st :
  nodeId ∉ visited st →
  nodeMap nodes !! nodeId = Some node →
  node_enabled node ≠ Some false →
  node_type node = "action" →
  prop "actionType" (config_of node) = VStr "Condition" →
  (∀ input outcome, withStepLogging input outcome = outcome) →
  ∃ ev st',
    evaluateConditionExpression
      (prop "condition" (stepInput_of executionId node (VStr "Condition") (outputs st)))
      (outputs st) = Normal ev
    ∧ visit (enough_fuel edges) nodeId st = Some st'
    ∧ ResultWritten nodeId
        (success_result (VObj [("condition", VBool (result ev))])) ∈ history st'
    ∧ result_ids (drop (length (history st)) (history st')) !! 0 = Some nodeId
    ∧ (nodeId ≠ "__proto__" →
       results st' !! nodeId
       = Some (success_result (VObj [("condition", VBool (result ev))])))
    ∧ (result ev = true → ∀ n, n ∈ nextNodes_of edges nodeId → n ∈ visited st')
    ∧ (result ev = false →
       visited st' = {[nodeId]} ∪ visited st
       ∧ history st'
         = history st
           ++ [Entered nodeId;
               ResultWritten nodeId
                 (success_result (VObj [("condition", VBool false)]));
               OutputWritten nodeId (sanitize nodeId)
                 {| out_label := label_or node nodeId;
                    out_data := VObj [("condition", VBool false)] |}]).
Proof.
  intros Hvis Hnode Hen Hty Hat Hlog.
  destruct (evaluateConditionExpression_normal
              (prop "condition"
                 (stepInput_of executionId node (VStr "Condition") (outputs st)))
              (outputs st)) as [ev Hev].
  set (r := success_result (VObj [("condition", VBool (result ev))])).
  destruct (executeNode_stored_walk nodeId node st
              (enter nodeId (mark_visited nodeId st)) r)
    as (st' & rest & Hwalk & Hh & Hrest & Hres & Hyes & Hno); try done.
  { by apply run_node_condition. }
  assert (continues node r = result ev) as Hcont by by apply continues_condition.
  exists ev, st'. split_and!; try done.
  - rewrite Hh. set_solver.
  - by rewrite Hh, drop_app_length.
  - intros Htrue. apply Hyes. by rewrite Hcont.
  - intros Hfalse. destruct Hno as [-> Hv]; [by rewrite Hcont|].
    split; [done|]. rewrite Hh. unfold r. by rewrite Hfalse.
Qed.

End StepOutcomes.

(** ** What a whole run can and cannot touch *)

Lemma NoDup_fmap_eq {A B : Type} (f : A → B) (l : list A) (x y : A) :
  NoDup (f <$> l) → x ∈ l → y ∈ l → f x = f y → x = y.
Proof.
  induction l as [|a l IH]; intros Hnd Hx Hy Hf; [by apply elem_of_nil in Hx|].
  rewrite fmap_cons in Hnd. apply NoDup_cons in Hnd as [Ha Hnd].
  apply elem_of_cons in Hx as [->|Hx]; apply elem_of_cons in Hy as [->|Hy];
    try done.
  - destruct Ha. rewrite Hf. by apply list_elem_of_fmap_2.
  - destruct Ha. rewrite <-Hf. by apply list_elem_of_fmap_2.
  - by apply IH.
Qed.

Lemma nextNodes_edge_step (edges : list WorkflowEdge) (nodeId n : string) :
  n ∈ nextNodes_of edges nodeId → edge_step edges nodeId n.
Proof.
  induction edges as [|e edges IH] using rev_ind.
  { by intros ?%elem_of_nil. }
  rewrite nextNodes_of_snoc. intros [Hin|Hin]%elem_of_app.
  - destruct (IH Hin) as (e' & ? & ? & ?). exists e'. set_solver.
  - destruct (decide (edge_source e = nodeId)) as [Hs|Hs];
      [|by apply elem_of_nil in Hin].
    apply list_elem_of_singleton in Hin as ->. exists e. set_solver.
Qed.

Section RunFacts.

Context `{Collaborators}.
Variable nodes : list WorkflowNode.
Variable edges : list WorkflowEdge.
Variable triggerInput : obj.
Variable executionId : option string.

Implicit Types (st : RunState) (nodeId : string) (node : WorkflowNode).

Local Abbreviation visit := (executeNode nodes edges triggerInput executionId).
Local Abbreviation body := (executeNode_body nodes edges triggerInput executionId).
Local Abbreviation run := (walks nodes edges triggerInput executionId).

(** *** Reachability *)

Local Abbreviation from n new :=
  (Forall (λ e, reachable edges n (event_node e)
                ∧ is_Some (nodeMap nodes !! event_node e)) new).

Local Abbreviation visit_from f :=
  (∀ n s s', f n s = Some s' → ∃ new, history s' = history s ++ new ∧ from n new).

Lemma for_each_from (f : string → RunState → option RunState) nodeId
    (l : list string) st st' :
  visit_from f → (∀ n, n ∈ l → edge_step edges nodeId n) →
  for_each f l st = Some st' →
  ∃ new, history st' = history st ++ new ∧ from nodeId new.
Proof.
  intros Hf. revert st. induction l as [|n l IH]; intros st Hl; simpl.
  - intros [= ->]. exists []. by rewrite app_nil_r.
  - destruct (f n st) as [st1|] eqn:E; [|done]. intros Hloop.
    destruct (Hf _ _ _ E) as (new1 & Hh1 & Hnew1).
    destruct (IH st1) as (new2 & Hh2 & Hnew2); [set_solver|done|].
    exists (new1 ++ new2). split; [by rewrite Hh2, Hh1, app_assoc|].
    apply Forall_app. split; [|done].
    eapply Forall_impl; [exact Hnew1|]. intros e [He ?]. split; [|done].
    eapply rtc_l; [|exact He]. apply Hl. set_solver.
Qed.

Lemma body_from (f : string → RunState → option RunState) :
  visit_from f → visit_from (body f).
Proof.
  intros Hf nodeId st st'. unfold executeNode_body.
  case_bool_decide; [intros [= ->]; exists []; by rewrite app_nil_r|].
  destruct (nodeMap nodes !! nodeId) as [node|] eqn:Hnode;
    [|intros [= <-]; exists []; by rewrite app_nil_r].
  assert (∀ st1 own,
    history st1 = history st ++ own → Forall (λ e, event_node e = nodeId) own →
    for_each f (nextNodes_of edges nodeId) st1 = Some st' →
    ∃ new, history st' = history st ++ new ∧ from nodeId new) as Hloop.
  { intros st1 own Hh1 Hown Hrun.
    destruct (for_each_from f nodeId (nextNodes_of edges nodeId) st1 st' Hf)
      as (new & Hh & Hnew);
      [apply nextNodes_edge_step|done|].
    exists (own ++ new). split; [by rewrite Hh, Hh1, app_assoc|].
    apply Forall_app. split; [|done].
    eapply Forall_impl; [exact Hown|]. intros e ->. by rewrite Hnode. }
  assert (∀ st1 own,
    history st1 = history st ++ own → Forall (λ e, event_node e = nodeId) own →
    Some st1 = Some st' →
    ∃ new, history st' = history st ++ new ∧ from nodeId new) as Hstop.
  { intros st1 own Hh1 Hown [= <-]. exists own. split; [done|].
    eapply Forall_impl; [exact Hown|]. intros e ->. by rewrite Hnode. }
  case_bool_decide as Hen.
  { apply Hloop with
      [Entered nodeId;
       OutputWritten nodeId (sanitize nodeId)
         {| out_label := label_or node nodeId; out_data := VNull |}];
      [simpl; by rewrite <-app_assoc|by repeat constructor]. }
  pose proof (run_node_frame triggerInput executionId nodeId node
                (enter nodeId (mark_visited nodeId st))) as (_ & _ & _ & Hh).
  destruct (run_node _ _ _ _ _) as [[r|r|message] st0]; simpl in Hh.
  - destruct (continues node r).
    + apply Hloop with
        [Entered nodeId; ResultWritten nodeId r;
         OutputWritten nodeId (sanitize nodeId)
           {| out_label := label_or node nodeId; out_data := res_data r |}];
        [simpl; by rewrite Hh, <-!app_assoc|by repeat constructor].
    + apply Hstop with
        [Entered nodeId; ResultWritten nodeId r;
         OutputWritten nodeId (sanitize nodeId)
           {| out_label := label_or node nodeId; out_data := res_data r |}];
        [simpl; by rewrite Hh, <-!app_assoc|by repeat constructor].
  - apply Hstop with [Entered nodeId; ResultWritten nodeId r];
      [simpl; by rewrite Hh, <-!app_assoc|by repeat constructor].
  - apply Hstop with
      [Entered nodeId; ResultWritten nodeId (failure_result (VStr message))];
      [simpl; by rewrite Hh, <-!app_assoc|by repeat constructor].
Qed.

Lemma executeNode_from (fuel : nat) : visit_from (visit fuel).
Proof.
  induction fuel as [|fuel IH]; [done|]. simpl. by apply body_from.
Qed.

(** X22. A call of [executeNode] returns, and every node it enters or
    writes for is in the node map and can be reached from the start node
    along edges. *)
Theorem walk_stays_reachable nodeId st :
  ∃ st' new,
    visit (enough_fuel edges) nodeId st = Some st'
    ∧ history st' = history st ++ new
    ∧ ∀ e, e ∈ new →
        reachable edges nodeId (event_node e)
        ∧ is_Some (nodeMap nodes !! event_node e).
Proof.
  destruct (executeNode_terminates nodes edges triggerInput executionId nodeId st)
    as (st' & new0 & Hrun & _).
  destruct (executeNode_from _ _ _ _ Hrun) as (new & Hh & Hnew).
  exists st', new. split_and!; [done|done|].
  intros e He. by apply (proj1 (Forall_forall _ _) Hnew).
Qed.


(** *** Whole runs *)

Local Abbreviation starts := (triggerNodes nodes edges).

(** Every event of the history belongs to a node reachable from a start
    of the run. *)
Local Abbreviation from_a_start st :=
  (∀ e, e ∈ history st →
        ∃ trigger, trigger ∈ starts ∧ reachable edges (node_id trigger) (event_node e)).

Lemma walks_from_a_start (triggers : list WorkflowNode) st st' :
  (∀ trigger, trigger ∈ triggers → trigger ∈ starts) →
  run triggers st = Some st' → from_a_start st → from_a_start st'.
Proof.
  revert st. induction triggers as [|trigger triggers IH]; intros st Hsub.
  - by intros [= ->].
  - rewrite walks_cons.
    destruct (visit _ _ _) as [st1|] eqn:E; [|done].
    intros Hrun Hst. apply (IH st1); [set_solver|done|].
    destruct (executeNode_from _ _ _ _ E) as (new & Hh & Hnew).
    intros e. rewrite Hh. simpl. intros [He|He]%elem_of_app; [by apply Hst|].
    exists trigger. split; [set_solver|].
    by apply (proj1 (Forall_forall _ _) Hnew).
Qed.

(** Every entry of [results] and [outputs] was written by an event of the
    history, for a node of the graph. *)
Local Abbreviation written st :=
  ((∀ id r, results st !! id = Some r →
      id ∈ result_ids (history st)
      ∧ ∃ node, nodeMap nodes !! id = Some node ∧ node_enabled node ≠ Some false)
   ∧ (∀ key o, outputs st !! key = Some o →
        ∃ id node, id ∈ output_ids (history st)
                   ∧ nodeMap nodes !! id = Some node
                   ∧ key = sanitize id ∧ out_label o = label_or node id)).

Lemma walks_written (triggers : list WorkflowNode) st st' :
  run triggers st = Some st' → written st → written st'.
Proof.
  apply (walks_invariant nodes edges triggerInput executionId (λ s, written s));
    try done.
  - intros nodeId node s _ [Hr Ho]. simpl. unfold result_ids, output_ids.
    rewrite !omap_app. simpl. rewrite !app_nil_r. done.
  - intros nodeId node data s Hnode [Hr Ho]. simpl. unfold result_ids, output_ids.
    rewrite !omap_app. simpl. rewrite app_nil_r. split; [done|].
    assert (∀ key o, outputs s !! key = Some o →
              ∃ id node', id ∈ omap (λ e, match e with
                                          | OutputWritten n _ _ => Some n
                                          | _ => None
                                          end) (history s) ++ [nodeId]
                          ∧ nodeMap nodes !! id = Some node'
                          ∧ key = sanitize id ∧ out_label o = label_or node' id)
      as Hold.
    { intros key o Hkey. destruct (Ho key o Hkey) as (id & node' & ? & ? & ? & ?).
      exists id, node'. split_and!; try done. set_solver. }
    intros key o. unfold lookup at 1, NodeOutputs_lookup.
    rewrite entries_outputs_set.
    case_bool_decide; [apply Hold|]. case_bool_decide; [|apply Hold].
    intros [= <-]. exists nodeId, node. split_and!; try done. set_solver.
  - intros nodeId node st0 s Hnode Hen [Hr Ho]. simpl. unfold result_ids, output_ids.
    rewrite !omap_app. simpl. rewrite app_nil_r. split; [|done].
    assert (∀ id r, results s !! id = Some r →
              id ∈ omap (λ e, match e with
                              | ResultWritten n _ => Some n
                              | _ => None
                              end) (history s) ++ [nodeId]
              ∧ ∃ node', nodeMap nodes !! id = Some node'
                         ∧ node_enabled node' ≠ Some false) as Hold.
    { intros id r Hid. destruct (Hr id r Hid) as [? ?]. split; [set_solver|done]. }
    case_bool_decide; [done|].
    intros id r [[<- <-]|[_ Hid]]%lookup_insert_Some; [|by apply (Hold id r)].
    split; [set_solver|eauto].
Qed.

(** X23. In what a run returns, every result belongs to an enabled node
    of the graph that can be reached from a start node, and every output
    sits under the sanitized id of a node of the graph that can be reached
    from a start node, and carries the label (or id) of that node. *)
Theorem run_touches_only_reachable_nodes :
  ∃ ret,
    executeWorkflow nodes edges triggerInput executionId = Some ret
    ∧ (∀ id r, ret_results ret !! id = Some r →
         ∃ node trigger,
           nodeMap nodes !! id = Some node
           ∧ node_enabled node ≠ Some false
           ∧ trigger ∈ starts
           ∧ reachable edges (node_id trigger) id)
    ∧ (∀ key o, ret_outputs ret !! key = Some o →
         ∃ id node trigger,
           nodeMap nodes !! id = Some node
           ∧ key = sanitize id
           ∧ out_label o = label_or node id
           ∧ trigger ∈ starts
           ∧ reachable edges (node_id trigger) id).
Proof.
  unfold executeWorkflow.
  destruct (walks_total nodes edges triggerInput executionId starts
              (tick initial_state)) as (st & Hrun).
  rewrite Hrun.
  assert (from_a_start st) as Hfrom.
  { apply (walks_from_a_start starts (tick initial_state)); [done|done|].
    by intros e ?%elem_of_nil. }
  assert (written st) as [Hr Ho].
  { apply (walks_written starts (tick initial_state)); [done|].
    split; intros ? ?; [simpl; by rewrite lookup_empty|].
    unfold lookup, NodeOutputs_lookup. simpl. by rewrite lookup_empty. }
  eexists. split; [done|]. simpl. split.
  - intros id r Hid. destruct (Hr id r Hid) as [Hin (node & Hnode & Hen)].
    apply result_ids_node in Hin as (e & He & <-).
    destruct (Hfrom e He) as (trigger & ? & ?). by exists node, trigger.
  - intros key o Hkey. destruct (Ho key o Hkey) as (id & node & Hin & ? & ? & ?).
    apply output_ids_node in Hin as (e & He & <-).
    destruct (Hfrom e He) as (trigger & ? & ?). by exists (event_node e), node, trigger.
Qed.

(** X24. Every start node is entered, whatever happened on the walks
    before it: if the node the map holds under its id is enabled, a result
    is assigned for it, and the run returns a result under its id (a
    success when that node is a trigger) unless the id is [__proto__]; if
    it is disabled, an output is assigned for it, and the run returns an
    output under its sanitized id unless that is [__proto__]. With pairwise
    distinct ids the node the map holds is the start node itself. *)
Theorem every_start_is_run :
  ∃ st ret,
    run starts (tick initial_state) = Some st
    ∧ executeWorkflow nodes edges triggerInput executionId = Some ret
    ∧ ∀ trigger, trigger ∈ starts →
        ∃ node,
          nodeMap nodes !! node_id trigger = Some node
          ∧ (NoDup (node_id <$> nodes) → node = trigger)
          ∧ Entered (node_id trigger) ∈ history st
          ∧ (node_enabled node ≠ Some false →
             node_id trigger ∈ result_ids (history st)
             ∧ (node_id trigger ≠ "__proto__" →
                ∃ r, ret_results ret !! node_id trigger = Some r
                     ∧ (node_type node = "trigger" → res_success r = true)))
          ∧ (node_enabled node = Some false →
             node_id trigger ∈ output_ids (history st)
             ∧ (sanitize (node_id trigger) ≠ "__proto__" →
                is_Some (ret_outputs ret !! sanitize (node_id trigger)))).
Proof.
  unfold executeWorkflow.
  destruct (walks_total nodes edges triggerInput executionId starts
              (tick initial_state)) as (st & Hrun).
  rewrite Hrun. eexists _, _. split_and!; [done|done|]. simpl.
  intros trigger Hin.
  assert (trigger ∈ nodes) as Hnodes by by apply list_elem_of_filter in Hin as [_ ?].
  destruct (nodeMap_is_Some nodes trigger Hnodes) as [node Hnode].
  destruct (nodeMap_Some _ _ _ Hnode) as [Hid Hin'].
  destruct (walks_runs nodes edges triggerInput executionId
              (node_id trigger) node Hnode starts trigger
              (tick initial_state) st Hin eq_refl Hrun) as (He & Hr & Ho & _).
  exists node. split_and!; [done| |done| |done].
  - intros Hnd. by apply (NoDup_fmap_eq node_id nodes).
  - intros Hen. destruct (Hr Hen) as [Hids Hres]. split; [done|].
    intros Hp. destruct (Hres Hp) as [st0 Hres']. eexists. split; [exact Hres'|].
    intros Hty. by rewrite run_node_trigger.
Qed.

(** X25. When every trigger node has an incoming edge (or there is no
    trigger node), nothing runs: the run returns no result, no output, and
    [success: true]. *)
Theorem no_start_no_work :
  (∀ node, node ∈ nodes → node_type node = "trigger" →
           ∃ e, e ∈ edges ∧ edge_target e = node_id node) →
  executeWorkflow nodes edges triggerInput executionId
  = Some {| ret_success := true; ret_results := ∅; ret_outputs := ∅ |}.
Proof.
  intros Hall.
  assert (starts = []) as Hnone.
  { destruct starts as [|node l] eqn:E; [done|].
    assert (node ∈ starts) as Hin by (rewrite E; set_solver).
    apply list_elem_of_filter in Hin as [[Hty Hnot] Hin].
    destruct (Hall node Hin Hty) as (e & He & Htarget).
    destruct Hnot. unfold nodesWithIncoming. rewrite elem_of_list_to_set.
    rewrite <-Htarget. by apply list_elem_of_fmap_2. }
  unfold executeWorkflow. rewrite Hnone. simpl.
  unfold finalSuccess. by rewrite map_to_list_empty.
Qed.

End RunFacts.

(** ** The public view *)

Lemma obj_get_without_key (k k' : string) (o : obj) :
  obj_get k (without_key k' o) = if bool_decide (k' = k) then None else obj_get k o.
Proof.
  unfold without_key. induction o as [|[k0 v0] o IH]; simpl.
  - by case_bool_decide.
  - destruct (decide (k0 = k')) as [->|Hne].
    + rewrite filter_cons_False by (simpl; auto). rewrite IH.
      repeat case_bool_decide; congruence.
    + rewrite filter_cons_True by done. simpl. rewrite IH.
      repeat case_bool_decide; congruence.
Qed.

Lemma prop_obj_set (k k' : string) (v : value) (o : obj) :
  prop k (obj_set k' v o) = if bool_decide (k' = k) then v else prop k o.
Proof. unfold prop. rewrite obj_get_set. by case_bool_decide. Qed.

(** X26. [sanitizeNodesForPublicView]: no node of the public view has an
    [integrationId] in its [data.config]. *)
Theorem public_view_hides_integrations (nodes : list value) (node : value) :
  node ∈ sanitizeNodesForPublicView nodes →
  ∃ props,
    node = VObj props
    ∧ ∀ data config,
        obj_get "data" props = Some data → is_object data = true →
        js_get data "config" = config → is_object config = true →
        js_in "integrationId" config = false.
Proof.
  intros (source & -> & _)%list_elem_of_fmap. unfold sanitizedNode.
  destruct (is_object (prop "data" (own_props source))) eqn:Hdata.
  - eexists. split; [done|]. intros data config.
    rewrite obj_get_set, bool_decide_eq_true_2 by done.
    intros [= <-] _. simpl.
    destruct (is_object (prop "config" (own_props (prop "data" (own_props source)))))
      eqn:Hconfig.
    + rewrite js_get_own by (first [discriminate|reflexivity]).
      rewrite obj_get_set, bool_decide_eq_true_2 by done.
      intros <- _. unfold js_in. simpl. rewrite obj_get_without_key.
      rewrite (bool_decide_eq_true_2 ("integrationId" = "integrationId")) by done.
      apply bool_decide_eq_false_2. by intros [[? ?]|[? ?]].
    + rewrite js_get_own by (first [discriminate|reflexivity]).
      fold (prop "config" (own_props (prop "data" (own_props source)))).
      intros <-. by rewrite Hconfig.
  - eexists. split; [done|]. intros data config Hget.
    unfold prop in Hdata. rewrite Hget in Hdata. simpl in Hdata. by rewrite Hdata.
Qed.

(** X27. [sanitizeNodesForPublicView] returns one node per input node,
    in order; apart from [integrationId] in [data.config], every property
    of the node, of its [data] and of its [data.config] is as in the input;
    a node without an object under [data] is copied as it is. *)
Theorem public_view_keeps_the_rest (nodes : list value) :
  length (sanitizeNodesForPublicView nodes) = length nodes
  ∧ ∀ i source,
      nodes !! i = Some source →
      ∃ props,
        sanitizeNodesForPublicView nodes !! i = Some (VObj props)
        ∧ (∀ key, key ≠ "data" → obj_get key props = obj_get key (own_props source))
        ∧ (is_object (prop "data" (own_props source)) = false →
           props = own_props source)
        ∧ ∀ data, prop "data" (own_props source) = data → is_object data = true →
            ∃ copy,
              obj_get "data" props = Some (VObj copy)
              ∧ (∀ key, key ≠ "config" →
                        obj_get key copy = obj_get key (own_props data))
              ∧ (is_object (prop "config" (own_props data)) = false →
                 copy = own_props data)
              ∧ ∀ config, prop "config" (own_props data) = config →
                  is_object config = true →
                  ∃ rest,
                    obj_get "config" copy = Some (VObj rest)
                    ∧ ∀ key, key ≠ "integrationId" →
                        obj_get key rest = obj_get key (own_props config).
Proof.
  split; [apply length_fmap|].
  intros i source Hi. unfold sanitizeNodesForPublicView.
  rewrite list_lookup_fmap, Hi. simpl. unfold sanitizedNode.
  destruct (is_object (prop "data" (own_props source))) eqn:Hdata.
  - eexists. split; [done|]. split_and!.
    + intros key Hkey. rewrite obj_get_set. by rewrite bool_decide_eq_false_2.
    + done.
    + intros data <- _. eexists. split.
      { rewrite obj_get_set. by rewrite bool_decide_eq_true_2. }
      destruct (is_object (prop "config" (own_props (prop "data" (own_props source)))))
        eqn:Hconfig.
      * split_and!; [|done|].
        -- intros key Hkey. rewrite obj_get_set. by rewrite bool_decide_eq_false_2.
        -- intros config <- _. eexists. split.
           { rewrite obj_get_set. by rewrite bool_decide_eq_true_2. }
           intros key Hkey. rewrite obj_get_without_key.
           by rewrite bool_decide_eq_false_2.
      * split_and!; [done|done|]. intros config <- Hobj. by rewrite Hobj in Hconfig.
  - eexists. split; [done|]. split_and!; [done|done|].
    intros data <- Hobj. by rewrite Hobj in Hdata.
Qed.

(** ** Concrete runs, continued *)

(** X3, at a string with a closing brace and no reference. *)
Lemma untemplated_string_unchanged_witness :
  process_string (H := lenient) sample_outputs "a}b" = "a}b"
  ∧ processTemplates (H := lenient) [("url", VStr "a}b")] sample_outputs
    = (if bool_decide ("url" = "__proto__") then [] else [("url", VStr "a}b")])
  ∧ substituted sample_outputs "a}b" = (subst_init, "a}b").
Proof.
  apply (untemplated_string_unchanged (H := lenient) sample_outputs "a}b" "url").
  apply no_brace_untemplated. reflexivity.
Defined.

(** X5, at [{{@n1:a.x}}] and [{{@n1:b.x}}]. *)
Lemma first_segment_ignored_witness :
  resolve_in_string (H := lenient) sample_outputs (reference "n1" "a.x")
  = resolve_in_string (H := lenient) sample_outputs (reference "n1" "b.x")
  ∧ replaceTemplateVariable (reference "n1" "a.x") sample_outputs subst_init
    = replaceTemplateVariable (reference "n1" "b.x") sample_outputs subst_init.
Proof.
  apply (first_segment_ignored (H := lenient) sample_outputs
           (reference "n1" "a.x") (reference "n1" "b.x") "a" "b" "x" subst_init);
    try reflexivity.
  vm_compute. eauto.
Defined.

(** X6, at a node that stored the string [ok]. *)
Lemma reference_round_trip_witness :
  process_string (H := lenient)
    (outputs (set_output "n1" {| out_label := "n1"; out_data := VStr "ok" |}
                initial_state))
    (template_text "n1" "x") = "ok"
  ∧ substituted
      (outputs (set_output "n1" {| out_label := "n1"; out_data := VStr "ok" |}
                  initial_state))
      (template_text "n1" "x")
    = ({| evalContext := [("__v0", VStr "ok")]; varCounter := 1;
          resolved := js_set "x" (VStr "ok") [] |}, "__v0")
  ∧ js_set "x" (VStr "ok") [] = [("x", VStr "ok")].
Proof.
  pose proof (reference_round_trip (H := lenient) "n1" "x"
                {| out_label := "n1"; out_data := VStr "ok" |} initial_state)
    as Hw.
  cbv zeta in Hw. destruct Hw as [Hplain _]; try first [discriminate | reflexivity].
  destruct Hplain as (Hstr & Hsub & Hset); [reflexivity|].
  split_and!; [exact Hstr|exact Hsub|apply Hset; discriminate].
Defined.

(** X7, at the path [b] into the number 1. *)
Lemma broken_path_contexts_witness :
  resolve_in_string (H := lenient) sample_outputs (reference "n1" "a.b") = ""
  ∧ is_object (VNum 1%float) = false
  ∧ replaceTemplateVariable (reference "n1" "a.b") sample_outputs subst_init
    = ({| evalContext := obj_set (var_name 0) (VNum 1%float) [];
          varCounter := 1; resolved := [] |}, var_name 0).
Proof.
  apply (broken_path_contexts (H := lenient) sample_outputs (reference "n1" "a.b")
           {| out_label := "n1"; out_data := VNum 1%float |} "b" subst_init);
    reflexivity.
Defined.

(** X9, at two output maps with the key [n1]. *)
Lemma expression_text_ignores_values_witness :
  (substituted sample_outputs "{{@n1:x}} > 0").2
  = (substituted relabeled_outputs "{{@n1:x}} > 0").2
  ∧ (evalContext (substituted sample_outputs "{{@n1:x}} > 0").1).*1
    = (evalContext (substituted relabeled_outputs "{{@n1:x}} > 0").1).*1
  ∧ (resolved (substituted sample_outputs "{{@n1:x}} > 0").1).*1
    = (resolved (substituted relabeled_outputs "{{@n1:x}} > 0").1).*1.
Proof.
  apply (expression_text_ignores_values sample_outputs relabeled_outputs).
  intros key. unfold outputs_get, sample_outputs, relabeled_outputs. simpl.
  case_bool_decide; [reflexivity|].
  destruct (decide (key = "n1")) as [->|Hk].
  - rewrite !lookup_singleton_eq. reflexivity.
  - rewrite !lookup_singleton_ne by done. reflexivity.
Defined.

(** X11, at a configuration with a templated [url]. *)
Lemma processTemplates_fields_witness :
  processTemplates (H := lenient) (config_of (templated_node "A")) sample_outputs
  = (λ kv, (kv.1, resolved_field (H := lenient) sample_outputs kv.2))
      <$> filter (λ kv, kv.1 ≠ "__proto__") (config_of (templated_node "A")).
Proof.
  apply (processTemplates_fields (H := lenient) sample_outputs
           (config_of (templated_node "A"))).
  compute_done.
Defined.

(** X12, at the same configuration. *)
Lemma step_input_fields_witness :
  prop "condition" (stepInput_of (H := lenient) None (templated_node "A")
                      (VStr "HTTP Request") sample_outputs)
  = prop "condition" (config_of (templated_node "A"))
  ∧ prop "_context" (stepInput_of (H := lenient) None (templated_node "A")
                       (VStr "HTTP Request") sample_outputs)
    = stepContext_of (H := lenient) None (templated_node "A") (VStr "HTTP Request")
  ∧ obj_get "__proto__" (stepInput_of (H := lenient) None (templated_node "A")
                           (VStr "HTTP Request") sample_outputs) = None
  ∧ obj_get "url" (stepInput_of (H := lenient) None (templated_node "A")
                     (VStr "HTTP Request") sample_outputs)
    = resolved_field (H := lenient) sample_outputs
      <$> obj_get "url" (config_of (templated_node "A")).
Proof.
  pose proof (step_input_fields (H := lenient) None (templated_node "A")
                (VStr "HTTP Request") sample_outputs) as Hw.
  cbv zeta in Hw. destruct Hw as (Hc & Hx & Hp & Hrest); [compute_done|].
  split_and!; [exact Hc|exact Hx|exact Hp|]. apply Hrest; discriminate.
Defined.

(** X16, at an action node without configuration. *)
Lemma missing_action_type_witness :
  executeNode (H := lenient) [untyped_action_node "A"; action_node "B" "HTTP Request"]
    failing_edges [] None 3 "A" initial_state
  = Some (set_result "A"
            (failure_result
               (VStr ("Action node " +:+ quoted "A"
                      +:+ " has no action type configured")))
            (enter "A" (mark_visited "A" initial_state))).
Proof.
  apply (missing_action_type (H := lenient)
           [untyped_action_node "A"; action_node "B" "HTTP Request"] failing_edges
           [] None "A" (untyped_action_node "A") initial_state 2);
    first [ apply not_elem_of_empty | discriminate | reflexivity ].
Defined.

(** X17, at a node of type [note]. *)
Lemma unknown_node_type_witness :
  executeNode (H := lenient) [note_node "A"; action_node "B" "HTTP Request"]
    failing_edges [] None 3 "A" initial_state
  = Some (set_output "A" {| out_label := "A"; out_data := VUndefined |}
            (set_result "A"
               (failure_result (VStr ("Unknown node type " +:+ quoted "note")))
               (enter "A" (mark_visited "A" initial_state)))).
Proof.
  apply (unknown_node_type (H := lenient)
           [note_node "A"; action_node "B" "HTTP Request"] failing_edges
           [] None "A" (note_node "A") initial_state 2);
    first [ apply not_elem_of_empty | discriminate | reflexivity ].
Defined.

(** X18, at an action type the registry does not know. *)
Lemma unresolvable_action_type_witness :
  executeNode (H := lenient)
    [action_node "A" "Send Email"; action_node "B" "HTTP Request"]
    failing_edges [] None 3 "A" initial_state
  = Some (set_output "A" {| out_label := "A"; out_data := VUndefined |}
            (set_result "A"
               (failure_result
                  (VStr ("Unknown action type: " +:+ quoted "Send Email")))
               (enter "A" (mark_visited "A" initial_state)))).
Proof.
  apply (unresolvable_action_type (H := lenient)
           [action_node "A" "Send Email"; action_node "B" "HTTP Request"]
           failing_edges [] None "A" (action_node "A" "Send Email") initial_state 2);
    first [ apply not_elem_of_empty | discriminate | reflexivity ].
Defined.

(** X19, at a database step that throws. *)
Lemma thrown_error_ends_branch_witness :
  executeNode (H := lenient)
    [action_node "A" "Database Query"; action_node "B" "HTTP Request"]
    failing_edges [] None 3 "A" initial_state
  = Some (set_result "A" (failure_result (VStr "connection refused"))
            (enter "A" (mark_visited "A" initial_state))).
Proof.
  apply (thrown_error_ends_branch (H := lenient)
           [action_node "A" "Database Query"; action_node "B" "HTTP Request"]
           failing_edges [] None "A" (action_node "A" "Database Query")
           initial_state "connection refused" 2);
    first [ apply not_elem_of_empty | discriminate | reflexivity ].
Defined.

(** X20, at a step that succeeds and at one that reports a failure. *)
Lemma stored_result_decides_branch_witness :
  (∃ st',
     executeNode (H := lenient) failing_nodes failing_edges [] None
       (enough_fuel failing_edges) "A" initial_state = Some st'
     ∧ is_Some (results st' !! "A") ∧ "B" ∈ visited st')
  ∧ (∃ st',
       executeNode (H := failing) failing_nodes failing_edges [] None
         (enough_fuel failing_edges) "A" initial_state = Some st'
       ∧ results st' !! "A" = Some (failure_result (VStr "HTTP 500"))
       ∧ visited st' = {["A"]} ∪ ∅).
Proof.
  split.
  - destruct (run_node (H := lenient) [] None "A" (action_node "A" "HTTP Request")
                (enter "A" (mark_visited "A" initial_state)))
      as [[r|r|message] st0] eqn:Hrun; try (vm_compute in Hrun; discriminate).
    destruct (stored_result_decides_branch (H := lenient) failing_nodes failing_edges
                [] None "A" (action_node "A" "HTTP Request") initial_state st0 r)
      as (st' & rest & Hwalk & _ & _ & Hres & _ & Hok);
      try first [ apply not_elem_of_empty | discriminate | reflexivity | exact Hrun ].
    exists st'. split_and!; [exact Hwalk|rewrite Hres by discriminate; eauto|].
    vm_compute in Hrun. injection Hrun as <- <-.
    apply Hok; [reflexivity| |compute_done].
    intros [_ Hat]. discriminate Hat.
  - destruct (stored_result_decides_branch (H := failing) failing_nodes failing_edges
                [] None "A" (action_node "A" "HTTP Request") initial_state
                (enter "A" (mark_visited "A" initial_state))
                (failure_result (VStr "HTTP 500")))
      as (st' & rest & Hwalk & _ & _ & Hres & Hfail & _);
      try first [ apply not_elem_of_empty | discriminate | reflexivity ].
    exists st'. split_and!; [exact Hwalk|apply Hres; discriminate|].
    by destruct Hfail as [_ ->].
Defined.

(** X21, at an expression the evaluator throws on. *)
Lemma condition_node_never_fails_witness :
  ∃ st',
    executeNode (H := lenient) (chain_nodes (VStr "1 ===")) chain_edges [] None
      (enough_fuel chain_edges) "C" initial_state = Some st'
    ∧ results st' !! "C" = Some (success_result (VObj [("condition", VBool false)]))
    ∧ visited st' = {["C"]} ∪ ∅.
Proof.
  destruct (condition_node_never_fails (H := lenient) (chain_nodes (VStr "1 ==="))
              chain_edges [] None "C" (condition_node "C" (VStr "1 ===")) initial_state)
    as (ev & st' & Hev & Hwalk & _ & _ & Hres & _ & Hfalse);
    try first [ apply not_elem_of_empty | discriminate | reflexivity ].
  vm_compute in Hev. injection Hev as <-.
  exists st'. split_and!; [exact Hwalk|apply Hres; discriminate|].
  by destruct Hfalse as [-> _].
Defined.

(** X25, at a trigger on a cycle. *)
Lemma no_start_no_work_witness :
  executeWorkflow (H := lenient) looped_nodes looped_edges [] None
  = Some {| ret_success := true; ret_results := ∅; ret_outputs := ∅ |}.
Proof.
  apply (no_start_no_work (H := lenient) looped_nodes looped_edges [] None).
  intros node Hin Hty. exists (edge "A" "T").
  split; [unfold looped_edges; set_solver|].
  unfold looped_nodes in Hin.
  apply elem_of_cons in Hin as [->|Hin]; [reflexivity|].
  apply list_elem_of_singleton in Hin as ->. discriminate Hty.
Defined.

(** X26, at a node that names an integration. *)
Lemma public_view_hides_integrations_witness :
  ∃ props,
    sanitizedNode stored_node = VObj props
    ∧ ∀ data config,
        obj_get "data" props = Some data → is_object data = true →
        js_get data "config" = config → is_object config = true →
        js_in "integrationId" config = false.
Proof.
  apply (public_view_hides_integrations [stored_node] (sanitizedNode stored_node)).
  apply list_elem_of_singleton. reflexivity.
Defined.
